(** * The HTML generator of the code browser (generator/generator.cpp)

    A shallow embedding of [Generator::escapeAttr],
    [Generator::escapeAttrForFilename], [Generator::Tag::open],
    [Generator::Tag::close], [Generator::getCommonLines],
    [Generator::getCoveredLines] and of [Generator::generate]: its
    table-rendering part (from the [<table class="code">] line to the
    closing [</table><hr/>]) and, of the page header, the path to the root,
    the title and the breadcrumb (the style sheets, the scripts, the
    warning message and the footer are left out), followed by the
    properties of what they write.

    The development has three layers: the loop as it is written ([render]);
    the same rendering told with the stack of open tags alone ([stacked]),
    which the loop follows for every tag list sorted by start and inside the
    buffer; and the rendering told from the tag ranges alone ([expected]),
    which agrees with it when the list is nested in its own order. What the
    loop does for any tag list, sorted or not, is told by the invariant
    [Head].

    Conventions of the embedding:
    - a byte string ([llvm::StringRef], [std::string], the source buffer
      [begin..end)]) is a [list ascii];
    - a pointer into the source buffer is its offset from [begin], a [Z];
      [end] is the length of the buffer;
    - [int] fields are [Z]; the [unsigned] counters wrap modulo [2^32];
    - the output stream [myfile] is the sequence of the writes made to it, one
      [token] per write ([contents] gives the bytes); a raw
      [myfile.write(p, n)] is recorded byte by byte; the header parts are
      given as the bytes they write;
    - reading a byte outside the buffer and a failed [assert] are
      [Undefined]. *)

From Stdlib Require Import ZArith String Ascii List Bool Lia DecimalString.
From Stdlib Require Import DecimalPos.
Import ListNotations.
Local Open Scope Z_scope.

(** ** Bytes *)

Definition bytes := list ascii.

Definition str (s : string) : bytes := list_ascii_of_string s.

Definition newline : ascii := "010"%char.
Definition dquote : ascii := "034"%char.
Definition squote : ascii := "039"%char.

(** Conversion of a value to [unsigned] (32 bits). *)
Definition to_unsigned (n : Z) : Z := n mod 2 ^ 32.

(** The range of [int]. *)
Definition int_range (a : Z) : Prop := - 2 ^ 31 <= a < 2 ^ 31.

Definition int_rangeb (a : Z) : bool := (- 2 ^ 31 <=? a) && (a <? 2 ^ 31).

(** [operator<<] of an unsigned or int value: its decimal digits. *)
Definition dec (n : Z) : bytes :=
  str (NilZero.string_of_int (Z.to_int n)).

(** ** Generator::escapeAttr *)

(** The [switch (c)] of both overloads, appending to what was written. *)
Definition escapeAttr_switch (buffer : bytes) (c : ascii) : bytes :=
  if (c =? "<")%char then buffer ++ str "&lt;"
  else if (c =? ">")%char then buffer ++ str "&gt;"
  else if (c =? "&")%char then buffer ++ str "&amp;"
  else if (c =? dquote)%char then buffer ++ str "&quot;"
  else if (c =? squote)%char then buffer ++ str "&apos;"
  else buffer ++ [c].

(** [for (unsigned i = 0; i < len; ++i)] with [unsigned len = s.size()]:
    the characters [s[0] .. s[len-1]], where [len] is the size converted to
    [unsigned]. *)
Definition scanned (s : bytes) : bytes :=
  firstn (Z.to_nat (to_unsigned (Z.of_nat (length s)))) s.

(** [llvm::StringRef escapeAttr(llvm::StringRef s,
    llvm::SmallVectorImpl<char> &buffer)]: the buffer is cleared first; the
    result is the buffer's content. *)
Definition escapeAttr (s : bytes) (buffer : bytes) : bytes :=
  fold_left escapeAttr_switch (scanned s) [].

(** [void escapeAttr(llvm::raw_ostream &os, llvm::StringRef s)]: the bytes
    of [os] after the call. *)
Definition escapeAttr_os (os : bytes) (s : bytes) : bytes :=
  fold_left escapeAttr_switch (scanned s) os.

(** ** Generator::Tag *)

Module Tag.

(** Modelled from the spec: the declaration of [struct Tag] (generator.h is
    not among the sources): a name, a pre-formatted attribute text, a start
    offset and a length. They are the members [name], [attributes], [pos]
    and [len] that [open], [close] and [generate] read. *)
Record t : Type := mk {
  name : bytes;
  attributes : bytes;
  pos : Z;
  len : Z
}.

(** [void Tag::open(llvm::raw_ostream &myfile) const]: the bytes written. *)
Definition open (tag : t) : bytes :=
  str "<" ++ name tag
  ++ (match attributes tag with
      | [] => []
      | _ :: _ => str " " ++ attributes tag
      end)
  ++ (if len tag =? 0
      then str "></" ++ name tag ++ str ">"
      else str ">").

(** [void Tag::close(llvm::raw_ostream &myfile) const]: the bytes written. *)
Definition close (tag : t) : bytes :=
  str "</" ++ name tag ++ str ">".

Fixpoint bytes_eqb (a b : bytes) : bool :=
  match a, b with
  | [], [] => true
  | x :: a', y :: b' => (x =? y)%char && bytes_eqb a' b'
  | _, _ => false
  end.

Definition eqb (a b : t) : bool :=
  bytes_eqb (name a) (name b) && bytes_eqb (attributes a) (attributes b)
  && (pos a =? pos b) && (len a =? len b).

End Tag.

(** ** The output stream *)

Inductive token : Type :=
| Lit (ch : ascii)          (* a byte copied from the buffer *)
| Ent (e : bytes)           (* [myfile << "&amp;"] and the like *)
| Open (t : Tag.t)          (* [t->open(myfile)] *)
| Close (t : Tag.t)         (* [t->close(myfile)] *)
| RowEnd                    (* ["</td></tr>\n"] *)
| RowBegin (line : Z) (style style2 : bytes)
                            (* ["<tr " ... "</th><td>"] *)
| TableBegin                (* ["<table class=\"code\">\n"] *)
| TableEnd.                 (* ["</table><hr/>"] *)

Definition token_bytes (tok : token) : bytes :=
  match tok with
  | Lit ch => [ch]
  | Ent e => e
  | Open t => Tag.open t
  | Close t => Tag.close t
  | RowEnd => str "</td></tr>" ++ [newline]
  | RowBegin line style style2 =>
      str "<tr " ++ style ++ str " ><th " ++ style2 ++ str " id=" ++ [dquote]
      ++ dec line ++ [dquote] ++ str ">" ++ dec line ++ str "</th><td>"
  | TableBegin => str "<table class=" ++ [dquote] ++ str "code" ++ [dquote]
                  ++ str ">" ++ [newline]
  | TableEnd => str "</table><hr/>"
  end.

Definition contents (out : list token) : bytes := flat_map token_bytes out.

(** ** The line annotations *)

Definition aquamarine : bytes :=
  str "style=" ++ [dquote] ++ str "background-color:aquamarine;" ++ [dquote].
Definition lightcoral : bytes :=
  str "style=" ++ [dquote] ++ str "background-color:lightcoral;" ++ [dquote].
Definition gold : bytes :=
  str "style=" ++ [dquote] ++ str "background-color:gold;" ++ [dquote].

(** [std::find(v.begin(), v.end(), 1) != v.end()]: [int] against [int]. *)
Definition find_int (v : list Z) (x : Z) : bool :=
  existsb (fun a => a =? x) v.

(** [std::find(v.begin(), v.end(), line) != v.end()] with [unsigned line]:
    each [int] element is converted to [unsigned] for the comparison. *)
Definition find_unsigned (v : list Z) (line : Z) : bool :=
  existsb (fun a => to_unsigned a =? line) v.

Definition style_of (common : bool) : bytes :=
  if common then aquamarine else lightcoral.

Definition style2_of (covered : bool) : bytes :=
  if covered then gold else [].

(** ** The rendering loop of Generator::generate *)

Record state : Type := mkState {
  c : Z;
  line : Z;
  bufferStart : Z;
  tags_it : list Tag.t;        (* the tags from [tags_it] to [tags.cend()] *)
  next_start : Z;
  next_end : Z;
  next : Z;
  stack : list Tag.t;          (* the deque, [back()] first *)
  myfile : list token
}.

Inductive outcome : Type :=
| Continue (s : state)
| Break (s : state)
| Fault.

Inductive result : Type :=
| Done (s : state)
| Undefined
| OutOfFuel.

Definition tag_end (t : Tag.t) : Z := Tag.pos t + Tag.len t.

Section Loop.

Variable buf : bytes.
Variables commonLines coveredLines : list Z.

Definition end_ : Z := Z.of_nat (length buf).

(** The bytes [from .. to) of the buffer. *)
Definition slice (from to : Z) : bytes :=
  firstn (Z.to_nat (to - from)) (skipn (Z.to_nat from) buf).

(** Reading the byte at pointer [p]. *)
Definition deref (p : Z) : option ascii :=
  if (0 <=? p) && (p <? end_) then nth_error buf (Z.to_nat p) else None.

(** The lambda [flush]. *)
Definition flush (s : state) : state :=
  if bufferStart s =? c s then s
  else mkState (c s) (line s) (c s) (tags_it s) (next_start s) (next_end s)
         (next s) (stack s)
         (myfile s ++ map Lit (slice (bufferStart s) (c s))).

(** [while (!stack.empty() && c >= next_end)]: returns the stack,
    [next_end] and the stream. *)
Fixpoint close_ended (c : Z) (stack : list Tag.t) (next_end : Z)
    (myfile : list token) : list Tag.t * Z * list token :=
  match stack with
  | [] => ([], next_end, myfile)
  | top :: stack' =>
      if c >=? next_end then
        close_ended c stack'
          (match stack' with
           | [] => end_
           | top' :: _ => Tag.pos top' + Tag.len top'
           end)
          (myfile ++ [Close top])
      else (stack, next_end, myfile)
  end.

(** [while (c == next_start && tags_it != tags.cend())]: returns
    [tags_it], [next_start], the stack, [next_end] and the stream, or
    [None] when the [assert] fails. *)
Fixpoint open_started (c : Z) (tags_it : list Tag.t) (next_start : Z)
    (stack : list Tag.t) (next_end : Z) (myfile : list token)
    : option (list Tag.t * Z * list Tag.t * Z * list token) :=
  match tags_it with
  | [] => Some ([], next_start, stack, next_end, myfile)
  | t :: rest =>
      if c =? next_start then
        if c =? Tag.pos t then
          let next_start' :=
            match rest with [] => end_ | t' :: _ => Tag.pos t' end in
          if Tag.len t =? 0
          then open_started c rest next_start' stack next_end
                 (myfile ++ [Open t])
          else open_started c rest next_start' (t :: stack)
                 (c + Tag.len t) (myfile ++ [Open t])
        else None
      else Some (tags_it, next_start, stack, next_end, myfile)
  end.

(** The body of [if (c == next) { ... }]. *)
Definition at_event (s0 : state) : outcome :=
  let s := flush s0 in
  let '(stack1, next_end1, out1) :=
    close_ended (c s) (stack s) (next_end s) (myfile s) in
  if c s >=? end_ then
    Break (mkState (c s) (line s) (bufferStart s) (tags_it s)
             (next_start s) next_end1 (next s) stack1 out1)
  else
    match open_started (c s) (tags_it s) (next_start s) stack1 next_end1
            out1 with
    | None => Fault
    | Some (tags_it2, next_start2, stack2, next_end2, out2) =>
        Continue (mkState (c s) (line s) (bufferStart s) tags_it2
                    next_start2 next_end2 (Z.min next_end2 next_start2)
                    stack2 out2)
    end.

(** A case of the [switch] that replaces the byte by an entity. *)
Definition put_entity (s0 : state) (e : string) : state :=
  let s := flush s0 in
  mkState (c s) (line s) (bufferStart s + 1) (tags_it s) (next_start s)
    (next_end s) (next s) (stack s) (myfile s ++ [Ent (str e)]).

(** The [case '\n'] of the [switch]. *)
Definition put_newline (s0 : state) : state :=
  let s := flush s0 in
  let line' := to_unsigned (line s + 1) in
  let style := style_of (find_unsigned commonLines line') in
  let style2 := style2_of (find_unsigned coveredLines line') in
  mkState (c s) line' (bufferStart s + 1) (tags_it s) (next_start s)
    (next_end s) (next s) (stack s)
    (myfile s ++ map Close (stack s)
     ++ [RowEnd; RowBegin line' style style2]
     ++ map Open (rev (stack s))).

(** The [switch] on the byte at [c]. *)
Definition switch_byte (s : state) : option state :=
  match deref (c s) with
  | None => None
  | Some ch =>
      Some (if (ch =? newline)%char then put_newline s
            else if (ch =? "&")%char then put_entity s "&amp;"
            else if (ch =? "<")%char then put_entity s "&lt;"
            else if (ch =? ">")%char then put_entity s "&gt;"
            else s)
  end.

(** [++c] *)
Definition advance (s : state) : state :=
  mkState (c s + 1) (line s) (bufferStart s) (tags_it s) (next_start s)
    (next_end s) (next s) (stack s) (myfile s).

(** One iteration of [while (true)]. *)
Definition loop_body (s : state) : outcome :=
  match (if c s =? next s then at_event s else Continue s) with
  | Continue s1 =>
      match switch_byte s1 with
      | Some s2 => Continue (advance s2)
      | None => Fault
      end
  | other => other
  end.

Fixpoint run (fuel : nat) (s : state) : result :=
  match fuel with
  | O => OutOfFuel
  | S fuel' =>
      match loop_body s with
      | Continue s' => run fuel' s'
      | Break s' => Done s'
      | Fault => Undefined
      end
  end.

(** The state before the loop, the first row being written. *)
Definition initial (tags : list Tag.t) : state :=
  let next_start :=
    match tags with [] => end_ | t :: _ => Tag.pos t end in
  mkState 0 1 0 tags next_start end_ next_start []
    [TableBegin;
     RowBegin 1 (style_of (find_int commonLines 1))
       (style2_of (find_int coveredLines 1))].

(** The table written by [generate], from [<table class="code">] to
    [</table><hr/>]; [None] when the behaviour is undefined. Every
    iteration advances [c] by one and bytes are read inside the buffer only,
    so [length buf + 1] iterations are all the loop can make.

    Modelled from the spec: the member [tags] of the generator (declared in
    generator.h, not among the sources), which the loop walks from
    [tags.cbegin()] to [tags.cend()], is the list of its elements in that
    order. *)
Definition render (tags : list Tag.t) : option (list token) :=
  match run (S (length buf)) (initial tags) with
  | Done s => Some (myfile s ++ [RowEnd; TableEnd])
  | _ => None
  end.

End Loop.

(** ** Generator::getCommonLines and Generator::getCoveredLines *)

(** [std::isspace] in the C locale. *)
Definition isspace (ch : ascii) : bool :=
  let n := nat_of_ascii ch in
  Nat.eqb n 32 || (Nat.leb 9 n && Nat.leb n 13).

Definition digit_of (ch : ascii) : option Z :=
  let n := Z.of_nat (nat_of_ascii ch) in
  if (48 <=? n) && (n <=? 57) then Some (n - 48) else None.

Fixpoint skipws (s : bytes) : bytes :=
  match s with
  | [] => []
  | ch :: s' => if isspace ch then skipws s' else s
  end.

Fixpoint digits (acc : Z) (s : bytes) : Z * bytes :=
  match s with
  | [] => (acc, [])
  | ch :: s' =>
      match digit_of ch with
      | Some d => digits (10 * acc + d) s'
      | None => (acc, s)
      end
  end.

(** [file >> a] for [int a] on the unread part [s] of the stream: leading
    white space is skipped, then an optional sign and at least one decimal
    digit are read; the extraction fails at the end of the stream, on
    anything else, and when the value does not fit an [int]. *)
Definition extract_int (s : bytes) : option (Z * bytes) :=
  match skipws s with
  | [] => None
  | ch :: s' =>
      let '(negative, body) :=
        if (ch =? "-")%char then (true, s')
        else if (ch =? "+")%char then (false, s')
        else (false, ch :: s') in
      match body with
      | [] => None
      | d :: _ =>
          match digit_of d with
          | None => None
          | Some _ =>
              let '(v, rest) := digits 0 body in
              let a := if negative then - v else v in
              if int_rangeb a then Some (a, rest) else None
          end
      end
  end.

(** [while (file >> a) lines.emplace_back(a);] *)
Fixpoint extract_all (fuel : nat) (s : bytes) (lines : list Z) : list Z :=
  match fuel with
  | O => lines
  | S fuel' =>
      match extract_int s with
      | Some (a, rest) => extract_all fuel' rest (lines ++ [a])
      | None => lines
      end
  end.

(** The files that can be opened for reading, with their content; [None]
    for a file that does not exist. *)
Definition filesystem := bytes -> option bytes.

(** A successful extraction consumes at least one byte, so
    [length content + 1] extractions are all the loop can make. A stream
    whose file could not be opened fails every extraction. *)
Definition getCommonLines (fs : filesystem) (commonLines : list Z)
    (filename : bytes) : list Z :=
  match fs filename with
  | None => commonLines
  | Some content => extract_all (S (length content)) content commonLines
  end.

Definition getCoveredLines (fs : filesystem) (coveredLines : list Z)
    (filename : bytes) : list Z :=
  match fs filename with
  | None => coveredLines
  | Some content => extract_all (S (length content)) content coveredLines
  end.

(** ** Generator::generate: the annotation files and the table *)

(** [s.find_last_of(chars)]: the index of the last byte of [s] that is one
    of [chars]; [None] is [std::string::npos]. *)
Fixpoint find_last_of (s chars : bytes) : option nat :=
  match s with
  | [] => None
  | ch :: s' =>
      match find_last_of s' chars with
      | Some i => Some (S i)
      | None => if existsb (Ascii.eqb ch) chars then Some O else None
      end
  end.

(** [s.substr(from)] *)
Definition substr (s : bytes) (from : nat) : bytes := skipn from s.

Definition exactFilename (filename : bytes) : bytes :=
  match find_last_of filename (str "\/") with
  | Some lastSlashIdx => substr filename (lastSlashIdx + 1)
  | None => filename
  end.

(** The table that [generate] writes for the source file [filename] whose
    text is [buf], with the tags [tags] registered. *)
Definition generate (fs : filesystem) (filename : bytes) (buf : bytes)
    (tags : list Tag.t) : option (list token) :=
  let exact := exactFilename filename in
  let commonLines := getCommonLines fs [] (exact ++ str ".common") in
  let coveredLines := getCoveredLines fs [] (exact ++ str ".coverage") in
  render buf commonLines coveredLines tags.

(** ** Well-formed tag lists *)

(** Ascending by start offset. *)
Fixpoint sorted (tags : list Tag.t) : bool :=
  match tags with
  | [] => true
  | t :: ts => forallb (fun u => Tag.pos t <=? Tag.pos u) ts && sorted ts
  end.

(** A tag that starts before an earlier tag of the list ends, ends at or
    before the end of that tag. *)
Fixpoint well_nested (tags : list Tag.t) : bool :=
  match tags with
  | [] => true
  | t :: ts =>
      forallb (fun u => (tag_end t <=? Tag.pos u) || (tag_end u <=? tag_end t))
        ts
      && well_nested ts
  end.

(** The range of the tag lies in a buffer of [n] bytes. *)
Definition in_bounds (n : Z) (t : Tag.t) : bool :=
  (0 <=? Tag.pos t) && (0 <=? Tag.len t) && (tag_end t <=? n).

Definition well_formed (buf : bytes) (tags : list Tag.t) : bool :=
  sorted tags && well_nested tags
  && forallb (in_bounds (Z.of_nat (length buf))) tags.

(** The invariant of the data model as the description words it: a tag that
    starts strictly after another tag starts and before it ends, ends at or
    before its end. Nothing is asked of two tags that start at the same
    offset. *)
Definition nested_per_invariant (tags : list Tag.t) : bool :=
  forallb
    (fun a =>
       forallb
         (fun b =>
            implb ((Tag.pos a <? Tag.pos b) && (Tag.pos b <? tag_end a))
              (tag_end b <=? tag_end a))
         tags)
    tags.

(** Of the tags that start at the same offset, one of nonzero length is
    listed before the shorter ones. *)
Fixpoint ties_longest_first (tags : list Tag.t) : bool :=
  match tags with
  | [] => true
  | t :: ts =>
      forallb
        (fun u =>
           negb (Tag.pos u =? Tag.pos t) || (Tag.len t =? 0)
           || (Tag.len u <=? Tag.len t))
        ts
      && ties_longest_first ts
  end.

(** Sorted by start and inside the buffer: all that the loop needs to end
    and to keep its markup balanced. *)
Definition placed (buf : bytes) (tags : list Tag.t) : bool :=
  sorted tags && forallb (in_bounds (Z.of_nat (length buf))) tags.

(** ** The expected rendering, from the description of the renderer *)

Section Expected.

Variable tags : list Tag.t.
Variables commonLines coveredLines : list Z.

(** The tags whose range starts at offset [k], in the order of the list. *)
Definition opening_at (k : Z) : list Tag.t :=
  filter (fun t => Tag.pos t =? k) tags.

(** The tags of nonzero length whose range ends just before offset [k]
    (their last byte is at [k - 1]), innermost first. *)
Definition closing_at (k : Z) : list Tag.t :=
  rev (filter (fun t => negb (Tag.len t =? 0) && (tag_end t =? k)) tags).

(** The tags whose range contains the byte at offset [k], outermost
    first. *)
Definition covering (k : Z) : list Tag.t :=
  filter (fun t => (Tag.pos t <=? k) && (k <? tag_end t)) tags.

(** Body text: the three reserved characters become entities. *)
Definition body_escape (ch : ascii) : token :=
  if (ch =? "&")%char then Ent (str "&amp;")
  else if (ch =? "<")%char then Ent (str "&lt;")
  else if (ch =? ">")%char then Ent (str "&gt;")
  else Lit ch.

Definition row_begin (line : Z) : token :=
  RowBegin line (style_of (find_unsigned commonLines line))
    (style2_of (find_unsigned coveredLines line)).

(** A newline at offset [k] that starts line [line']. *)
Definition line_break (k line' : Z) : list token :=
  map Close (rev (covering k)) ++ [RowEnd; row_begin line']
  ++ map Open (covering k).

Definition line_after (ch : ascii) (line : Z) : Z :=
  if (ch =? newline)%char then to_unsigned (line + 1) else line.

(** What is written for the byte [ch] at offset [k] on line [line]. *)
Definition at_byte (k : Z) (ch : ascii) (line : Z) : list token :=
  map Close (closing_at k) ++ map Open (opening_at k)
  ++ (if (ch =? newline)%char then line_break k (to_unsigned (line + 1))
      else [body_escape ch]).

(** What is written for the bytes [text] that start at offset [k]. *)
Fixpoint steps (k : Z) (text : bytes) (line : Z) : list token :=
  match text with
  | [] => []
  | ch :: text' =>
      at_byte k ch line ++ steps (k + 1) text' (line_after ch line)
  end.

Definition expected (buf : bytes) : list token :=
  [TableBegin;
   RowBegin 1 (style_of (find_int commonLines 1))
     (style2_of (find_int coveredLines 1))]
  ++ steps 0 buf 1
  ++ map Close (closing_at (Z.of_nat (length buf)))
  ++ [RowEnd; TableEnd].

End Expected.

(** [t] comes before [u] in a sorted list. *)
Definition starts_before (t u : Tag.t) : Prop := Tag.pos t <= Tag.pos u.

(** [t] comes before [u] in a sorted, well-nested list. *)
Definition precedes (t u : Tag.t) : Prop :=
  Tag.pos t <= Tag.pos u
  /\ (Tag.pos u < tag_end t -> tag_end u <= tag_end t).

Definition bounded (n : Z) (t : Tag.t) : Prop :=
  0 <= Tag.pos t /\ 0 <= Tag.len t /\ tag_end t <= n.

(** ** The tags around the cursor *)

Section Cursor.

Variable tags : list Tag.t.

(** The tags not yet opened when the cursor arrives at [k]. *)
Definition pending (k : Z) : list Tag.t :=
  filter (fun t => k <=? Tag.pos t) tags.

(** The tags that started before [k] and have not ended before it,
    outermost first: for a list nested in its own order, the stack when the
    cursor arrives at [k]. *)
Definition arriving (k : Z) : list Tag.t :=
  filter (fun t => (Tag.pos t <? k) && (k <=? tag_end t)) tags.

(** Those of them that stay open at [k]. *)
Definition staying (k : Z) : list Tag.t :=
  filter (fun t => (Tag.pos t <? k) && (k <? tag_end t)) tags.

End Cursor.

Definition top_end (n : Z) (stack : list Tag.t) : Z :=
  match stack with [] => n | t :: _ => Tag.pos t + Tag.len t end.

Definition first_pos (n : Z) (l : list Tag.t) : Z :=
  match l with [] => n | t :: _ => Tag.pos t end.

(** What the stream holds once the bytes kept back by [flush] are written. *)
Definition written (buf : bytes) (s : state) : list token :=
  myfile s ++ map Lit (slice buf (bufferStart s) (c s)).

(** ** The rendering told with the stack alone *)

(** The tags of the stack, from its top, that end at or before [k]. *)
Fixpoint ended (k : Z) (stack : list Tag.t) : list Tag.t :=
  match stack with
  | [] => []
  | top :: stack' => if tag_end top <=? k then top :: ended k stack' else []
  end.

(** The stack below them. *)
Fixpoint lasting (k : Z) (stack : list Tag.t) : list Tag.t :=
  match stack with
  | [] => []
  | top :: stack' => if tag_end top <=? k then lasting k stack' else stack
  end.

Section Stacked.

Variable tags : list Tag.t.
Variables commonLines coveredLines : list Z.

(** The stack once the tags that end at [k] are popped and the tags of
    nonzero length that start at [k] are pushed. *)
Definition opened_stack (k : Z) (stack : list Tag.t) : list Tag.t :=
  rev (filter (fun t => negb (Tag.len t =? 0)) (opening_at tags k))
  ++ lasting k stack.

(** A newline that starts line [line'] with the tags [stack] open. *)
Definition stacked_break (stack : list Tag.t) (line' : Z) : list token :=
  map Close stack ++ [RowEnd; row_begin commonLines coveredLines line']
  ++ map Open (rev stack).

(** What is written for the byte [ch] at offset [k] on line [line], the
    cursor arriving with the tags [stack] open. *)
Definition stacked_byte (k : Z) (ch : ascii) (line : Z)
    (stack : list Tag.t) : list token :=
  map Close (ended k stack) ++ map Open (opening_at tags k)
  ++ (if (ch =? newline)%char
      then stacked_break (opened_stack k stack) (to_unsigned (line + 1))
      else [body_escape ch]).

Fixpoint stacked_steps (k : Z) (text : bytes) (line : Z)
    (stack : list Tag.t) : list token :=
  match text with
  | [] => []
  | ch :: text' =>
      stacked_byte k ch line stack
      ++ stacked_steps (k + 1) text' (line_after ch line)
           (opened_stack k stack)
  end.

(** The stack after the bytes [text] that start at offset [k]. *)
Fixpoint stack_after (k : Z) (text : bytes) (stack : list Tag.t)
    : list Tag.t :=
  match text with
  | [] => stack
  | _ :: text' => stack_after (k + 1) text' (opened_stack k stack)
  end.

Definition stacked (buf : bytes) : list token :=
  [TableBegin;
   RowBegin 1 (style_of (find_int commonLines 1))
     (style2_of (find_int coveredLines 1))]
  ++ stacked_steps 0 buf 1 []
  ++ map Close (ended (Z.of_nat (length buf)) (stack_after 0 buf []))
  ++ [RowEnd; TableEnd].

End Stacked.

(** What the stack holds: tags of the list, of nonzero length. *)
Definition stackable (tags : list Tag.t) (t : Tag.t) : Prop :=
  In t tags /\ Tag.len t <> 0.

(** The state with the cursor at [cur] and the stack [st], the tags that
    start before [k] taken from the list. *)
Record Inv (buf : bytes) (tags : list Tag.t) (cur k : Z) (st : list Tag.t)
    (s : state) : Prop := {
  inv_c : c s = cur;
  inv_buffer : 0 <= bufferStart s <= cur;
  inv_tags_it : tags_it s = pending tags k;
  inv_next_start : next_start s = first_pos (end_ buf) (pending tags k);
  inv_stack : stack s = st;
  inv_next_end : next_end s = top_end (end_ buf) st;
  inv_next : next s = Z.min (next_end s) (next_start s);
  inv_le : k <= next s
}.

(** The state after [j] iterations of the loop that all continue. *)
Fixpoint iterate (buf : bytes) (commonLines coveredLines : list Z) (j : nat)
    (s : state) : option state :=
  match j with
  | O => Some s
  | S j' =>
      match loop_body buf commonLines coveredLines s with
      | Continue s' => iterate buf commonLines coveredLines j' s'
      | _ => None
      end
  end.

(** ** Reading the written table *)

(** The stack-based balance check: an open markup of nonzero length is
    pushed, a close markup must be that of the top of the stack and pops it,
    a line container can only end with an empty stack. A tag of length zero
    is written with its own close and leaves the stack as it is. The result
    is the stack left at the end, [None] when a check fails. *)
Fixpoint balance (open : list Tag.t) (out : list token)
    : option (list Tag.t) :=
  match out with
  | [] => Some open
  | Open t :: out' =>
      balance (if Tag.len t =? 0 then open else t :: open) out'
  | Close t :: out' =>
      match open with
      | top :: open' => if Tag.eqb top t then balance open' out' else None
      | [] => None
      end
  | RowEnd :: out' =>
      match open with
      | [] => balance [] out'
      | _ :: _ => None
      end
  | _ :: out' => balance open out'
  end.

(** The line containers: number and styles of each row. *)
Fixpoint rows (out : list token) : list (Z * bytes * bytes) :=
  match out with
  | [] => []
  | RowBegin line style style2 :: out' => (line, style, style2) :: rows out'
  | _ :: out' => rows out'
  end.

(** What is written up to the end of the current line container. *)
Fixpoint body_until_end (out : list token) : list token :=
  match out with
  | [] => []
  | RowEnd :: _ => []
  | tok :: out' => tok :: body_until_end out'
  end.

(** The body of each line container. *)
Fixpoint bodies (out : list token) : list (list token) :=
  match out with
  | [] => []
  | RowBegin _ _ _ :: out' => body_until_end out' :: bodies out'
  | _ :: out' => bodies out'
  end.

(** The text written: bytes of the buffer and entities. *)
Definition is_text (tok : token) : bool :=
  match tok with
  | Lit _ | Ent _ => true
  | _ => false
  end.

(** The bytes copied from the buffer as they are. *)
Definition literal (tok : token) : bytes :=
  match tok with
  | Lit ch => [ch]
  | _ => []
  end.

(** The open markups of the tag [t]. *)
Definition is_open_of (t : Tag.t) (tok : token) : bool :=
  match tok with
  | Open u => Tag.eqb u t
  | _ => false
  end.

Definition is_newline (ch : ascii) : bool := (ch =? newline)%char.

(** The bytes that the body of a line takes as they are. *)
Definition is_plain (ch : ascii) : bool :=
  negb (ch =? newline)%char && negb (ch =? "&")%char
  && negb (ch =? "<")%char && negb (ch =? ">")%char.

(** Stripping the markup: what stands between [<] and [>] is dropped. *)
Fixpoint strip_from (inside : bool) (s : bytes) : bytes :=
  match s with
  | [] => []
  | ch :: s' =>
      if inside then strip_from (negb (ch =? ">")%char) s'
      else if (ch =? "<")%char then strip_from true s'
      else ch :: strip_from false s'
  end.

Definition strip_markup (s : bytes) : bytes := strip_from false s.

Fixpoint starts_with (prefix s : bytes) : bool :=
  match prefix, s with
  | [], _ => true
  | _ :: _, [] => false
  | p :: prefix', ch :: s' => (p =? ch)%char && starts_with prefix' s'
  end.

(** The entity that [s] starts with: its character and the number of bytes
    after the ampersand. *)
Definition entity_at (s : bytes) : option (ascii * nat) :=
  if starts_with (str "&lt;") s then Some ("<"%char, 3%nat)
  else if starts_with (str "&gt;") s then Some (">"%char, 3%nat)
  else if starts_with (str "&amp;") s then Some ("&"%char, 4%nat)
  else if starts_with (str "&quot;") s then Some (dquote, 5%nat)
  else if starts_with (str "&apos;") s then Some (squote, 5%nat)
  else None.

(** Un-escaping in one pass from left to right; [skip] bytes of an entity
    already replaced are still to be dropped. *)
Fixpoint unescape_from (skip : nat) (s : bytes) : bytes :=
  match s with
  | [] => []
  | ch :: s' =>
      match skip with
      | S skip' => unescape_from skip' s'
      | O =>
          match entity_at s with
          | Some (r, after) => r :: unescape_from after s'
          | None => ch :: unescape_from O s'
          end
      end
  end.

Definition unescape (s : bytes) : bytes := unescape_from O s.

(** The lines of a text: the bytes before the first newline, and the lines
    after each newline. *)
Fixpoint first_line (text : bytes) : bytes :=
  match text with
  | [] => []
  | ch :: text' => if (ch =? newline)%char then [] else ch :: first_line text'
  end.

Fixpoint later_lines (text : bytes) : list bytes :=
  match text with
  | [] => []
  | ch :: text' =>
      if (ch =? newline)%char then first_line text' :: later_lines text'
      else later_lines text'
  end.

Definition split_lines (text : bytes) : list bytes :=
  first_line text :: later_lines text.

Fixpoint join_lines (lines : list bytes) : bytes :=
  match lines with
  | [] => []
  | [l] => l
  | l :: lines' => l ++ newline :: join_lines lines'
  end.

(** The value of the line counter after the bytes [pre]. *)
Definition line_at (pre : bytes) : Z :=
  fold_left (fun line ch => line_after ch line) pre 1.

(** Attribute text: the five reserved characters and their entities. *)
Definition attr_entity (ch : ascii) : option bytes :=
  if (ch =? "<")%char then Some (str "&lt;")
  else if (ch =? ">")%char then Some (str "&gt;")
  else if (ch =? "&")%char then Some (str "&amp;")
  else if (ch =? dquote)%char then Some (str "&quot;")
  else if (ch =? squote)%char then Some (str "&apos;")
  else None.

Definition attr_escape (ch : ascii) : bytes :=
  match attr_entity ch with
  | Some e => e
  | None => [ch]
  end.

(** The opening markup alone: name and attributes between [<] and [>]. *)
Definition start_tag (t : Tag.t) : bytes :=
  str "<" ++ Tag.name t
  ++ (match Tag.attributes t with
      | [] => []
      | _ :: _ => str " " ++ Tag.attributes t
      end)
  ++ str ">".

(** The row of line number [line]. *)
Definition row_of (commonLines coveredLines : list Z) (line : Z)
    : Z * bytes * bytes :=
  (line, style_of (find_unsigned commonLines line),
   style2_of (find_unsigned coveredLines line)).

(** ** Generator::escapeAttrForFilename *)

(** The [switch (c)]: a colon is replaced by a dot. *)
Definition escapeAttrForFilename_switch (buffer : bytes) (c : ascii) : bytes :=
  if (c =? ":")%char then buffer ++ str "." else buffer ++ [c].

(** [llvm::StringRef escapeAttrForFilename(llvm::StringRef s,
    llvm::SmallVectorImpl<char> &buffer)]: the buffer is cleared first; the
    result is the buffer's content. The loop is that of [escapeAttr]. *)
Definition escapeAttrForFilename (s : bytes) (buffer : bytes) : bytes :=
  fold_left escapeAttrForFilename_switch (scanned s) [].

(** ** Generator::generate: the path to the root, the title and the
    breadcrumb of the page header *)

(** Conversion of a value to [int] (32 bits, two's complement). *)
Definition to_int (n : Z) : Z := (n + 2 ^ 31) mod 2 ^ 32 - 2 ^ 31.

(** [int count = std::count(filename.begin(), filename.end(), '/')] *)
Definition count (filename : bytes) : Z :=
  to_int (Z.of_nat (length (filter (fun ch => (ch =? "/")%char) filename))).

(** [for (int i = 0; i < n; i++) out += "/..";], also written
    [for (int f = 0; f < n; ++f) myfile << "/..";]: no iteration when [n] is
    not positive. *)
Definition climb (n : Z) (out : bytes) : bytes :=
  Nat.iter (Z.to_nat n) (fun out => out ++ str "/..") out.

(** [std::string root_path = ".."] and the loop that follows. The
    subtraction [count - 1] is made in [int]; it overflows only for a
    [count] of [-2^31]. *)
Definition root_path (filename : bytes) : bytes :=
  climb (count filename - 1) (str "..").

(** [llvm::StringRef::split(char)]: the parts before and after the first
    occurrence of the separator; the whole string and the empty string when
    there is none. *)
Fixpoint split (s : bytes) (sep : ascii) : bytes * bytes :=
  match s with
  | [] => ([], [])
  | ch :: s' =>
      if (ch =? sep)%char then ([], s')
      else let (first, second) := split s' sep in (ch :: first, second)
  end.

(** [llvm::StringRef::rsplit(char)]: the same around the last
    occurrence. *)
Definition rsplit (s : bytes) (sep : ascii) : bytes * bytes :=
  match find_last_of s [sep] with
  | Some idx => (firstn idx s, skipn (S idx) s)
  | None => (s, [])
  end.

(** The [<title>] line written to the page. *)
Definition title (filename : bytes) : bytes :=
  str "<title>" ++ snd (rsplit filename "/") ++ str " source code ["
  ++ filename ++ str "] - Woboq Code Browser</title>" ++ [newline].

(** [while (i < count - 1) { ... ++i; }] of the breadcrumb: one link for
    each directory but the last; returns [tail] and the stream. The loop
    makes [count - 1] iterations at most, [i] starting from 0. *)
Fixpoint breadcrumb_while (fuel : nat) (count i : Z) (tail myfile : bytes)
    : bytes * bytes :=
  match fuel with
  | O => (tail, myfile)
  | S fuel' =>
      if i <? count - 1 then
        let myfile1 := climb (count - i - 2) (myfile ++ str "<a href='..") in
        let split := split tail "/" in
        breadcrumb_while fuel' count (i + 1) (snd split)
          (myfile1 ++ str "'>" ++ fst split ++ str "</a>/")
      else (tail, myfile)
  end.

(** The block that writes the breadcrumb: the stream after it. *)
Definition breadcrumb (filename : bytes) (myfile : bytes) : bytes :=
  let count := count filename in
  let '(tail, myfile1) :=
    breadcrumb_while (Z.to_nat (count - 1)) count 0 filename myfile in
  let split := split tail "/" in
  myfile1 ++ str "<a href='./'>" ++ fst split ++ str "</a>/"
  ++ str "<a href='" ++ snd split ++ str ".html'>" ++ snd split
  ++ str "</a>".

(** ** Reading names, paths and files *)

(** A colon as a dot, any other byte as it is. *)
Definition colon_to_dot (ch : ascii) : ascii :=
  if (ch =? ":")%char then "."%char else ch.

(** One of the five characters that attribute escaping replaces. *)
Definition is_reserved (ch : ascii) : bool :=
  (ch =? "<")%char || (ch =? ">")%char || (ch =? "&")%char
  || (ch =? dquote)%char || (ch =? squote)%char.

(** Not one of the characters that delimit markup and attribute values. *)
Definition markup_free (ch : ascii) : Prop :=
  ~ In ch ["<"; ">"; dquote; squote]%char.

(** The bytes added by attribute escaping: three for an angle bracket,
    four for an ampersand, five for a quote. *)
Definition escape_growth (s : bytes) : nat :=
  3 * length (filter (fun ch => (ch =? "<")%char || (ch =? ">")%char) s)
  + 4 * length (filter (fun ch => (ch =? "&")%char) s)
  + 5 * length (filter (fun ch => (ch =? dquote)%char || (ch =? squote)%char)
                  s).

Definition is_quote (ch : ascii) : bool :=
  (ch =? dquote)%char || (ch =? squote)%char.

(** The path made of the directories [dirs] and of the name [base]. *)
Definition path (dirs : list bytes) (base : bytes) : bytes :=
  flat_map (fun d => d ++ str "/") dirs ++ base.

(** The relative path that climbs [n] levels, [n] at least 1. *)
Definition up_path (n : nat) : bytes :=
  str ".." ++ concat (repeat (str "/..") (n - 1)).

(** A link of the breadcrumb. *)
Definition link (href text : bytes) : bytes :=
  str "<a href='" ++ href ++ str "'>" ++ text ++ str "</a>".

(** The links to the directories [dirs], each followed by a slash: the
    last one of them is one level above the page. *)
Fixpoint crumbs (dirs : list bytes) : bytes :=
  match dirs with
  | [] => []
  | d :: dirs' => link (up_path (length dirs)) d ++ str "/" ++ crumbs dirs'
  end.

(** The content of a file that holds the numbers of [items], each followed
    by its white space. *)
Definition numbers_file (items : list (Z * bytes)) : bytes :=
  flat_map (fun item => dec (fst item) ++ snd item) items.

(** Open and close markup. *)
Definition is_tag (tok : token) : bool :=
  match tok with
  | Open _ | Close _ => true
  | _ => false
  end.

Definition without_tags (out : list token) : list token :=
  filter (fun tok => negb (is_tag tok)) out.

(** The tag starts in a buffer of [n] bytes or at its end, and its length
    is not negative; it may end after the buffer. *)
Definition starts_inside (n : Z) (t : Tag.t) : bool :=
  (0 <=? Tag.pos t) && (Tag.pos t <=? n) && (0 <=? Tag.len t).

Definition inside (n : Z) (t : Tag.t) : Prop :=
  0 <= Tag.pos t <= n /\ 0 <= Tag.len t.

(** The tag starts in a buffer of [n] bytes and its length is not
    negative. *)
Definition starts_before_end (n : Z) (t : Tag.t) : bool :=
  (0 <=? Tag.pos t) && (Tag.pos t <? n) && (0 <=? Tag.len t).

(** What holds at the start of every iteration of the loop, whatever the
    tag list: the bytes kept back lie before the cursor, [next_start] is the
    start of the next tag of the list, and the stack holds the tags of
    nonzero length opened and not yet closed in what is written. *)
Record Head (buf : bytes) (s : state) : Prop := {
  head_buffer : 0 <= bufferStart s <= c s;
  head_next_start : next_start s = first_pos (end_ buf) (tags_it s);
  head_balance : balance [] (written buf s) = Some (stack s);
  head_nonzero : Forall (fun t => Tag.len t <> 0) (stack s)
}.

(** The variables of the loop that change at an event only. *)
Definition event_state (s : state)
    : list Tag.t * Z * Z * Z * list Tag.t :=
  (tags_it s, next_start s, next_end s, next s, stack s).

(** The state [s] with [tags_it] pointing into another list. *)
Definition with_tags_it (s : state) (l : list Tag.t) : state :=
  mkState (c s) (line s) (bufferStart s) l (next_start s) (next_end s)
    (next s) (stack s) (myfile s).

(** What the body of a line is made of: the markup of tags of the list and
    bytes of the buffer through the body escaper. *)
Definition body_part (tags : list Tag.t) (tok : token) : Prop :=
  (exists t, In t tags /\ (tok = Open t \/ tok = Close t))
  \/ (exists ch, tok = body_escape ch).

(** The bodies of the line containers of [out], the one that [out] starts
    in included, are made of tokens that satisfy [P]. *)
Definition bodies_of (P : token -> Prop) (out : list token) : Prop :=
  Forall P (body_until_end out) /\ Forall (Forall P) (bodies out).

(** The name and the attributes of the tag hold no [>]. *)
Definition plain_markup (t : Tag.t) : Prop :=
  ~ In ">"%char (Tag.name t) /\ ~ In ">"%char (Tag.attributes t).

(** The text of a line body: markup stripped, entities replaced. *)
Definition body_text (body : list token) : bytes :=
  unescape (strip_markup (contents body)).

(** ** Sample inputs *)

Definition hello : bytes := str "hello".

Definition span_1_3 : Tag.t := Tag.mk (str "span") [] 1 3.

Definition two_lines : bytes := str "ab" ++ [newline] ++ str "cd".

(** A marker of length zero before the [c] of [two_lines]. *)
Definition marker_3 : Tag.t := Tag.mk (str "a") (str "id='m'") 3 0.

(** Two tags that start together, the shorter one listed first. *)
Definition short_0_2 : Tag.t := Tag.mk (str "b") [] 0 2.

Definition long_0_5 : Tag.t := Tag.mk (str "i") [] 0 5.

(** No file exists. *)
Definition no_files : filesystem := fun _ => None.

(** A tag that starts after the end of [hello]. *)
Definition late_9_1 : Tag.t := Tag.mk (str "b") [] 9 1.

(** Two tags of [hello], to be listed in the wrong order. *)
Definition bold_3_1 : Tag.t := Tag.mk (str "b") [] 3 1.

Definition italic_1_1 : Tag.t := Tag.mk (str "i") [] 1 1.

(** A tag of negative length. *)
Definition back_3 : Tag.t := Tag.mk (str "b") [] 3 (-1).

(** A tag that ends after the end of [hello]. *)
Definition over_3_5 : Tag.t := Tag.mk (str "b") [] 3 5.

(** The only file is [main.cpp.common]; it holds the number 2. *)
Definition one_common_file : filesystem :=
  fun name =>
    if Tag.bytes_eqb name (str "main.cpp.common")
    then Some (str "2" ++ [newline])
    else None.

(** Every file holds two numbers, then a word and a third number. *)
Definition numbers_then_a_word : filesystem :=
  fun _ => Some (str "3 -7" ++ newline :: str "x 9").

(** Every file holds a number that does not fit an [int] between two that
    do. *)
Definition number_too_large : filesystem :=
  fun _ => Some (str "5 2147483648 6").

(** * Properties *)

Arguments to_unsigned : simpl never.

(** ** Lists *)

Section FilterFacts.

Context {A : Type}.

Lemma filter_twice (P Q : A -> bool) (l : list A) :
  filter P (filter Q l) = filter (fun x => Q x && P x) l.
Proof.
  induction l as [|x l IH]; simpl; [reflexivity|].
  destruct (Q x); simpl; [destruct (P x)|]; now rewrite IH.
Qed.

Lemma filter_none (P : A -> bool) (l : list A) :
  (forall x, In x l -> P x = false) -> filter P l = [].
Proof.
  induction l as [|x l IH]; simpl; intros H; [reflexivity|].
  rewrite (H x (or_introl eq_refl)). apply IH. intros y Hy. apply H. now right.
Qed.

Lemma filter_all (P : A -> bool) (l : list A) :
  (forall x, In x l -> P x = true) -> filter P l = l.
Proof.
  induction l as [|x l IH]; simpl; intros H; [reflexivity|].
  rewrite (H x (or_introl eq_refl)). f_equal. apply IH. intros y Hy.
  apply H. now right.
Qed.

(** When no [Q]-element comes before a [P]-element, filtering by the
    union puts the [P]-elements first. *)
Lemma filter_split (R : A -> A -> Prop) (P Q : A -> bool) (l : list A) :
  ForallOrdPairs R l ->
  (forall x y, R x y -> Q x = true -> P y = true -> False) ->
  (forall x, P x = true -> Q x = true -> False) ->
  filter (fun x => P x || Q x) l = filter P l ++ filter Q l.
Proof.
  intros Hl HR Hdisj.
  induction Hl as [|x l Hx Hl IH]; simpl; [reflexivity|].
  destruct (P x) eqn:HP; simpl.
  - destruct (Q x) eqn:HQ; [exfalso; eauto|]. now rewrite IH.
  - destruct (Q x) eqn:HQ; [|exact IH].
    rewrite IH. rewrite (filter_none P l); [reflexivity|].
    intros y Hy. destruct (P y) eqn:HPy; [exfalso|reflexivity].
    rewrite Forall_forall in Hx. eauto.
Qed.

Lemma ForallOrdPairs_filter (R : A -> A -> Prop) (P : A -> bool) l :
  ForallOrdPairs R l -> ForallOrdPairs R (filter P l).
Proof.
  induction 1 as [|x l Hx Hl IH]; simpl; [constructor|].
  destruct (P x); [|exact IH]. constructor; [|exact IH].
  rewrite Forall_forall in *. intros y Hy. apply Hx.
  now apply filter_In in Hy.
Qed.

End FilterFacts.

(** ** Well-formed tag lists, as propositions *)

Lemma sorted_pairs (tags : list Tag.t) :
  sorted tags = true -> ForallOrdPairs starts_before tags.
Proof.
  induction tags as [|t ts IH]; simpl; intros Hs; [constructor|].
  apply andb_true_iff in Hs as [Hs1 Hs2].
  constructor; [|now apply IH].
  rewrite forallb_forall in Hs1. apply Forall_forall. intros u Hu.
  specialize (Hs1 u Hu). unfold starts_before. lia.
Qed.

Lemma sorted_nested_pairs (tags : list Tag.t) :
  sorted tags = true -> well_nested tags = true ->
  ForallOrdPairs precedes tags.
Proof.
  induction tags as [|t ts IH]; simpl; intros Hs Hn; [constructor|].
  apply andb_true_iff in Hs as [Hs1 Hs2].
  apply andb_true_iff in Hn as [Hn1 Hn2].
  constructor; [|now apply IH].
  rewrite forallb_forall in Hs1, Hn1. apply Forall_forall. intros u Hu.
  specialize (Hs1 u Hu). specialize (Hn1 u Hu).
  apply orb_true_iff in Hn1. split; [lia|]. intros Hlt.
  destruct Hn1 as [H|H]; lia.
Qed.

Lemma in_bounds_all (n : Z) (tags : list Tag.t) :
  forallb (in_bounds n) tags = true -> Forall (bounded n) tags.
Proof.
  intros Hb. apply Forall_forall. intros t Ht. rewrite forallb_forall in Hb.
  specialize (Hb t Ht). unfold in_bounds in Hb. unfold bounded.
  repeat (apply andb_true_iff in Hb as [Hb ?]). lia.
Qed.

Lemma placed_spec (buf : bytes) (tags : list Tag.t) :
  placed buf tags = true ->
  ForallOrdPairs starts_before tags
  /\ Forall (bounded (Z.of_nat (length buf))) tags.
Proof.
  unfold placed. intros H. apply andb_true_iff in H as [Hs Hb].
  split; [now apply sorted_pairs|now apply in_bounds_all].
Qed.

Lemma well_formed_spec (buf : bytes) (tags : list Tag.t) :
  well_formed buf tags = true ->
  ForallOrdPairs precedes tags
  /\ Forall (bounded (Z.of_nat (length buf))) tags.
Proof.
  unfold well_formed. intros H.
  apply andb_true_iff in H as [H Hb]. apply andb_true_iff in H as [Hs Hn].
  split; [now apply sorted_nested_pairs|now apply in_bounds_all].
Qed.

Lemma well_formed_placed (buf : bytes) (tags : list Tag.t) :
  well_formed buf tags = true -> placed buf tags = true.
Proof.
  unfold well_formed, placed. intros H.
  apply andb_true_iff in H as [H Hb]. apply andb_true_iff in H as [Hs Hn].
  now rewrite Hs, Hb.
Qed.

(** ** The tags around an offset *)

Section Around.

Variable n : Z.
Variable tags : list Tag.t.
Hypothesis tags_sorted : ForallOrdPairs starts_before tags.
Hypothesis tags_bounded : Forall (bounded n) tags.

Lemma bounded_in t : In t tags -> bounded n t.
Proof. intros H. rewrite Forall_forall in tags_bounded. auto. Qed.

Lemma pending_opening k :
  filter (fun t => Tag.pos t =? k) (pending tags k) = opening_at tags k.
Proof.
  unfold pending, opening_at. rewrite filter_twice.
  apply filter_ext. intros t. lia.
Qed.

Lemma pending_next k :
  filter (fun t => k <? Tag.pos t) (pending tags k) = pending tags (k + 1).
Proof.
  unfold pending. rewrite filter_twice. apply filter_ext. intros t. lia.
Qed.

Lemma pending_sorted k : ForallOrdPairs starts_before (pending tags k).
Proof. now apply ForallOrdPairs_filter. Qed.

Lemma pending_from k : Forall (fun t => k <= Tag.pos t) (pending tags k).
Proof.
  apply Forall_forall. intros t Ht. apply filter_In in Ht. lia.
Qed.

Lemma pending_start : pending tags 0 = tags.
Proof.
  apply filter_all. intros t Ht. apply bounded_in in Ht.
  unfold bounded in Ht. lia.
Qed.

Lemma opening_nonzero_end k t :
  In t (filter (fun t => negb (Tag.len t =? 0)) (opening_at tags k)) ->
  In t tags /\ Tag.pos t = k /\ Tag.len t <> 0 /\ k + 1 <= tag_end t.
Proof.
  unfold opening_at. rewrite !filter_In. intros [[Ht Hp] Hl].
  pose proof (bounded_in t Ht) as Hb. unfold bounded, tag_end in *.
  split; [exact Ht|]. lia.
Qed.

End Around.

Section Nested.

Variable n : Z.
Variable tags : list Tag.t.
Hypothesis tags_ordered : ForallOrdPairs precedes tags.
Hypothesis tags_bounded : Forall (bounded n) tags.

Lemma arriving_split k :
  rev (arriving tags k) = closing_at tags k ++ rev (staying tags k).
Proof.
  unfold closing_at, arriving, staying. rewrite <- rev_app_distr. f_equal.
  rewrite <- (filter_split precedes _ _ tags tags_ordered).
  - apply filter_ext_in. intros t Ht. apply (bounded_in n tags) in Ht; auto.
    unfold bounded, tag_end in *. lia.
  - unfold precedes, tag_end. intros x y [H1 H2] Hx Hy. lia.
  - unfold tag_end. intros x H1 H2. lia.
Qed.

Lemma covering_split k :
  covering tags k
  = staying tags k
    ++ filter (fun t => negb (Tag.len t =? 0)) (opening_at tags k).
Proof.
  unfold covering, staying, opening_at. rewrite filter_twice.
  rewrite <- (filter_split precedes _ _ tags tags_ordered).
  - apply filter_ext_in. intros t Ht. apply (bounded_in n tags) in Ht; auto.
    unfold bounded, tag_end in *. lia.
  - unfold precedes, tag_end. intros x y [H1 H2] Hx Hy. lia.
  - unfold tag_end. intros x H1 H2. lia.
Qed.

Lemma arriving_next k : arriving tags (k + 1) = covering tags k.
Proof.
  unfold arriving, covering. apply filter_ext. intros t. lia.
Qed.

Lemma closing_at_end k t : In t (closing_at tags k) -> tag_end t = k.
Proof.
  unfold closing_at. rewrite <- in_rev, filter_In. lia.
Qed.

Lemma staying_end k t : In t (staying tags k) -> k < tag_end t.
Proof. unfold staying. rewrite filter_In. lia. Qed.

Lemma arriving_start : arriving tags 0 = [].
Proof.
  apply filter_none. intros t Ht. apply (bounded_in n tags) in Ht; auto.
  unfold bounded in Ht. lia.
Qed.

End Nested.

(** ** The loop against the rendering told with the stack *)

Section Slices.

Variable buf : bytes.

Lemma slice_empty k : slice buf k k = [].
Proof. unfold slice. now rewrite Z.sub_diag. Qed.

Lemma slice_snoc from k ch :
  0 <= from <= k -> nth_error buf (Z.to_nat k) = Some ch ->
  slice buf from (k + 1) = slice buf from k ++ [ch].
Proof.
  intros Hk Hch. unfold slice.
  replace (Z.to_nat (k + 1 - from)) with (S (Z.to_nat (k - from))) by lia.
  set (m := Z.to_nat (k - from)).
  assert (Hnth : nth_error (skipn (Z.to_nat from) buf) m = Some ch).
  { rewrite nth_error_skipn. subst m. rewrite <- Hch. f_equal. lia. }
  clear Hch. revert Hnth. generalize (skipn (Z.to_nat from) buf).
  induction m as [|m IH]; intros [|x l]; simpl; try discriminate.
  - now intros [= ->].
  - intros H. f_equal. now apply IH.
Qed.

Lemma deref_nth k pre ch text :
  buf = pre ++ ch :: text -> k = Z.of_nat (length pre) ->
  deref buf k = Some ch /\ nth_error buf (Z.to_nat k) = Some ch
  /\ 0 <= k < end_ buf.
Proof.
  intros Hbuf Hk.
  assert (Hlen : end_ buf = k + 1 + Z.of_nat (length text)).
  { unfold end_. rewrite Hbuf, length_app. simpl length. lia. }
  assert (Hnth : nth_error buf (Z.to_nat k) = Some ch).
  { rewrite Hbuf, Hk, Nat2Z.id, nth_error_app2, Nat.sub_diag by lia.
    reflexivity. }
  unfold deref.
  destruct (Z.leb_spec 0 k); [|lia].
  destruct (Z.ltb_spec k (end_ buf)); [|lia].
  simpl. repeat split; auto; lia.
Qed.

Lemma flush_eq s :
  flush buf s
  = mkState (c s) (line s) (c s) (tags_it s) (next_start s) (next_end s)
      (next s) (stack s) (written buf s).
Proof.
  unfold flush, written. destruct (Z.eqb_spec (bufferStart s) (c s)) as [E|E].
  - rewrite E, slice_empty, app_nil_r. destruct s; simpl in *. now subst.
  - reflexivity.
Qed.

(** The closing loop pops the tags that have ended. *)
Lemma close_ended_stack k stack : forall out,
  close_ended buf k stack (top_end (end_ buf) stack) out
  = (lasting k stack, top_end (end_ buf) (lasting k stack),
     out ++ map Close (ended k stack)).
Proof.
  induction stack as [|top stack IH]; intros out; cbn.
  - now rewrite app_nil_r.
  - unfold tag_end.
    destruct (Z.leb_spec (Tag.pos top + Tag.len top) k) as [Hle|Hgt].
    + destruct (k >=? Tag.pos top + Tag.len top) eqn:E; [|lia].
      change (match stack with
              | [] => end_ buf
              | top' :: _ => Tag.pos top' + Tag.len top'
              end) with (top_end (end_ buf) stack).
      rewrite IH. cbn. now rewrite <- app_assoc.
    + destruct (k >=? Tag.pos top + Tag.len top) eqn:E; [lia|].
      cbn. now rewrite app_nil_r.
Qed.

(** The opening loop opens the tags that start at the cursor. *)
Lemma open_started_spec k l stack out :
  ForallOrdPairs starts_before l ->
  Forall (fun t => k <= Tag.pos t) l ->
  let opened := filter (fun t => Tag.pos t =? k) l in
  let left := filter (fun t => k <? Tag.pos t) l in
  let stack' :=
    rev (filter (fun t => negb (Tag.len t =? 0)) opened) ++ stack in
  open_started buf k l (first_pos (end_ buf) l) stack
    (top_end (end_ buf) stack) out
  = Some (left, first_pos (end_ buf) left, stack',
          top_end (end_ buf) stack', out ++ map Open opened).
Proof.
  intros Hord. revert stack out.
  induction Hord as [|t l Ht Hord IH]; intros stack out Hfrom; simpl.
  - now rewrite app_nil_r.
  - inversion Hfrom as [|? ? Hk Hfrom']; subst.
    destruct (Z.eqb_spec k (Tag.pos t)) as [E|E].
    + rewrite <- E, Z.eqb_refl, Z.ltb_irrefl.
      change (match l with [] => end_ buf | t' :: _ => Tag.pos t' end)
        with (first_pos (end_ buf) l).
      simpl. destruct (Tag.len t =? 0) eqn:E0; simpl.
      * rewrite IH by assumption. now rewrite <- app_assoc.
      * replace (k + Tag.len t) with (top_end (end_ buf) (t :: stack))
          by (simpl; lia).
        rewrite IH by assumption. simpl. now rewrite <- !app_assoc.
    + replace (Tag.pos t =? k) with false by lia.
      replace (k <? Tag.pos t) with true by lia.
      assert (Hall : forall u, In u l -> k < Tag.pos u).
      { intros u Hu. rewrite Forall_forall in Ht.
        specialize (Ht u Hu). unfold starts_before in Ht. lia. }
      rewrite (filter_none (fun u => Tag.pos u =? k) l)
        by (intros u Hu; specialize (Hall u Hu); lia).
      rewrite (filter_all (fun u => k <? Tag.pos u) l)
        by (intros u Hu; specialize (Hall u Hu); lia).
      simpl. now rewrite app_nil_r.
Qed.

End Slices.

(** ** The fuel of the loop *)

Section Fuel.

Variable buf : bytes.
Variables commonLines coveredLines : list Z.

Lemma at_event_c s s' : at_event buf s = Continue s' -> c s' = c s.
Proof.
  unfold at_event. rewrite flush_eq. cbn [c stack next_end myfile tags_it
    next_start line bufferStart next].
  destruct (close_ended buf (c s) (stack s) (next_end s) (written buf s))
    as [[stack1 next_end1] out1].
  destruct (c s >=? end_ buf); [discriminate|].
  destruct (open_started buf (c s) (tags_it s) (next_start s) stack1
              next_end1 out1) as [[[[[? ?] ?] ?] ?]|]; [|discriminate].
  now intros [= <-].
Qed.

Lemma switch_byte_c s s' :
  switch_byte buf commonLines coveredLines s = Some s' ->
  c s' = c s /\ 0 <= c s < end_ buf.
Proof.
  unfold switch_byte, deref.
  destruct ((0 <=? c s) && (c s <? end_ buf)) eqn:E; [|discriminate].
  destruct (nth_error buf (Z.to_nat (c s))) as [ch|]; [|discriminate].
  intros [= <-]. split; [|lia].
  unfold put_newline, put_entity. rewrite !flush_eq.
  destruct (ch =? newline)%char; [reflexivity|].
  destruct (ch =? "&")%char; [reflexivity|].
  destruct (ch =? "<")%char; [reflexivity|].
  destruct (ch =? ">")%char; reflexivity.
Qed.

(** An iteration that continues has read a byte of the buffer and moved the
    cursor by one. *)
Lemma loop_body_c s s' :
  loop_body buf commonLines coveredLines s = Continue s' ->
  c s' = c s + 1 /\ 0 <= c s < end_ buf.
Proof.
  unfold loop_body.
  destruct (c s =? next s).
  - destruct (at_event buf s) as [s1| |] eqn:E; try discriminate.
    apply at_event_c in E.
    destruct (switch_byte buf commonLines coveredLines s1) as [s2|] eqn:E2;
      [|discriminate].
    apply switch_byte_c in E2 as [E2 Hr]. intros [= <-]. cbn. lia.
  - destruct (switch_byte buf commonLines coveredLines s) as [s2|] eqn:E2;
      [|discriminate].
    apply switch_byte_c in E2 as [E2 Hr]. intros [= <-]. cbn. lia.
Qed.

Lemma run_fuel fuel : forall s,
  (Z.to_nat (end_ buf - c s) < fuel)%nat ->
  run buf commonLines coveredLines fuel s <> OutOfFuel.
Proof.
  induction fuel as [|fuel IH]; intros s Hfuel; [lia|]. cbn.
  destruct (loop_body buf commonLines coveredLines s) as [s'| |] eqn:E;
    try discriminate.
  apply loop_body_c in E as [E Hr]. apply IH. lia.
Qed.

(** The fuel given by [render] is never used up: [None] is undefined
    behaviour only. *)
Lemma render_fuel tags :
  run buf commonLines coveredLines (S (length buf))
    (initial buf commonLines coveredLines tags) <> OutOfFuel.
Proof. apply run_fuel. cbn. unfold end_. lia. Qed.

End Fuel.

(** ** The stack *)

Lemma ended_lasting k stack : ended k stack ++ lasting k stack = stack.
Proof.
  induction stack as [|top stack IH]; cbn; [reflexivity|].
  destruct (tag_end top <=? k); cbn; [now rewrite IH|reflexivity].
Qed.

Lemma ended_end k stack t : In t (ended k stack) -> tag_end t <= k.
Proof.
  induction stack as [|top stack IH]; cbn; [intros []|].
  destruct (Z.leb_spec (tag_end top) k) as [Hle|Hgt]; cbn; [|intros []].
  intros [<-|Hin]; auto.
Qed.

Lemma lasting_top n k stack :
  k < n -> k < top_end n (lasting k stack).
Proof.
  intros Hk. induction stack as [|top stack IH]; cbn; [exact Hk|].
  destruct (Z.leb_spec (tag_end top) k); [exact IH|].
  cbn. unfold tag_end in *. lia.
Qed.

Lemma not_ended n k stack :
  k < top_end n stack -> ended k stack = [] /\ lasting k stack = stack.
Proof.
  destruct stack as [|top stack]; cbn; [auto|]. intros H.
  unfold tag_end. destruct (Z.leb_spec (Tag.pos top + Tag.len top) k);
    [lia|auto].
Qed.

Lemma all_ended k stack :
  Forall (fun t => tag_end t <= k) stack ->
  ended k stack = stack /\ lasting k stack = [].
Proof.
  induction 1 as [|top stack Htop _ [IH1 IH2]]; cbn; [auto|].
  destruct (Z.leb_spec (tag_end top) k); [|lia].
  now rewrite IH1, IH2.
Qed.

Lemma ended_incl k stack t : In t (ended k stack) -> In t stack.
Proof.
  intros H. rewrite <- (ended_lasting k stack). apply in_or_app. now left.
Qed.

Lemma lasting_incl k stack t : In t (lasting k stack) -> In t stack.
Proof.
  intros H. rewrite <- (ended_lasting k stack). apply in_or_app. now right.
Qed.

Lemma lasting_of k stack t :
  In t stack -> k < tag_end t -> In t (lasting k stack).
Proof.
  intros Hin Hend. rewrite <- (ended_lasting k stack) in Hin.
  apply in_app_or in Hin as [H|H]; [|exact H].
  apply ended_end in H. lia.
Qed.

Section Refinement.

Variable buf : bytes.
Variables commonLines coveredLines : list Z.
Variable tags : list Tag.t.
Hypothesis tags_sorted : ForallOrdPairs starts_before tags.
Hypothesis tags_bounded : Forall (bounded (end_ buf)) tags.

Lemma first_pos_bound k :
  k <= end_ buf ->
  k <= first_pos (end_ buf) (pending tags k) <= end_ buf.
Proof.
  intros Hk. pose proof (pending_from tags k) as Hfrom.
  destruct (pending tags k) as [|t l] eqn:E; simpl; [lia|].
  inversion Hfrom; subst.
  assert (Ht : In t tags).
  { assert (H : In t (pending tags k)) by (rewrite E; now left).
    now apply filter_In in H. }
  apply (bounded_in _ _ tags_bounded) in Ht. unfold bounded, tag_end in Ht.
  lia.
Qed.

Lemma opened_top k stack :
  k < end_ buf -> k + 1 <= top_end (end_ buf) (opened_stack tags k stack).
Proof.
  intros Hk. unfold opened_stack.
  destruct (rev (filter (fun t => negb (Tag.len t =? 0)) (opening_at tags k)))
    as [|t l] eqn:E; cbn [app].
  - pose proof (lasting_top (end_ buf) k stack Hk). lia.
  - assert (Ht : In t (filter (fun t => negb (Tag.len t =? 0))
                         (opening_at tags k))).
    { apply in_rev. rewrite E. now left. }
    apply (opening_nonzero_end _ tags tags_bounded) in Ht.
    cbn. unfold tag_end in Ht. lia.
Qed.

Lemma no_opening k :
  k < first_pos (end_ buf) (pending tags k) ->
  opening_at tags k = [] /\ pending tags (k + 1) = pending tags k.
Proof.
  intros H.
  assert (Hall : forall u, In u (pending tags k) -> k < Tag.pos u).
  { pose proof (pending_sorted tags tags_sorted k) as Hord.
    destruct (pending tags k) as [|t l]; [intros u []|].
    simpl in H. inversion Hord as [|? ? Ht _]; subst.
    intros u [<-|Hu]; [lia|]. rewrite Forall_forall in Ht.
    specialize (Ht u Hu). unfold starts_before in Ht. lia. }
  split.
  - rewrite <- pending_opening. apply filter_none.
    intros u Hu. specialize (Hall u Hu). lia.
  - rewrite <- pending_next. apply filter_all.
    intros u Hu. specialize (Hall u Hu). lia.
Qed.

(** The [if (c == next) { ... }] statement before the end of the buffer. *)
Lemma events_ok k st s :
  0 <= k < end_ buf -> Inv buf tags k k st s ->
  exists s1,
    (if c s =? next s then at_event buf s else Continue s) = Continue s1
    /\ Inv buf tags k (k + 1) (opened_stack tags k st) s1
    /\ line s1 = line s
    /\ written buf s1
       = written buf s ++ map Close (ended k st)
         ++ map Open (opening_at tags k).
Proof.
  intros Hk [Hc Hb Hti Hns Hst Hne Hnx Hle].
  pose proof (first_pos_bound (k + 1) ltac:(lia)) as Hfp.
  pose proof (opened_top k st ltac:(lia)) as Hte.
  destruct (Z.eqb_spec (c s) (next s)) as [E|E].
  - unfold at_event. rewrite flush_eq. cbn [c stack next_end myfile
      tags_it next_start line bufferStart next].
    rewrite Hst, Hne, Hc, Hti, Hns, close_ended_stack.
    destruct (k >=? end_ buf) eqn:Ege; [lia|].
    rewrite open_started_spec;
      [|now apply pending_sorted|now apply pending_from].
    cbv zeta. rewrite pending_opening, pending_next.
    fold (opened_stack tags k st).
    eexists. split; [reflexivity|]. split; [|split].
    + constructor; cbn; try reflexivity; lia.
    + reflexivity.
    + unfold written at 1. cbn. rewrite slice_empty. cbn.
      now rewrite app_nil_r, <- app_assoc.
  - assert (Hlt : k < next s) by lia.
    destruct (not_ended (end_ buf) k st ltac:(lia)) as [Hen Hla].
    destruct (no_opening k ltac:(lia)) as [Hop Hpe].
    assert (Hos : opened_stack tags k st = st).
    { unfold opened_stack. now rewrite Hop, Hla. }
    exists s. split; [reflexivity|]. split; [|split].
    + rewrite Hos. constructor; try assumption; try lia.
      * now rewrite Hpe.
      * now rewrite Hpe.
    + reflexivity.
    + rewrite Hop, Hen. cbn. now rewrite app_nil_r.
Qed.

(** The [switch] and [++c] on the byte [ch] at offset [k]. *)
Lemma switch_ok k st s ch :
  nth_error buf (Z.to_nat k) = Some ch -> deref buf k = Some ch ->
  Inv buf tags k (k + 1) st s ->
  exists s2,
    switch_byte buf commonLines coveredLines s = Some s2
    /\ Inv buf tags (k + 1) (k + 1) st (advance s2)
    /\ line (advance s2) = line_after ch (line s)
    /\ written buf (advance s2)
       = written buf s
         ++ (if (ch =? newline)%char
             then stacked_break commonLines coveredLines st
                    (to_unsigned (line s + 1))
             else [body_escape ch]).
Proof.
  intros Hnth Hde [Hc Hb Hti Hns Hst Hne Hnx Hle].
  unfold switch_byte. rewrite Hc, Hde.
  unfold line_after, body_escape.
  eexists. split; [reflexivity|].
  destruct (ch =? newline)%char;
    [|destruct (ch =? "&")%char;
      [|destruct (ch =? "<")%char; [|destruct (ch =? ">")%char]]].
  - unfold put_newline. rewrite flush_eq. cbn. split; [|split].
    + constructor; cbn; try assumption; lia.
    + reflexivity.
    + unfold written. cbn. rewrite Hc, slice_empty. cbn.
      rewrite app_nil_r, Hst.
      unfold stacked_break, row_begin. now rewrite <- !app_assoc.
  - unfold put_entity. rewrite flush_eq. cbn. split; [|split].
    + constructor; cbn; try assumption; lia.
    + reflexivity.
    + unfold written. cbn. rewrite Hc, slice_empty. cbn.
      now rewrite app_nil_r.
  - unfold put_entity. rewrite flush_eq. cbn. split; [|split].
    + constructor; cbn; try assumption; lia.
    + reflexivity.
    + unfold written. cbn. rewrite Hc, slice_empty. cbn.
      now rewrite app_nil_r.
  - unfold put_entity. rewrite flush_eq. cbn. split; [|split].
    + constructor; cbn; try assumption; lia.
    + reflexivity.
    + unfold written. cbn. rewrite Hc, slice_empty. cbn.
      now rewrite app_nil_r.
  - split; [|split].
    + constructor; cbn; try assumption; lia.
    + reflexivity.
    + unfold written. cbn. rewrite Hc.
      rewrite (slice_snoc buf _ _ ch) by (assumption || lia).
      now rewrite map_app, app_assoc.
Qed.

(** One iteration before the end of the buffer. *)
Lemma loop_body_step k st s pre ch text :
  buf = pre ++ ch :: text -> k = Z.of_nat (length pre) ->
  Inv buf tags k k st s ->
  exists s',
    loop_body buf commonLines coveredLines s = Continue s'
    /\ Inv buf tags (k + 1) (k + 1) (opened_stack tags k st) s'
    /\ line s' = line_after ch (line s)
    /\ written buf s'
       = written buf s
         ++ stacked_byte tags commonLines coveredLines k ch (line s) st.
Proof.
  intros Hbuf Hk HI.
  destruct (deref_nth buf k pre ch text Hbuf Hk) as (Hde & Hnth & Hrange).
  destruct (events_ok k st s Hrange HI) as (s1 & Hev & HI1 & Hl1 & Hw1).
  destruct (switch_ok k (opened_stack tags k st) s1 ch Hnth Hde HI1)
    as (s2 & Hsw & HI2 & Hl2 & Hw2).
  exists (advance s2). unfold loop_body. rewrite Hev, Hsw.
  split; [reflexivity|]. split; [assumption|]. split; [congruence|].
  rewrite Hw2, Hw1, Hl1. unfold stacked_byte. now rewrite <- !app_assoc.
Qed.

(** The last iteration, at the end of the buffer. *)
Lemma loop_body_last st s :
  Inv buf tags (end_ buf) (end_ buf) st s ->
  exists s',
    loop_body buf commonLines coveredLines s = Break s'
    /\ stack s' = lasting (end_ buf) st
    /\ myfile s' = written buf s ++ map Close (ended (end_ buf) st).
Proof.
  intros [Hc Hb Hti Hns Hst Hne Hnx Hle].
  pose proof (first_pos_bound (end_ buf) ltac:(lia)) as Hfp.
  unfold loop_body.
  replace (c s =? next s) with true by lia.
  unfold at_event. rewrite flush_eq. cbn [c stack next_end myfile
    tags_it next_start line bufferStart next].
  rewrite Hst, Hne, Hc, close_ended_stack.
  replace (end_ buf >=? end_ buf) with true by lia.
  eexists. split; [reflexivity|]. cbn. split; reflexivity.
Qed.

(** The iterations over the bytes [text] that start at offset [k]. *)
Lemma iterate_from text : forall pre post k st s,
  buf = pre ++ text ++ post -> k = Z.of_nat (length pre) ->
  Inv buf tags k k st s ->
  exists s',
    iterate buf commonLines coveredLines (length text) s = Some s'
    /\ Inv buf tags (k + Z.of_nat (length text)) (k + Z.of_nat (length text))
         (stack_after tags k text st) s'
    /\ line s' = fold_left (fun l ch => line_after ch l) text (line s)
    /\ written buf s'
       = written buf s
         ++ stacked_steps tags commonLines coveredLines k text (line s) st.
Proof.
  induction text as [|ch text IH]; intros pre post k st s Hbuf Hk HI.
  - exists s. cbn. rewrite Z.add_0_r, app_nil_r. auto.
  - destruct (loop_body_step k st s pre ch (text ++ post) Hbuf Hk HI)
      as (s1 & Hbody & HI1 & Hl1 & Hw1).
    destruct (IH (pre ++ [ch]) post (k + 1) (opened_stack tags k st) s1)
      as (s' & Hit & HI' & Hl' & Hw').
    + now rewrite <- app_assoc.
    + rewrite length_app. simpl. lia.
    + exact HI1.
    + exists s'.
      cbn [iterate length fold_left stacked_steps stack_after].
      rewrite Hbody.
      replace (k + Z.of_nat (S (length text)))
        with (k + 1 + Z.of_nat (length text)) by lia.
      split; [exact Hit|]. split; [exact HI'|].
      split; [now rewrite Hl', Hl1|].
      rewrite Hw', Hw1, Hl1. now rewrite <- !app_assoc.
Qed.

Lemma run_iterate j : forall s s' fuel,
  iterate buf commonLines coveredLines j s = Some s' ->
  run buf commonLines coveredLines (j + fuel) s
  = run buf commonLines coveredLines fuel s'.
Proof.
  induction j as [|j IH]; intros s s' fuel; cbn.
  - now intros [= ->].
  - destruct (loop_body buf commonLines coveredLines s); try discriminate.
    apply IH.
Qed.

Lemma initial_inv :
  Inv buf tags 0 0 [] (initial buf commonLines coveredLines tags).
Proof.
  pose proof (first_pos_bound 0 ltac:(unfold end_; lia)) as Hfp.
  rewrite (pending_start _ tags tags_bounded) in Hfp.
  constructor; cbn.
  - reflexivity.
  - lia.
  - now rewrite (pending_start _ tags tags_bounded).
  - now rewrite (pending_start _ tags tags_bounded).
  - reflexivity.
  - reflexivity.
  - change (match tags with [] => end_ buf | t :: _ => Tag.pos t end)
      with (first_pos (end_ buf) tags). lia.
  - change (match tags with [] => end_ buf | t :: _ => Tag.pos t end)
      with (first_pos (end_ buf) tags). lia.
Qed.

(** The state at the start of iteration [j]. *)
Lemma loop_head_sorted j :
  (j <= length buf)%nat ->
  exists s,
    iterate buf commonLines coveredLines j
      (initial buf commonLines coveredLines tags) = Some s
    /\ Inv buf tags (Z.of_nat j) (Z.of_nat j)
         (stack_after tags 0 (firstn j buf) []) s
    /\ line s = line_at (firstn j buf)
    /\ written buf s
       = [TableBegin;
          RowBegin 1 (style_of (find_int commonLines 1))
            (style2_of (find_int coveredLines 1))]
         ++ stacked_steps tags commonLines coveredLines 0 (firstn j buf) 1 [].
Proof.
  intros Hj.
  destruct (iterate_from (firstn j buf) [] (skipn j buf) 0 []
              (initial buf commonLines coveredLines tags))
    as (s & Hit & HI & Hl & Hw).
  - cbn. now rewrite firstn_skipn.
  - reflexivity.
  - exact initial_inv.
  - rewrite length_firstn, Nat.min_l in * by exact Hj.
    exists s. split; [exact Hit|]. split; [exact HI|]. split; [exact Hl|].
    rewrite Hw. unfold written. cbn [initial myfile bufferStart c].
    now rewrite slice_empty.
Qed.

Lemma render_stacked_sorted :
  render buf commonLines coveredLines tags
  = Some (stacked tags commonLines coveredLines buf).
Proof.
  destruct (loop_head_sorted (length buf) (le_n _))
    as (s & Hit & HI & _ & Hw).
  rewrite firstn_all in *.
  destruct (loop_body_last _ s HI) as (s' & Hbody & _ & Hout).
  unfold render.
  replace (S (length buf)) with (length buf + 1)%nat by lia.
  rewrite (run_iterate _ _ _ _ Hit). cbn. rewrite Hbody, Hout, Hw.
  unfold stacked, end_. now rewrite <- !app_assoc.
Qed.

End Refinement.

(** The table written for a tag list sorted by start and inside the buffer
    is the one told with the stack. *)
Lemma render_stacked buf commonLines coveredLines tags :
  placed buf tags = true ->
  render buf commonLines coveredLines tags
  = Some (stacked tags commonLines coveredLines buf).
Proof.
  intros H. apply placed_spec in H as [Hs Hb].
  now apply render_stacked_sorted.
Qed.

Lemma loop_head buf commonLines coveredLines tags j :
  placed buf tags = true -> (j <= length buf)%nat ->
  exists s,
    iterate buf commonLines coveredLines j
      (initial buf commonLines coveredLines tags) = Some s
    /\ stack s = stack_after tags 0 (firstn j buf) []
    /\ line s = line_at (firstn j buf)
    /\ written buf s
       = [TableBegin;
          RowBegin 1 (style_of (find_int commonLines 1))
            (style2_of (find_int coveredLines 1))]
         ++ stacked_steps tags commonLines coveredLines 0 (firstn j buf) 1 [].
Proof.
  intros H Hj. apply placed_spec in H as [Hs Hb].
  destruct (loop_head_sorted buf commonLines coveredLines tags Hs Hb j Hj)
    as (s & Hit & HI & Hl & Hw).
  exists s. split; [exact Hit|]. split; [|auto].
  apply (inv_stack _ _ _ _ _ _ HI).
Qed.

(** ** The stack of a well-nested tag list *)

Lemma ended_app k cl rest :
  Forall (fun t => tag_end t <= k) cl ->
  Forall (fun t => k < tag_end t) rest ->
  ended k (cl ++ rest) = cl /\ lasting k (cl ++ rest) = rest.
Proof.
  intros Hcl Hrest. induction Hcl as [|top cl Htop _ [IH1 IH2]]; cbn.
  - destruct Hrest as [|top rest Htop _]; cbn; [auto|].
    destruct (Z.leb_spec (tag_end top) k); [lia|auto].
  - destruct (Z.leb_spec (tag_end top) k); [|lia]. now rewrite IH1, IH2.
Qed.

Section NestedStack.

Variable n : Z.
Variable tags : list Tag.t.
Variables commonLines coveredLines : list Z.
Hypothesis tags_ordered : ForallOrdPairs precedes tags.
Hypothesis tags_bounded : Forall (bounded n) tags.

(** With the tags that arrive at [k] on the stack, the tags popped are
    those that end at [k]. *)
Lemma ended_arriving k :
  ended k (rev (arriving tags k)) = closing_at tags k
  /\ lasting k (rev (arriving tags k)) = rev (staying tags k).
Proof.
  rewrite (arriving_split n tags tags_ordered tags_bounded).
  apply ended_app; apply Forall_forall; intros t Ht.
  - apply closing_at_end in Ht. lia.
  - apply in_rev in Ht. now apply staying_end in Ht.
Qed.

Lemma opened_arriving k :
  opened_stack tags k (rev (arriving tags k)) = rev (arriving tags (k + 1)).
Proof.
  unfold opened_stack. destruct (ended_arriving k) as [_ ->].
  now rewrite arriving_next,
    (covering_split n tags tags_ordered tags_bounded), rev_app_distr.
Qed.

Lemma stacked_byte_nested k ch line :
  stacked_byte tags commonLines coveredLines k ch line (rev (arriving tags k))
  = at_byte tags commonLines coveredLines k ch line.
Proof.
  unfold stacked_byte, at_byte, stacked_break, line_break.
  destruct (ended_arriving k) as [-> _].
  now rewrite opened_arriving, arriving_next, rev_involutive.
Qed.

Lemma stacked_steps_nested text : forall k line,
  stacked_steps tags commonLines coveredLines k text line
    (rev (arriving tags k))
  = steps tags commonLines coveredLines k text line.
Proof.
  induction text as [|ch text IH]; intros k line; [reflexivity|].
  cbn [stacked_steps steps].
  now rewrite stacked_byte_nested, opened_arriving, IH.
Qed.

Lemma stack_after_nested text : forall k,
  stack_after tags k text (rev (arriving tags k))
  = rev (arriving tags (k + Z.of_nat (length text))).
Proof.
  induction text as [|ch text IH]; intros k.
  - cbn. now rewrite Z.add_0_r.
  - cbn [stack_after length]. rewrite opened_arriving, IH.
    do 2 f_equal. lia.
Qed.

End NestedStack.

Lemma stacked_expected buf commonLines coveredLines tags :
  well_formed buf tags = true ->
  stacked tags commonLines coveredLines buf
  = expected tags commonLines coveredLines buf.
Proof.
  intros H. apply well_formed_spec in H as [Ho Hb].
  pose proof (stacked_steps_nested _ tags commonLines coveredLines Ho Hb
                buf 0 1) as Hsteps.
  pose proof (stack_after_nested _ tags Ho Hb buf 0) as Hafter.
  rewrite (arriving_start _ tags Hb) in Hsteps, Hafter.
  cbn [rev Z.add] in Hsteps, Hafter.
  unfold stacked, expected. rewrite Hsteps, Hafter.
  now destruct (ended_arriving _ tags Ho Hb (Z.of_nat (length buf))) as [-> _].
Qed.

(** The table written for a well-formed tag list is the expected one. *)
Lemma render_expected buf commonLines coveredLines tags :
  well_formed buf tags = true ->
  render buf commonLines coveredLines tags
  = Some (expected tags commonLines coveredLines buf).
Proof.
  intros H. rewrite <- (stacked_expected _ _ _ _ H).
  apply render_stacked. now apply well_formed_placed.
Qed.

(** ** Balance of the written markup *)

Lemma bytes_eqb_eq a : forall b, Tag.bytes_eqb a b = true <-> a = b.
Proof.
  induction a as [|x a IH]; intros [|y b]; cbn; try (split; congruence).
  rewrite andb_true_iff, Ascii.eqb_eq, IH. split.
  - intros [-> ->]. reflexivity.
  - intros [= -> ->]. auto.
Qed.

Lemma Tag_eqb_eq t u : Tag.eqb t u = true <-> t = u.
Proof.
  unfold Tag.eqb. rewrite !andb_true_iff, !bytes_eqb_eq, !Z.eqb_eq.
  destruct t, u; cbn. split.
  - intros [[[-> ->] ->] ->]. reflexivity.
  - intros [= -> -> -> ->]. auto.
Qed.

Lemma Tag_eqb_refl t : Tag.eqb t t = true.
Proof. now apply Tag_eqb_eq. Qed.

Lemma balance_app st x : forall y,
  balance st (x ++ y)
  = match balance st x with
    | Some st' => balance st' y
    | None => None
    end.
Proof.
  revert st. induction x as [|tok x IH]; intros st y; [reflexivity|].
  destruct tok; cbn; try apply IH.
  - destruct st as [|top st]; [reflexivity|].
    destruct (Tag.eqb top t); [apply IH|reflexivity].
  - destruct st; [apply IH|reflexivity].
Qed.

Lemma balance_closes cl st : balance (cl ++ st) (map Close cl) = Some st.
Proof.
  induction cl as [|t cl IH]; cbn; [reflexivity|].
  now rewrite Tag_eqb_refl.
Qed.

Lemma balance_opens l : forall st,
  balance st (map Open l)
  = Some (rev (filter (fun t => negb (Tag.len t =? 0)) l) ++ st).
Proof.
  induction l as [|t l IH]; intros st; cbn; [reflexivity|].
  rewrite IH. destruct (Tag.len t =? 0); cbn; [reflexivity|].
  now rewrite <- app_assoc.
Qed.

Lemma balance_lits l st : balance st (map Lit l) = Some st.
Proof. induction l as [|ch l IH]; cbn; auto. Qed.

Lemma balance_body_escape st ch : balance st [body_escape ch] = Some st.
Proof.
  unfold body_escape.
  destruct (ch =? "&")%char; [reflexivity|].
  destruct (ch =? "<")%char; [reflexivity|].
  destruct (ch =? ">")%char; reflexivity.
Qed.

Lemma balance_ended k st :
  balance st (map Close (ended k st)) = Some (lasting k st).
Proof.
  rewrite <- (ended_lasting k st) at 1. apply balance_closes.
Qed.

Section Balance.

Variable n : Z.
Variable tags : list Tag.t.
Variables commonLines coveredLines : list Z.
Hypothesis tags_bounded : Forall (bounded n) tags.

Lemma stackable_nonzero st :
  Forall (stackable tags) st ->
  filter (fun t => negb (Tag.len t =? 0)) st = st.
Proof.
  intros H. apply filter_all. intros t Ht.
  rewrite Forall_forall in H. destruct (H t Ht) as [_ Hl]. lia.
Qed.

Lemma opened_stackable k st :
  Forall (stackable tags) st ->
  Forall (stackable tags) (opened_stack tags k st).
Proof.
  intros H. unfold opened_stack. apply Forall_app. split.
  - apply Forall_forall. intros t Ht. apply in_rev in Ht.
    apply (opening_nonzero_end n tags tags_bounded) in Ht.
    split; tauto.
  - apply Forall_forall. intros t Ht. apply lasting_incl in Ht.
    rewrite Forall_forall in H. auto.
Qed.

Lemma stack_after_stackable text : forall k st,
  Forall (stackable tags) st ->
  Forall (stackable tags) (stack_after tags k text st).
Proof.
  induction text as [|ch text IH]; intros k st H; cbn; [exact H|].
  apply IH. now apply opened_stackable.
Qed.

(** The tags on the stack end inside the buffer. *)
Lemma stackable_end st :
  Forall (stackable tags) st -> Forall (fun t => tag_end t <= n) st.
Proof.
  intros H. apply Forall_forall. intros t Ht. rewrite Forall_forall in H.
  destruct (H t Ht) as [Hin _].
  apply (bounded_in n tags tags_bounded) in Hin. unfold bounded in Hin. lia.
Qed.

Lemma balance_break st line' :
  Forall (stackable tags) st ->
  balance st (stacked_break commonLines coveredLines st line') = Some st.
Proof.
  intros H. unfold stacked_break. rewrite balance_app.
  rewrite <- (app_nil_r st) at 1. rewrite balance_closes. cbn.
  rewrite balance_opens, filter_rev, stackable_nonzero by exact H.
  now rewrite rev_involutive, app_nil_r.
Qed.

Lemma balance_stacked_byte k ch line st :
  Forall (stackable tags) st ->
  balance st (stacked_byte tags commonLines coveredLines k ch line st)
  = Some (opened_stack tags k st).
Proof.
  intros H. unfold stacked_byte.
  rewrite balance_app, balance_ended, balance_app, balance_opens.
  fold (opened_stack tags k st).
  destruct (ch =? newline)%char.
  - apply balance_break. now apply opened_stackable.
  - apply balance_body_escape.
Qed.

Lemma balance_stacked_steps text : forall k line st,
  Forall (stackable tags) st ->
  balance st (stacked_steps tags commonLines coveredLines k text line st)
  = Some (stack_after tags k text st).
Proof.
  induction text as [|ch text IH]; intros k line st H; [reflexivity|].
  cbn [stacked_steps stack_after].
  rewrite balance_app, balance_stacked_byte by exact H.
  apply IH. now apply opened_stackable.
Qed.

End Balance.

Lemma balance_stacked buf commonLines coveredLines tags :
  placed buf tags = true ->
  balance [] (stacked tags commonLines coveredLines buf) = Some [].
Proof.
  intros H. apply placed_spec in H as [_ Hb].
  unfold stacked. cbn [app balance].
  rewrite balance_app,
    (balance_stacked_steps _ tags commonLines coveredLines Hb)
    by constructor.
  rewrite balance_app, balance_ended.
  assert (Hend : Forall (fun t => tag_end t <= Z.of_nat (length buf))
                   (stack_after tags 0 buf [])).
  { apply (stackable_end _ tags Hb), (stack_after_stackable _ tags Hb).
    constructor. }
  apply all_ended in Hend as [_ ->]. reflexivity.
Qed.

(** ** Reading the rendering *)

Lemma body_escape_cases ch :
  (body_escape ch = Lit ch /\ (ch =? "&")%char = false
   /\ (ch =? "<")%char = false /\ (ch =? ">")%char = false)
  \/ (body_escape ch = Ent (str "&amp;") /\ ch = "&"%char)
  \/ (body_escape ch = Ent (str "&lt;") /\ ch = "<"%char)
  \/ (body_escape ch = Ent (str "&gt;") /\ ch = ">"%char).
Proof.
  unfold body_escape.
  destruct (Ascii.eqb_spec ch "&"); [auto|].
  destruct (Ascii.eqb_spec ch "<"); [auto|].
  destruct (Ascii.eqb_spec ch ">"); auto.
Qed.

Lemma literal_closes l : flat_map literal (map Close l) = [].
Proof. induction l; cbn; auto. Qed.

Lemma literal_opens l : flat_map literal (map Open l) = [].
Proof. induction l; cbn; auto. Qed.

Lemma text_closes l : filter is_text (map Close l) = [].
Proof. induction l; cbn; auto. Qed.

Lemma text_opens l : filter is_text (map Open l) = [].
Proof. induction l; cbn; auto. Qed.

Lemma is_text_body_escape ch : is_text (body_escape ch) = true.
Proof.
  destruct (body_escape_cases ch)
    as [(-> & _)|[(-> & _)|[(-> & _)|(-> & _)]]]; reflexivity.
Qed.

Lemma rows_closes l : rows (map Close l) = [].
Proof. induction l; cbn; auto. Qed.

Lemma rows_opens l : rows (map Open l) = [].
Proof. induction l; cbn; auto. Qed.

Lemma rows_app a : forall b, rows (a ++ b) = rows a ++ rows b.
Proof.
  induction a as [|tok a IH]; intros b; [reflexivity|].
  destruct tok; cbn; now rewrite IH.
Qed.

Lemma rows_body_escape ch : rows [body_escape ch] = [].
Proof.
  destruct (body_escape_cases ch)
    as [(-> & _)|[(-> & _)|[(-> & _)|(-> & _)]]]; reflexivity.
Qed.

Lemma bodies_rows out : length (bodies out) = length (rows out).
Proof.
  induction out as [|tok out IH]; [reflexivity|].
  destruct tok; cbn; auto.
Qed.

Section Reading.

Variable tags : list Tag.t.
Variables commonLines coveredLines : list Z.

Lemma stacked_steps_app a : forall b k line st,
  stacked_steps tags commonLines coveredLines k (a ++ b) line st
  = stacked_steps tags commonLines coveredLines k a line st
    ++ stacked_steps tags commonLines coveredLines
         (k + Z.of_nat (length a)) b
         (fold_left (fun l ch => line_after ch l) a line)
         (stack_after tags k a st).
Proof.
  induction a as [|ch a IH]; intros b k line st.
  - cbn. now rewrite Z.add_0_r.
  - cbn [app stacked_steps length fold_left stack_after].
    rewrite IH, <- app_assoc. do 3 f_equal. lia.
Qed.

(** The bytes copied as they are: all but the newlines and the three
    reserved characters. *)
Lemma literal_steps text : forall k line st,
  flat_map literal (stacked_steps tags commonLines coveredLines k text line st)
  = filter is_plain text.
Proof.
  induction text as [|ch text IH]; intros k line st; [reflexivity|].
  cbn [stacked_steps filter]. unfold stacked_byte, stacked_break.
  rewrite !flat_map_app, literal_closes, literal_opens, IH. cbn [app].
  unfold is_plain.
  destruct (ch =? newline)%char eqn:En.
  - rewrite flat_map_app, literal_closes. cbn. now rewrite literal_opens.
  - destruct (body_escape_cases ch)
      as [(-> & -> & -> & ->)|[(-> & ->)|[(-> & ->)|(-> & ->)]]];
      reflexivity.
Qed.

(** The text written: every byte but the newlines, through the body
    escaper. *)
Lemma text_steps text : forall k line st,
  filter is_text (stacked_steps tags commonLines coveredLines k text line st)
  = map body_escape (filter (fun ch => negb (is_newline ch)) text).
Proof.
  induction text as [|ch text IH]; intros k line st; [reflexivity|].
  cbn [stacked_steps filter]. unfold stacked_byte, stacked_break, is_newline.
  rewrite !filter_app, text_closes, text_opens, IH. cbn [app].
  destruct (ch =? newline)%char eqn:En; cbn [negb].
  - rewrite filter_app, text_closes. cbn. now rewrite text_opens.
  - cbn [filter map]. now rewrite is_text_body_escape.
Qed.

Lemma rows_stacked_byte k ch line st :
  rows (stacked_byte tags commonLines coveredLines k ch line st)
  = if (ch =? newline)%char
    then [row_of commonLines coveredLines (to_unsigned (line + 1))]
    else [].
Proof.
  unfold stacked_byte, stacked_break.
  rewrite !rows_app, rows_closes, rows_opens. cbn [app].
  destruct (ch =? newline)%char.
  - rewrite rows_app, rows_closes. cbn. now rewrite rows_opens.
  - apply rows_body_escape.
Qed.

(** One row is begun for each newline. *)
Lemma rows_steps_length text : forall k line st,
  length (rows (stacked_steps tags commonLines coveredLines k text line st))
  = length (filter is_newline text).
Proof.
  induction text as [|ch text IH]; intros k line st; [reflexivity|].
  cbn [stacked_steps filter].
  rewrite rows_app, length_app, rows_stacked_byte, IH.
  unfold is_newline. destruct (ch =? newline)%char; reflexivity.
Qed.

(** The rows are numbered from [line + 1] on, as long as the counter does
    not wrap. *)
Lemma rows_steps text : forall k line st,
  0 <= line -> line + Z.of_nat (length text) < 2 ^ 32 ->
  rows (stacked_steps tags commonLines coveredLines k text line st)
  = map (fun i => row_of commonLines coveredLines (line + Z.of_nat i))
      (seq 1 (length (filter is_newline text))).
Proof.
  induction text as [|ch text IH]; intros k line st H0 Hlen; [reflexivity|].
  cbn [stacked_steps filter]. rewrite rows_app, rows_stacked_byte.
  unfold line_after, is_newline. cbn [length] in Hlen.
  destruct (ch =? newline)%char.
  - assert (E : to_unsigned (line + 1) = line + 1).
    { unfold to_unsigned. apply Z.mod_small. lia. }
    rewrite E, IH by lia. cbn [length seq map app].
    f_equal.
    rewrite <- (seq_shift _ 1), map_map. apply map_ext. intros i.
    f_equal. lia.
  - rewrite IH by lia. reflexivity.
Qed.

(** Every row begun by the scan is styled for its own number. *)
Lemma rows_steps_styled text : forall k line st,
  Forall (fun row => row = row_of commonLines coveredLines (fst (fst row)))
    (rows (stacked_steps tags commonLines coveredLines k text line st)).
Proof.
  induction text as [|ch text IH]; intros k line st; [constructor|].
  cbn [stacked_steps]. rewrite rows_app, rows_stacked_byte.
  apply Forall_app. split; [|apply IH].
  destruct (ch =? newline)%char; repeat constructor.
Qed.

Lemma literal_stacked buf :
  flat_map literal (stacked tags commonLines coveredLines buf)
  = filter is_plain buf.
Proof.
  unfold stacked. cbn [app flat_map literal].
  rewrite flat_map_app, literal_steps, flat_map_app, literal_closes.
  cbn. now rewrite app_nil_r.
Qed.

Lemma text_stacked buf :
  filter is_text (stacked tags commonLines coveredLines buf)
  = map body_escape (filter (fun ch => negb (is_newline ch)) buf).
Proof.
  unfold stacked. cbn [app filter is_text].
  rewrite filter_app, text_steps, filter_app, text_closes.
  cbn. now rewrite app_nil_r.
Qed.

Lemma rows_stacked buf :
  rows (stacked tags commonLines coveredLines buf)
  = (1, style_of (find_int commonLines 1), style2_of (find_int coveredLines 1))
    :: rows (stacked_steps tags commonLines coveredLines 0 buf 1 []).
Proof.
  unfold stacked. cbn [app rows].
  rewrite rows_app, rows_app, rows_closes. cbn. now rewrite app_nil_r.
Qed.

Lemma no_literal_newline buf :
  ~ In (Lit newline) (stacked tags commonLines coveredLines buf).
Proof.
  intros H.
  assert (Hin : In newline
                  (flat_map literal
                     (stacked tags commonLines coveredLines buf))).
  { apply in_flat_map. exists (Lit newline). split; [exact H|now left]. }
  rewrite literal_stacked in Hin. apply filter_In in Hin as [_ Hp].
  discriminate Hp.
Qed.

(** The rendering around the byte at the end of [pre]. *)
Lemma stacked_at buf pre ch post :
  buf = pre ++ ch :: post ->
  stacked tags commonLines coveredLines buf
  = ([TableBegin;
      RowBegin 1 (style_of (find_int commonLines 1))
        (style2_of (find_int coveredLines 1))]
     ++ stacked_steps tags commonLines coveredLines 0 pre 1 [])
    ++ stacked_byte tags commonLines coveredLines (Z.of_nat (length pre)) ch
         (line_at pre) (stack_after tags 0 pre [])
    ++ stacked_steps tags commonLines coveredLines
         (Z.of_nat (length pre) + 1) post (line_after ch (line_at pre))
         (opened_stack tags (Z.of_nat (length pre))
            (stack_after tags 0 pre []))
    ++ map Close (ended (Z.of_nat (length buf)) (stack_after tags 0 buf []))
    ++ [RowEnd; TableEnd].
Proof.
  intros Hbuf. unfold stacked. rewrite Hbuf at 1.
  rewrite stacked_steps_app. cbn [stacked_steps].
  unfold line_at. now rewrite <- !app_assoc.
Qed.

End Reading.

(** ** The tags whose range contains the cursor are on the stack *)

Section Covered.

Variable n : Z.
Variable tags : list Tag.t.
Hypothesis tags_bounded : Forall (bounded n) tags.

Lemma opened_covers k st :
  (forall t, In t tags -> Tag.pos t < k <= tag_end t -> In t st) ->
  forall t, In t tags -> Tag.pos t <= k < tag_end t ->
            In t (opened_stack tags k st).
Proof.
  intros Hst t Ht Hrange. unfold opened_stack. apply in_or_app.
  destruct (Z.eq_dec (Tag.pos t) k) as [E|E].
  - left. rewrite <- in_rev. unfold opening_at. rewrite !filter_In.
    unfold tag_end in Hrange. split; [split; [exact Ht|lia]|lia].
  - right. apply lasting_of; [|lia]. apply Hst; [exact Ht|lia].
Qed.

Lemma stack_after_covers text : forall k st,
  (forall t, In t tags -> Tag.pos t < k <= tag_end t -> In t st) ->
  forall t, In t tags ->
            Tag.pos t < k + Z.of_nat (length text) <= tag_end t ->
            In t (stack_after tags k text st).
Proof.
  induction text as [|ch text IH]; intros k st Hst t Ht Hrange.
  - cbn in *. apply Hst; [exact Ht|lia].
  - cbn [stack_after length] in *.
    apply (IH (k + 1)); [|exact Ht|lia].
    intros u Hu Hur. apply opened_covers; [exact Hst|exact Hu|lia].
Qed.

Lemma stack_covers pre t :
  In t tags -> Tag.pos t <= Z.of_nat (length pre) < tag_end t ->
  In t (opened_stack tags (Z.of_nat (length pre)) (stack_after tags 0 pre [])).
Proof.
  intros Ht Hrange. apply opened_covers; [|exact Ht|exact Hrange].
  intros u Hu Hur. apply (stack_after_covers pre 0); [|exact Hu|lia].
  intros v Hv Hvr. apply (bounded_in n tags tags_bounded) in Hv.
  unfold bounded in Hv. lia.
Qed.

End Covered.

(** ** The open and close markups of one tag *)

Lemma opens_of_closes t l : filter (is_open_of t) (map Close l) = [].
Proof. induction l; cbn; auto. Qed.

Lemma opens_of_opens t l :
  filter (is_open_of t) (map Open l)
  = map Open (filter (fun u => Tag.eqb u t) l).
Proof.
  induction l as [|u l IH]; cbn; [reflexivity|].
  rewrite IH. now destruct (Tag.eqb u t).
Qed.

Lemma opens_of_body_escape t ch : filter (is_open_of t) [body_escape ch] = [].
Proof.
  destruct (body_escape_cases ch)
    as [(-> & _)|[(-> & _)|[(-> & _)|(-> & _)]]]; reflexivity.
Qed.

Section OneTag.

Variable n : Z.
Variable tags : list Tag.t.
Variables commonLines coveredLines : list Z.
Hypothesis tags_bounded : Forall (bounded n) tags.

Lemma stack_after_app a : forall b k st,
  stack_after tags k (a ++ b) st
  = stack_after tags (k + Z.of_nat (length a)) b (stack_after tags k a st).
Proof.
  induction a as [|ch a IH]; intros b k st.
  - cbn. now rewrite Z.add_0_r.
  - cbn [app stack_after length]. rewrite IH. f_equal. lia.
Qed.

(** A close markup is that of a tag of nonzero length. *)
Lemma close_in_stacked_byte t k ch line st :
  Forall (stackable tags) st ->
  In (Close t) (stacked_byte tags commonLines coveredLines k ch line st) ->
  Tag.len t <> 0.
Proof.
  intros Hst. pose proof (opened_stackable n tags tags_bounded k st Hst) as Hop.
  rewrite Forall_forall in Hst, Hop.
  unfold stacked_byte, stacked_break. rewrite !in_app_iff, !in_map_iff.
  intros [(u & [= ->] & Hu)|[(u & [=] & _)|H]].
  - apply (Hst t). now apply ended_incl in Hu.
  - destruct (ch =? newline)%char.
    + rewrite !in_app_iff, !in_map_iff in H.
      destruct H as [(u & [= ->] & Hu)|[H|(u & [=] & _)]].
      * now apply (Hop t).
      * unfold row_begin in H. destruct H as [[=]|[[=]|[]]].
    + destruct (body_escape_cases ch)
        as [(E & _)|[(E & _)|[(E & _)|(E & _)]]];
        rewrite E in H; destruct H as [[=]|[]].
Qed.

Lemma close_in_stacked_steps t text : forall k line st,
  Forall (stackable tags) st ->
  In (Close t) (stacked_steps tags commonLines coveredLines k text line st) ->
  Tag.len t <> 0.
Proof.
  induction text as [|ch text IH]; intros k line st Hst; cbn [stacked_steps];
    [intros []|].
  rewrite in_app_iff. intros [H|H].
  - now apply close_in_stacked_byte in H.
  - apply IH in H; [exact H|]. now apply (opened_stackable n).
Qed.

Lemma close_in_stacked buf t :
  In (Close t) (stacked tags commonLines coveredLines buf) ->
  Tag.len t <> 0.
Proof.
  unfold stacked. cbn [app]. intros [[=]|[[=]|H]].
  rewrite !in_app_iff, in_map_iff in H.
  destruct H as [H|[(u & [= ->] & Hu)|[[=]|[[=]|[]]]]].
  - apply close_in_stacked_steps in H; [exact H|constructor].
  - assert (Hst : Forall (stackable tags) (stack_after tags 0 buf []))
      by (apply (stack_after_stackable n tags tags_bounded); constructor).
    rewrite Forall_forall in Hst.
    apply (Hst t). now apply ended_incl in Hu.
Qed.

(** A tag on the stack is closed by the end of the buffer. *)
Lemma closed_later t text : forall k line st,
  k + Z.of_nat (length text) = n ->
  Forall (stackable tags) st -> In t st ->
  In (Close t)
    (stacked_steps tags commonLines coveredLines k text line st
     ++ map Close (ended n (stack_after tags k text st))).
Proof.
  induction text as [|ch text IH]; intros k line st Hn Hst Ht.
  - cbn in *. rewrite Z.add_0_r in Hn. subst k.
    destruct (all_ended n st (stackable_end n tags tags_bounded st Hst))
      as [-> _].
    now apply in_map.
  - cbn [stacked_steps stack_after length] in *.
    rewrite <- (ended_lasting k st) in Ht.
    rewrite <- app_assoc, in_app_iff.
    apply in_app_or in Ht as [Ht|Ht].
    + left. unfold stacked_byte. apply in_or_app. left. now apply in_map.
    + right. apply IH; [lia|now apply (opened_stackable n)|].
      unfold opened_stack. apply in_or_app. now right.
Qed.

(** A tag of nonzero length has its open and its close markup written. *)
Lemma open_close_in_stacked buf t :
  n = Z.of_nat (length buf) ->
  In t tags -> Tag.len t <> 0 ->
  In (Open t) (stacked tags commonLines coveredLines buf)
  /\ In (Close t) (stacked tags commonLines coveredLines buf).
Proof.
  intros Hn Ht Hlen.
  pose proof (bounded_in _ _ tags_bounded t Ht) as (Hp & Hl & He).
  unfold tag_end in He.
  destruct (nth_error buf (Z.to_nat (Tag.pos t))) as [ch|] eqn:E;
    [|apply nth_error_None in E; lia].
  apply nth_error_split in E as (pre & post & Hbuf & Hpre).
  assert (Hk : Z.of_nat (length pre) = Tag.pos t) by lia.
  rewrite (stacked_at _ _ _ _ _ _ _ Hbuf). split.
  - apply in_or_app. right. apply in_or_app. left.
    unfold stacked_byte. rewrite !in_app_iff. right. left.
    apply in_map. unfold opening_at. apply filter_In. split; [exact Ht|].
    lia.
  - apply in_or_app. right. apply in_or_app. right.
    rewrite app_assoc. apply in_or_app. left.
    assert (Hafter : stack_after tags 0 buf []
                     = stack_after tags (Z.of_nat (length pre) + 1) post
                         (opened_stack tags (Z.of_nat (length pre))
                            (stack_after tags 0 pre []))).
    { rewrite Hbuf at 1. now rewrite stack_after_app. }
    rewrite Hafter, <- Hn. apply closed_later.
    + rewrite Hn, Hbuf, length_app. cbn [length]. lia.
    + apply (opened_stackable n tags tags_bounded).
      apply (stack_after_stackable n tags tags_bounded). constructor.
    + unfold opened_stack. apply in_or_app. left. rewrite <- in_rev.
      unfold opening_at. rewrite !filter_In.
      split; [split; [exact Ht|lia]|lia].
Qed.

Variable t : Tag.t.
Hypothesis t_empty : Tag.len t = 0.

Lemma stackable_not_empty st :
  Forall (stackable tags) st -> filter (fun u => Tag.eqb u t) st = [].
Proof.
  intros Hst. apply filter_none. intros u Hu.
  rewrite Forall_forall in Hst. destruct (Hst u Hu) as [_ Hl].
  destruct (Tag.eqb u t) eqn:E; [|reflexivity].
  apply Tag_eqb_eq in E. now subst.
Qed.

Lemma opening_of_tag k :
  filter (fun u => Tag.eqb u t) (opening_at tags k)
  = if Tag.pos t =? k then filter (fun u => Tag.eqb u t) tags else [].
Proof.
  unfold opening_at. rewrite filter_twice.
  destruct (Z.eqb_spec (Tag.pos t) k) as [E|E].
  - apply filter_ext. intros u. destruct (Tag.eqb u t) eqn:Eu.
    + apply Tag_eqb_eq in Eu. subst u. rewrite andb_true_r. lia.
    + apply andb_false_r.
  - apply filter_none. intros u _. destruct (Tag.eqb u t) eqn:Eu.
    + apply Tag_eqb_eq in Eu. subst u. rewrite andb_true_r. lia.
    + apply andb_false_r.
Qed.

Lemma opens_of_stacked_byte k ch line st :
  Forall (stackable tags) st ->
  filter (is_open_of t)
    (stacked_byte tags commonLines coveredLines k ch line st)
  = if Tag.pos t =? k then map Open (filter (fun u => Tag.eqb u t) tags)
    else [].
Proof.
  intros Hst. unfold stacked_byte, stacked_break.
  rewrite !filter_app, opens_of_closes, opens_of_opens, opening_of_tag.
  cbn [app].
  replace (filter (is_open_of t) _) with (@nil token).
  - rewrite app_nil_r. now destruct (Tag.pos t =? k).
  - destruct (ch =? newline)%char.
    + rewrite filter_app, opens_of_closes. cbn.
      rewrite opens_of_opens, filter_rev, stackable_not_empty; [reflexivity|].
      now apply (opened_stackable n).
    + now rewrite opens_of_body_escape.
Qed.

(** A tag of length zero is opened once for each time it is listed, at its
    own offset. *)
Lemma opens_of_stacked_steps text : forall k line st,
  Forall (stackable tags) st ->
  filter (is_open_of t)
    (stacked_steps tags commonLines coveredLines k text line st)
  = if (k <=? Tag.pos t) && (Tag.pos t <? k + Z.of_nat (length text))
    then map Open (filter (fun u => Tag.eqb u t) tags)
    else [].
Proof.
  induction text as [|ch text IH]; intros k line st Hst.
  - cbn. now replace ((k <=? Tag.pos t) && (Tag.pos t <? k + 0)) with false
      by lia.
  - cbn [stacked_steps length].
    rewrite filter_app, opens_of_stacked_byte, IH
      by (try apply (opened_stackable n); assumption).
    destruct (Z.eqb_spec (Tag.pos t) k) as [E|E].
    + destruct (Z.leb_spec (k + 1) (Tag.pos t)); [lia|].
      destruct (Z.leb_spec k (Tag.pos t)); [|lia].
      destruct (Z.ltb_spec (Tag.pos t) (k + Z.of_nat (S (length text))));
        [|lia].
      apply app_nil_r.
    + cbn [app].
      destruct (Z.leb_spec (k + 1) (Tag.pos t)),
        (Z.leb_spec k (Tag.pos t)); try lia; cbn [andb]; [|reflexivity].
      destruct (Z.ltb_spec (Tag.pos t) (k + 1 + Z.of_nat (length text))),
        (Z.ltb_spec (Tag.pos t) (k + Z.of_nat (S (length text))));
        try lia; reflexivity.
Qed.

Lemma opens_of_stacked buf :
  0 <= Tag.pos t < Z.of_nat (length buf) ->
  filter (is_open_of t) (stacked tags commonLines coveredLines buf)
  = map Open (filter (fun u => Tag.eqb u t) tags).
Proof.
  intros Hpos. unfold stacked. cbn [app filter is_open_of].
  rewrite !filter_app, opens_of_stacked_steps, opens_of_closes
    by constructor.
  cbn [filter is_open_of].
  destruct (Z.leb_spec 0 (Tag.pos t)); [|lia].
  destruct (Z.ltb_spec (Tag.pos t) (0 + Z.of_nat (length buf))); [|lia].
  cbn [andb]. now rewrite !app_nil_r.
Qed.

End OneTag.

(** ** Membership in the line sets *)

Lemma find_int_In v x : find_int v x = true <-> In x v.
Proof.
  unfold find_int. rewrite existsb_exists. split.
  - intros (a & Ha & E). apply Z.eqb_eq in E. now subst.
  - intros H. exists x. split; [exact H|apply Z.eqb_refl].
Qed.

Lemma find_unsigned_In v line :
  Forall int_range v -> 0 <= line < 2 ^ 31 ->
  find_unsigned v line = true <-> In line v.
Proof.
  intros Hv Hl. unfold find_unsigned. rewrite existsb_exists. split.
  - intros (a & Ha & E). apply Z.eqb_eq in E.
    rewrite Forall_forall in Hv. pose proof (Hv a Ha) as Hr.
    unfold int_range in Hr. unfold to_unsigned in E.
    assert (Heq : a = line).
    { destruct (Z.neg_nonneg_cases a) as [Hneg|Hpos].
      - assert (Hm : a mod 2 ^ 32 = a + 2 ^ 32).
        { symmetry. apply (Z.mod_unique a (2 ^ 32) (-1)); lia. }
        lia.
      - rewrite Z.mod_small in E by lia. exact E. }
    rewrite <- Heq. exact Ha.
  - intros H. exists line. split; [exact H|].
    apply Z.eqb_eq. unfold to_unsigned. apply Z.mod_small. lia.
Qed.

(** ** The line bodies of a buffer without tags *)

Lemma body_until_end_escape ch out :
  body_until_end (body_escape ch :: out)
  = body_escape ch :: body_until_end out.
Proof.
  destruct (body_escape_cases ch)
    as [(-> & _)|[(-> & _)|[(-> & _)|(-> & _)]]]; reflexivity.
Qed.

Lemma bodies_escape ch out : bodies (body_escape ch :: out) = bodies out.
Proof.
  destruct (body_escape_cases ch)
    as [(-> & _)|[(-> & _)|[(-> & _)|(-> & _)]]]; reflexivity.
Qed.

Section NoTags.

Variables commonLines coveredLines : list Z.

Lemma first_body text : forall k line rest,
  body_until_end
    (stacked_steps [] commonLines coveredLines k text line []
     ++ RowEnd :: rest)
  = map body_escape (first_line text).
Proof.
  induction text as [|ch text IH]; intros k line rest; [reflexivity|].
  cbn [stacked_steps first_line].
  unfold stacked_byte, stacked_break, opened_stack.
  cbn [ended lasting opening_at filter rev map app].
  destruct (ch =? newline)%char; [reflexivity|].
  cbn [app map]. now rewrite body_until_end_escape, IH.
Qed.

Lemma later_bodies text : forall k line rest,
  bodies
    (stacked_steps [] commonLines coveredLines k text line []
     ++ RowEnd :: rest)
  = map (map body_escape) (later_lines text) ++ bodies rest.
Proof.
  induction text as [|ch text IH]; intros k line rest; [reflexivity|].
  cbn [stacked_steps later_lines].
  unfold stacked_byte, stacked_break, opened_stack.
  cbn [ended lasting opening_at filter rev map app].
  destruct (ch =? newline)%char.
  - unfold row_begin. cbn [bodies map app]. now rewrite first_body, IH.
  - cbn [app]. now rewrite bodies_escape, IH.
Qed.

Lemma stack_after_no_tags text : forall k, stack_after [] k text [] = [].
Proof. induction text as [|ch text IH]; intros k; cbn; auto. Qed.

Lemma bodies_stacked buf :
  bodies (stacked [] commonLines coveredLines buf)
  = map (map body_escape) (split_lines buf).
Proof.
  unfold stacked, split_lines. rewrite stack_after_no_tags.
  cbn [ended map app bodies].
  now rewrite first_body, later_bodies, app_nil_r.
Qed.

End NoTags.

Lemma strip_escaped text :
  strip_markup (contents (map body_escape text))
  = contents (map body_escape text).
Proof.
  unfold strip_markup, contents.
  induction text as [|ch text IH]; [reflexivity|].
  cbn [map flat_map].
  destruct (body_escape_cases ch)
    as [(-> & _ & E & _)|[(-> & _)|[(-> & _)|(-> & _)]]];
    cbn; rewrite ?E; now rewrite IH.
Qed.

Lemma entity_at_plain ch rest :
  (ch =? "&")%char = false -> entity_at (ch :: rest) = None.
Proof.
  intros E. unfold entity_at, str. cbn [list_ascii_of_string starts_with].
  rewrite (Ascii.eqb_sym "&" ch), E. reflexivity.
Qed.

Lemma unescape_escaped text :
  unescape (contents (map body_escape text)) = text.
Proof.
  unfold unescape, contents.
  induction text as [|ch text IH]; [reflexivity|].
  cbn [map flat_map].
  destruct (body_escape_cases ch)
    as [(-> & E & _)|[(-> & ->)|[(-> & ->)|(-> & ->)]]].
  - cbn [token_bytes app unescape_from].
    rewrite entity_at_plain by exact E. now rewrite IH.
  - cbn. now rewrite IH.
  - cbn. now rewrite IH.
  - cbn. now rewrite IH.
Qed.

Lemma join_lines_cons l l' ls :
  join_lines (l :: l' :: ls) = l ++ newline :: join_lines (l' :: ls).
Proof. reflexivity. Qed.

Lemma join_split_lines text : join_lines (split_lines text) = text.
Proof.
  unfold split_lines. induction text as [|ch text IH]; [reflexivity|].
  cbn [first_line later_lines]. destruct (Ascii.eqb_spec ch newline) as [->|_].
  - rewrite join_lines_cons, IH. reflexivity.
  - destruct (later_lines text) as [|l ls].
    + cbn [join_lines] in *. now rewrite IH.
    + rewrite join_lines_cons in *. cbn [app]. now rewrite IH.
Qed.

(** ** Escaping of attribute text *)

Lemma escapeAttr_switch_escape buffer ch :
  escapeAttr_switch buffer ch = buffer ++ attr_escape ch.
Proof.
  unfold escapeAttr_switch, attr_escape, attr_entity.
  destruct (ch =? "<")%char; [reflexivity|].
  destruct (ch =? ">")%char; [reflexivity|].
  destruct (ch =? "&")%char; [reflexivity|].
  destruct (ch =? dquote)%char; [reflexivity|].
  destruct (ch =? squote)%char; reflexivity.
Qed.

Lemma escapeAttr_fold s : forall buffer,
  fold_left escapeAttr_switch s buffer = buffer ++ flat_map attr_escape s.
Proof.
  induction s as [|ch s IH]; intros buffer; cbn.
  - now rewrite app_nil_r.
  - now rewrite IH, escapeAttr_switch_escape, <- app_assoc.
Qed.

Lemma scanned_all s : Z.of_nat (length s) < 2 ^ 32 -> scanned s = s.
Proof.
  intros H. unfold scanned, to_unsigned.
  rewrite Z.mod_small, Nat2Z.id by lia. apply firstn_all.
Qed.

Lemma attr_escape_plain ch :
  attr_escape ch = [ch] <-> ~ In ch ["<"; ">"; "&"; dquote; squote]%char.
Proof.
  unfold attr_escape, attr_entity. cbn [In].
  destruct (Ascii.eqb_spec ch "<") as [->|?]; [split; [discriminate|tauto]|].
  destruct (Ascii.eqb_spec ch ">") as [->|?]; [split; [discriminate|tauto]|].
  destruct (Ascii.eqb_spec ch "&") as [->|?]; [split; [discriminate|tauto]|].
  destruct (Ascii.eqb_spec ch dquote) as [->|?];
    [split; [discriminate|tauto]|].
  destruct (Ascii.eqb_spec ch squote) as [->|?];
    [split; [discriminate|tauto]|].
  split; [|reflexivity]. intros _ H. repeat destruct H as [H|H]; congruence.
Qed.

Lemma body_escape_plain ch :
  body_escape ch = Lit ch <-> ~ In ch ["<"; ">"; "&"]%char.
Proof.
  unfold body_escape. cbn [In].
  destruct (Ascii.eqb_spec ch "&") as [->|?]; [split; [discriminate|tauto]|].
  destruct (Ascii.eqb_spec ch "<") as [->|?]; [split; [discriminate|tauto]|].
  destruct (Ascii.eqb_spec ch ">") as [->|?]; [split; [discriminate|tauto]|].
  split; [|reflexivity]. intros _ H. repeat destruct H as [H|H]; congruence.
Qed.

Lemma is_plain_spec ch :
  is_plain ch = true <-> ~ In ch [newline; "&"; "<"; ">"]%char.
Proof.
  unfold is_plain. cbn [In].
  destruct (Ascii.eqb_spec ch newline) as [->|?];
    [split; [discriminate|tauto]|].
  destruct (Ascii.eqb_spec ch "&") as [->|?]; [split; [discriminate|tauto]|].
  destruct (Ascii.eqb_spec ch "<") as [->|?]; [split; [discriminate|tauto]|].
  destruct (Ascii.eqb_spec ch ">") as [->|?]; [split; [discriminate|tauto]|].
  split; [|reflexivity]. intros _ H. repeat destruct H as [H|H]; congruence.
Qed.

(** ** The annotation files *)

Lemma extract_all_empty fuel lines : extract_all fuel [] lines = lines.
Proof. destruct fuel; reflexivity. Qed.

Lemma getCommonLines_absent fs lines path :
  fs path = None \/ fs path = Some [] -> getCommonLines fs lines path = lines.
Proof.
  unfold getCommonLines. intros [-> | ->]; [reflexivity|].
  apply extract_all_empty.
Qed.

Lemma getCoveredLines_absent fs lines path :
  fs path = None \/ fs path = Some [] -> getCoveredLines fs lines path = lines.
Proof.
  unfold getCoveredLines. intros [-> | ->]; [reflexivity|].
  apply extract_all_empty.
Qed.

Lemma find_last_of_none s chars :
  (forall ch, In ch s -> ~ In ch chars) -> find_last_of s chars = None.
Proof.
  induction s as [|ch s IH]; intros H; cbn; [reflexivity|].
  rewrite IH by (intros x Hx; apply H; now right).
  destruct (existsb (Ascii.eqb ch) chars) eqn:E; [|reflexivity].
  apply existsb_exists in E as (x & Hx & Ex). apply Ascii.eqb_eq in Ex.
  subst x. exfalso. apply (H ch); [now left|exact Hx].
Qed.

Lemma find_last_of_last dir sep base chars :
  In sep chars -> (forall ch, In ch base -> ~ In ch chars) ->
  find_last_of (dir ++ sep :: base) chars = Some (length dir).
Proof.
  intros Hsep Hbase. induction dir as [|ch dir IH]; cbn.
  - rewrite find_last_of_none by exact Hbase.
    replace (existsb (Ascii.eqb sep) chars) with true; [reflexivity|].
    symmetry. apply existsb_exists. exists sep. split; [exact Hsep|].
    apply Ascii.eqb_refl.
  - now rewrite IH.
Qed.

Lemma exactFilename_basename dir sep base :
  In sep (str "\/") -> (forall ch, In ch base -> ~ In ch (str "\/")) ->
  exactFilename (dir ++ sep :: base) = base.
Proof.
  intros Hsep Hbase. unfold exactFilename, substr.
  rewrite (find_last_of_last dir sep base _ Hsep Hbase).
  replace (length dir + 1)%nat with (length (dir ++ [sep]))
    by (rewrite length_app; reflexivity).
  change (sep :: base) with ([sep] ++ base). rewrite app_assoc.
  now rewrite skipn_app, skipn_all, Nat.sub_diag.
Qed.

Lemma exactFilename_plain base :
  (forall ch, In ch base -> ~ In ch (str "\/")) -> exactFilename base = base.
Proof.
  intros Hbase. unfold exactFilename.
  now rewrite (find_last_of_none base _ Hbase).
Qed.


(** ** Nesting in the order of the list and the invariant of the data model *)

Lemma nested_per_invariant_spec tags :
  nested_per_invariant tags = true
  <-> forall a b, In a tags -> In b tags ->
        Tag.pos a < Tag.pos b < tag_end a -> tag_end b <= tag_end a.
Proof.
  unfold nested_per_invariant. rewrite forallb_forall. split.
  - intros H a b Ha Hb Hr. specialize (H a Ha). rewrite forallb_forall in H.
    specialize (H b Hb).
    destruct (Z.ltb_spec (Tag.pos a) (Tag.pos b)); [|lia].
    destruct (Z.ltb_spec (Tag.pos b) (tag_end a)); [|lia].
    cbn in H. lia.
  - intros H a Ha. apply forallb_forall. intros b Hb.
    destruct ((Tag.pos a <? Tag.pos b) && (Tag.pos b <? tag_end a)) eqn:E;
      [|reflexivity].
    cbn [implb]. specialize (H a b Ha Hb). lia.
Qed.

(** A list nested in its own order satisfies the invariant. *)
Lemma well_nested_invariant tags :
  sorted tags = true -> well_nested tags = true ->
  nested_per_invariant tags = true.
Proof.
  intros Hs Hn. pose proof (sorted_nested_pairs tags Hs Hn) as Hord.
  apply nested_per_invariant_spec. intros a b Ha Hb Hr.
  destruct (ForallOrdPairs_In Hord a b Ha Hb) as [->|[[H1 H2]|[H1 H2]]]; lia.
Qed.

(** A sorted list that satisfies the invariant and lists the longest first
    among the tags that start together is nested in its own order. *)
Lemma ties_well_nested tags :
  sorted tags = true -> nested_per_invariant tags = true ->
  ties_longest_first tags = true -> well_nested tags = true.
Proof.
  rewrite nested_per_invariant_spec.
  induction tags as [|t ts IH]; cbn; intros Hs Hinv Hties; [reflexivity|].
  apply andb_true_iff in Hs as [Hs1 Hs2].
  apply andb_true_iff in Hties as [Ht1 Ht2].
  apply andb_true_iff. split.
  - apply forallb_forall. intros u Hu.
    rewrite forallb_forall in Hs1, Ht1.
    specialize (Hs1 u Hu). specialize (Ht1 u Hu).
    specialize (Hinv t u (or_introl eq_refl) (or_intror Hu)).
    unfold tag_end in *.
    destruct (Z.eq_dec (Tag.pos u) (Tag.pos t)) as [E|E].
    + replace (Tag.pos u =? Tag.pos t) with true in Ht1 by lia.
      cbn [negb orb] in Ht1. apply orb_true_iff in Ht1. lia.
    + destruct (Z.lt_ge_cases (Tag.pos u) (Tag.pos t + Tag.len t)); lia.
  - apply IH; [exact Hs2| |exact Ht2].
    intros a b Ha Hb. apply Hinv; now right.
Qed.

(** * The claims *)

(** C1, as amended. For a tag list inside the buffer that is sorted by
    start, well-nested (a tag that starts strictly after another starts and
    before it ends, ends at or before its end) and that lists the longest
    first among the tags that start at the same offset, the table written is
    the expected one: for every offset in turn, the close markup of the tags
    whose last byte is just before it, the open markup of the tags that
    start at it, then the byte through the body escaper (a newline as a line
    break). For the buffer [hello] and a [span] over the bytes 1 to 3 the
    table is [h], the open markup, [ell], the close markup, [o]. *)
Theorem tags_rendered_at_their_offsets buf commonLines coveredLines tags :
  sorted tags = true -> nested_per_invariant tags = true ->
  ties_longest_first tags = true ->
  forallb (in_bounds (Z.of_nat (length buf))) tags = true ->
  render buf commonLines coveredLines tags
  = Some (expected tags commonLines coveredLines buf).
Proof.
  intros Hs Hn Ht Hb. apply render_expected. unfold well_formed.
  now rewrite Hs, (ties_well_nested tags Hs Hn Ht), Hb.
Qed.

Lemma scenario_hello_span :
  sorted [span_1_3] = true /\ nested_per_invariant [span_1_3] = true
  /\ ties_longest_first [span_1_3] = true
  /\ forallb (in_bounds (Z.of_nat (length hello))) [span_1_3] = true
  /\ render hello [] [] [span_1_3]
     = Some [TableBegin; RowBegin 1 lightcoral [];
             Lit "h"; Open span_1_3; Lit "e"; Lit "l"; Lit "l";
             Close span_1_3; Lit "o"; RowEnd; TableEnd]
  /\ map contents (bodies (expected [span_1_3] [] [] hello))
     = [str "h<span>ell</span>o"].
Proof.
  split; [reflexivity|]. split; [reflexivity|]. split; [reflexivity|].
  split; [reflexivity|]. split.
  - exact (tags_rendered_at_their_offsets hello [] [] [span_1_3]
             eq_refl eq_refl eq_refl eq_refl).
  - reflexivity.
Defined.

(** C1, as stated, fails. Two tags start at offset 0 of [hello], the one of
    length 2 listed before the one of length 5: the list is sorted by start,
    satisfies the invariant of the data model and lies inside the buffer,
    but the close markup of the shorter tag is written after the last byte
    of the buffer, not after the byte at offset 1. *)
Lemma shorter_tag_listed_first_closes_late :
  sorted [short_0_2; long_0_5] = true
  /\ nested_per_invariant [short_0_2; long_0_5] = true
  /\ ties_longest_first [short_0_2; long_0_5] = false
  /\ forallb (in_bounds (Z.of_nat (length hello))) [short_0_2; long_0_5]
     = true
  /\ render hello [] [] [short_0_2; long_0_5]
     = Some [TableBegin; RowBegin 1 lightcoral [];
             Open short_0_2; Open long_0_5;
             Lit "h"; Lit "e"; Lit "l"; Lit "l"; Lit "o";
             Close long_0_5; Close short_0_2; RowEnd; TableEnd]
  /\ expected [short_0_2; long_0_5] [] [] hello
     = [TableBegin; RowBegin 1 lightcoral [];
        Open short_0_2; Open long_0_5;
        Lit "h"; Lit "e"; Close short_0_2; Lit "l"; Lit "l"; Lit "o";
        Close long_0_5; RowEnd; TableEnd]
  /\ render hello [] [] [short_0_2; long_0_5]
     <> Some (expected [short_0_2; long_0_5] [] [] hello).
Proof.
  split; [reflexivity|]. split; [reflexivity|]. split; [reflexivity|].
  split; [reflexivity|]. split; [reflexivity|]. split; [reflexivity|].
  discriminate.
Qed.

(** C2. In any state, the [switch] on a newline byte writes the bytes kept
    back, the close markup of the tags on the stack from its top (the
    innermost) down, the end of the line container, the beginning of the
    container of the next line number, styled for that number, and the open
    markup of the same tags from the bottom of the stack up; the stack is
    left as it is. In the table written for a tag list sorted by start and
    inside the buffer (nesting is not needed), at the newline that follows
    the bytes [pre] these tags are the tags left open by what was written
    before; every tag whose range contains the newline is among them, so it
    is closed at the end of the line and opened again at the start of the
    next one, and for a well-formed list they are exactly the tags that
    cover the newline. No newline byte of the buffer is written. *)
Theorem newline_closes_and_reopens buf commonLines coveredLines tags pre post :
  placed buf tags = true ->
  buf = pre ++ newline :: post ->
  (forall s,
     deref buf (c s) = Some newline ->
     exists s',
       switch_byte buf commonLines coveredLines s = Some s'
       /\ stack s' = stack s
       /\ line s' = to_unsigned (line s + 1)
       /\ myfile s'
          = written buf s ++ map Close (stack s)
            ++ [RowEnd; row_begin commonLines coveredLines (line s')]
            ++ map Open (rev (stack s)))
  /\ exists out before after open_tags,
       render buf commonLines coveredLines tags = Some out
       /\ out = before
                ++ map Close open_tags
                ++ [RowEnd;
                    row_begin commonLines coveredLines
                      (to_unsigned (line_at pre + 1))]
                ++ map Open (rev open_tags)
                ++ after
       /\ balance [] before = Some open_tags
       /\ length (rows before) = S (length (filter is_newline pre))
       /\ Forall (stackable tags) open_tags
       /\ (forall t, In t tags ->
                     Tag.pos t <= Z.of_nat (length pre) < tag_end t ->
                     In t open_tags)
       /\ (well_formed buf tags = true ->
           open_tags = rev (covering tags (Z.of_nat (length pre))))
       /\ ~ In (Lit newline) out.
Proof.
  intros Hpl Hbuf. split.
  { intros s Hs. unfold switch_byte. rewrite Hs, Ascii.eqb_refl.
    eexists. split; [reflexivity|]. unfold put_newline.
    rewrite flush_eq. cbn. auto. }
  exists (stacked tags commonLines coveredLines buf).
  exists ([TableBegin;
           RowBegin 1 (style_of (find_int commonLines 1))
             (style2_of (find_int coveredLines 1))]
          ++ stacked_steps tags commonLines coveredLines 0 pre 1 []
          ++ map Close (ended (Z.of_nat (length pre))
                          (stack_after tags 0 pre []))
          ++ map Open (opening_at tags (Z.of_nat (length pre)))).
  exists (stacked_steps tags commonLines coveredLines
            (Z.of_nat (length pre) + 1) post
            (line_after newline (line_at pre))
            (opened_stack tags (Z.of_nat (length pre))
               (stack_after tags 0 pre []))
          ++ map Close (ended (Z.of_nat (length buf))
                          (stack_after tags 0 buf []))
          ++ [RowEnd; TableEnd]).
  exists (opened_stack tags (Z.of_nat (length pre))
            (stack_after tags 0 pre [])).
  split; [now apply render_stacked|].
  apply placed_spec in Hpl as [Hs Hb].
  assert (Hst : Forall (stackable tags) (stack_after tags 0 pre []))
    by (apply (stack_after_stackable _ tags Hb); constructor).
  split; [|split; [|split; [|split; [|split; [|split]]]]].
  - rewrite (stacked_at _ _ _ _ _ _ _ Hbuf).
    unfold stacked_byte, stacked_break.
    rewrite Ascii.eqb_refl. now rewrite <- !app_assoc.
  - cbn [app balance].
    rewrite balance_app,
      (balance_stacked_steps _ tags commonLines coveredLines Hb)
      by constructor.
    rewrite balance_app, balance_ended, balance_opens. reflexivity.
  - cbn [app rows length]. f_equal.
    rewrite !rows_app, rows_closes, rows_opens, !app_nil_r.
    apply rows_steps_length.
  - now apply (opened_stackable _ tags Hb).
  - intros t Ht Hrange. now apply (stack_covers _ tags Hb).
  - intros Hwf. apply well_formed_spec in Hwf as [Ho _].
    pose proof (stack_after_nested _ tags Ho Hb pre 0) as Hafter.
    rewrite (arriving_start _ tags Hb) in Hafter.
    cbn [rev Z.add] in Hafter.
    now rewrite Hafter, (opened_arriving _ tags Ho Hb), arriving_next.
  - apply no_literal_newline.
Qed.

Lemma scenario_two_lines_span :
  placed two_lines [span_1_3] = true
  /\ two_lines = str "ab" ++ newline :: str "cd"
  /\ exists before after,
       render two_lines [] [] [span_1_3]
       = Some (before
               ++ [Close span_1_3; RowEnd; RowBegin 2 lightcoral [];
                   Open span_1_3]
               ++ after)
       /\ balance [] before = Some [span_1_3].
Proof.
  split; [reflexivity|]. split; [reflexivity|].
  destruct (newline_closes_and_reopens two_lines [] [] [span_1_3]
              (str "ab") (str "cd") eq_refl eq_refl)
    as (_ & out & before & after & open_tags & Hout & Heq & Hbal & _ & _ & _
        & Hcov & _).
  assert (Hopen : open_tags = [span_1_3]).
  { rewrite (Hcov eq_refl). reflexivity. }
  subst open_tags. exists before, after.
  split; [now rewrite Hout, Heq|exact Hbal].
Defined.

(** C3. For a tag list sorted by start and inside the buffer (nesting is
    not needed), the balance check of the written table succeeds with an
    empty stack: every close markup is that of the last tag opened and not
    yet closed, and no tag is open at the end of a line container or of the
    table. At the start of every iteration the stack of the renderer is the
    stack of the tags opened and not yet closed in the stream, the last
    opened on top, so that popping it closes the most recently opened
    one. *)
Theorem markup_balanced buf commonLines coveredLines tags :
  placed buf tags = true ->
  exists out,
    render buf commonLines coveredLines tags = Some out
    /\ balance [] out = Some []
    /\ forall j, (j <= length buf)%nat ->
         exists s,
           iterate buf commonLines coveredLines j
             (initial buf commonLines coveredLines tags) = Some s
           /\ balance [] (myfile s) = Some (stack s).
Proof.
  intros Hpl. exists (stacked tags commonLines coveredLines buf).
  split; [now apply render_stacked|]. split; [now apply balance_stacked|].
  intros j Hj.
  destruct (loop_head buf commonLines coveredLines tags j Hpl Hj)
    as (s & Hit & Hst & _ & Hw).
  exists s. split; [exact Hit|].
  apply placed_spec in Hpl as [_ Hb].
  assert (Hbal : balance [] (written buf s) = Some (stack s)).
  { rewrite Hw, Hst. cbn [app balance].
    apply (balance_stacked_steps _ tags commonLines coveredLines Hb).
    constructor. }
  unfold written in Hbal. rewrite balance_app in Hbal.
  destruct (balance [] (myfile s)) as [st|]; [|discriminate].
  now rewrite balance_lits in Hbal.
Qed.

Lemma balanced_two_lines_span :
  placed two_lines [span_1_3; marker_3] = true
  /\ exists out,
       render two_lines [] [] [span_1_3; marker_3] = Some out
       /\ balance [] out = Some [].
Proof.
  split; [reflexivity|].
  destruct (markup_balanced two_lines [] [] [span_1_3; marker_3] eq_refl)
    as (out & Hout & Hbal & _).
  exists out. split; [exact Hout|exact Hbal].
Defined.

(** C4. The open markup of a tag of length zero is its start tag followed
    by its close markup; that of a tag of nonzero length is the start tag
    alone. A tag of length zero is never on the stack of the renderer, which
    holds the tags that a line break closes and opens again: in the written
    table its open markup stands once for each time the tag is listed, and
    its close markup is never written apart. A tag of nonzero length has
    both its open and its close markup written. *)
Theorem zero_length_tag_self_closed buf commonLines coveredLines tags :
  placed buf tags = true ->
  (forall t, Tag.len t = 0 -> Tag.open t = start_tag t ++ Tag.close t)
  /\ (forall t, Tag.len t <> 0 -> Tag.open t = start_tag t)
  /\ (forall j, (j <= length buf)%nat ->
        exists s,
          iterate buf commonLines coveredLines j
            (initial buf commonLines coveredLines tags) = Some s
          /\ Forall (fun u => Tag.len u <> 0) (stack s))
  /\ exists out,
       render buf commonLines coveredLines tags = Some out
       /\ (forall t,
             Tag.len t = 0 -> 0 <= Tag.pos t < Z.of_nat (length buf) ->
             filter (is_open_of t) out
             = map Open (filter (fun u => Tag.eqb u t) tags))
       /\ (forall t, Tag.len t = 0 -> ~ In (Close t) out)
       /\ (forall t, In t tags -> Tag.len t <> 0 ->
             In (Open t) out /\ In (Close t) out).
Proof.
  intros Hpl. split; [|split; [|split]].
  - intros t Ht. unfold Tag.open, start_tag, Tag.close. rewrite Ht.
    cbn [Z.eqb]. now rewrite <- !app_assoc.
  - intros t Ht. unfold Tag.open, start_tag.
    now destruct (Z.eqb_spec (Tag.len t) 0).
  - intros j Hj.
    destruct (loop_head buf commonLines coveredLines tags j Hpl Hj)
      as (s & Hit & Hst & _).
    exists s. split; [exact Hit|]. rewrite Hst.
    apply placed_spec in Hpl as [_ Hb].
    assert (H : Forall (stackable tags)
                  (stack_after tags 0 (firstn j buf) []))
      by (apply (stack_after_stackable _ tags Hb); constructor).
    apply Forall_forall. intros u Hu. rewrite Forall_forall in H.
    now destruct (H u Hu).
  - exists (stacked tags commonLines coveredLines buf).
    split; [now apply render_stacked|].
    apply placed_spec in Hpl as [_ Hb]. split; [|split].
    + intros t Ht Hpos. now apply (opens_of_stacked _ tags _ _ Hb).
    + intros t Ht H. now apply (close_in_stacked _ tags _ _ Hb) in H.
    + intros t Ht Hlen.
      now apply (open_close_in_stacked _ tags _ _ Hb).
Qed.

Lemma marker_in_two_lines :
  placed two_lines [span_1_3; marker_3] = true
  /\ Tag.open marker_3 = str "<a id='m'></a>"
  /\ exists out,
       render two_lines [] [] [span_1_3; marker_3] = Some out
       /\ filter (is_open_of marker_3) out = [Open marker_3]
       /\ ~ In (Close marker_3) out.
Proof.
  split; [reflexivity|]. split; [reflexivity|].
  destruct (zero_length_tag_self_closed two_lines [] []
              [span_1_3; marker_3] eq_refl)
    as (_ & _ & _ & out & Hout & Hopen & Hclose & _).
  exists out. split; [exact Hout|]. split.
  - apply (Hopen marker_3 eq_refl). split; [discriminate|reflexivity].
  - apply (Hclose marker_3 eq_refl).
Defined.

(** C5. For a buffer rendered without tags, stripping the markup from the
    body of each line container and replacing the five entities by their
    characters gives back the lines of the buffer, one container for each
    line; joined by the newline bytes they are the buffer. *)
Theorem untagged_text_round_trip buf commonLines coveredLines :
  exists out,
    render buf commonLines coveredLines [] = Some out
    /\ map (fun body => unescape (strip_markup (contents body))) (bodies out)
       = split_lines buf
    /\ join_lines (split_lines buf) = buf.
Proof.
  exists (stacked [] commonLines coveredLines buf).
  split; [now apply render_stacked|]. split; [|apply join_split_lines].
  rewrite bodies_stacked, map_map. rewrite <- (map_id (split_lines buf)) at 2.
  apply map_ext. intros text. now rewrite strip_escaped, unescape_escaped.
Qed.

(** C6. Attribute escaping, for a string whose size fits [unsigned],
    replaces each of the five characters by its entity and copies every
    other byte; in the body of the lines every byte of the buffer but the
    newlines is written in turn, the three characters as their entities and
    every other byte as it is. *)
Theorem escaping_of_reserved_characters s os buffer buf commonLines
    coveredLines tags :
  Z.of_nat (length s) < 2 ^ 32 ->
  placed buf tags = true ->
  escapeAttr s buffer = flat_map attr_escape s
  /\ escapeAttr_os os s = os ++ flat_map attr_escape s
  /\ (forall ch, attr_escape ch = [ch]
                 <-> ~ In ch ["<"; ">"; "&"; dquote; squote]%char)
  /\ attr_escape "<" = str "&lt;" /\ attr_escape ">" = str "&gt;"
  /\ attr_escape "&" = str "&amp;" /\ attr_escape dquote = str "&quot;"
  /\ attr_escape squote = str "&apos;"
  /\ (exists out,
        render buf commonLines coveredLines tags = Some out
        /\ filter is_text out
           = map body_escape (filter (fun ch => negb (is_newline ch)) buf))
  /\ (forall ch, body_escape ch = Lit ch <-> ~ In ch ["<"; ">"; "&"]%char)
  /\ body_escape "<" = Ent (str "&lt;") /\ body_escape ">" = Ent (str "&gt;")
  /\ body_escape "&" = Ent (str "&amp;").
Proof.
  intros Hs Hpl.
  split; [unfold escapeAttr; now rewrite scanned_all, escapeAttr_fold|].
  split; [unfold escapeAttr_os; now rewrite scanned_all, escapeAttr_fold|].
  split; [exact attr_escape_plain|].
  do 5 (split; [reflexivity|]).
  split.
  - exists (stacked tags commonLines coveredLines buf).
    split; [now apply render_stacked|apply text_stacked].
  - split; [exact body_escape_plain|]. repeat split.
Qed.

Lemma escaping_sample :
  Z.of_nat (length (str "a<b & 'c'")) < 2 ^ 32
  /\ placed (str "x<y") [] = true
  /\ escapeAttr (str "a<b & 'c'") [] = str "a&lt;b &amp; &apos;c&apos;"
  /\ exists out,
       render (str "x<y") [] [] [] = Some out
       /\ filter is_text out = [Lit "x"; Ent (str "&lt;"); Lit "y"].
Proof.
  split; [reflexivity|]. split; [reflexivity|].
  destruct (escaping_of_reserved_characters (str "a<b & 'c'") [] []
              (str "x<y") [] [] [] eq_refl eq_refl)
    as (Hattr & _ & _ & _ & _ & _ & _ & _ & (out & Hout & Htext) & _).
  split; [exact Hattr|]. exists out. split; [exact Hout|exact Htext].
Defined.

(** C7. Every line container, the first one being begun for line 1 before
    the scan, has the styles that the two searches of the line sets give
    for its own number: one of the two primary styles, and the covered style
    or none. When the line sets hold [int] values and the buffer is shorter
    than [2^31 - 1] bytes, so that the line counter stays in the range where
    [unsigned] and [int] agree, the containers are numbered from 1 on, and
    each has the one primary style if its number is among the common lines
    and the other if it is not, and the covered style exactly when its
    number is among the covered lines. *)
Theorem every_line_styled buf commonLines coveredLines tags :
  placed buf tags = true ->
  exists out first later,
    render buf commonLines coveredLines tags = Some out
    /\ rows out = first :: later
    /\ first = (1, style_of (find_int commonLines 1),
                style2_of (find_int coveredLines 1))
    /\ Forall
         (fun row => row = row_of commonLines coveredLines (fst (fst row)))
         later
    /\ (forall common, style_of common = aquamarine
                       \/ style_of common = lightcoral)
    /\ aquamarine <> lightcoral /\ gold <> []
    /\ (Forall int_range commonLines -> Forall int_range coveredLines ->
        Z.of_nat (length buf) < 2 ^ 31 - 1 ->
        map (fun row => fst (fst row)) (rows out)
        = map Z.of_nat (seq 1 (S (length (filter is_newline buf))))
        /\ Forall (fun row =>
                     (In (fst (fst row)) commonLines ->
                      snd (fst row) = aquamarine)
                     /\ (~ In (fst (fst row)) commonLines ->
                         snd (fst row) = lightcoral)
                     /\ (In (fst (fst row)) coveredLines -> snd row = gold)
                     /\ (~ In (fst (fst row)) coveredLines -> snd row = []))
             (rows out)).
Proof.
  intros Hpl.
  exists (stacked tags commonLines coveredLines buf).
  exists (1, style_of (find_int commonLines 1),
          style2_of (find_int coveredLines 1)).
  exists (rows (stacked_steps tags commonLines coveredLines 0 buf 1 [])).
  split; [now apply render_stacked|].
  split; [apply rows_stacked|]. split; [reflexivity|].
  split; [apply rows_steps_styled|].
  split; [intros [|]; auto|].
  split; [discriminate|]. split; [discriminate|].
  intros Hcommon Hcovered Hlen.
  rewrite rows_stacked, rows_steps by lia. split.
  - cbn [map fst seq]. f_equal. rewrite <- (seq_shift _ 1), !map_map.
    apply map_ext. intros i. cbn [row_of fst]. lia.
  - constructor.
    + cbn [fst snd]. repeat split; intros H.
      * apply find_int_In in H. now rewrite H.
      * rewrite <- find_int_In in H. apply not_true_is_false in H.
        now rewrite H.
      * apply find_int_In in H. now rewrite H.
      * rewrite <- find_int_In in H. apply not_true_is_false in H.
        now rewrite H.
    + apply Forall_forall. intros row Hrow.
      apply in_map_iff in Hrow as (i & <- & Hi). apply in_seq in Hi.
      assert (Hfilter : (length (filter is_newline buf) <= length buf)%nat)
        by apply filter_length_le.
      assert (Hrange : 0 <= 1 + Z.of_nat i < 2 ^ 31) by lia.
      unfold row_of. cbn [fst snd]. repeat split; intros H.
      * apply (find_unsigned_In _ _ Hcommon Hrange) in H. now rewrite H.
      * rewrite <- (find_unsigned_In _ _ Hcommon Hrange) in H.
        apply not_true_is_false in H. now rewrite H.
      * apply (find_unsigned_In _ _ Hcovered Hrange) in H. now rewrite H.
      * rewrite <- (find_unsigned_In _ _ Hcovered Hrange) in H.
        apply not_true_is_false in H. now rewrite H.
Qed.

Lemma scenario_common_2_covered_1 :
  placed two_lines [] = true
  /\ Forall int_range [2] /\ Forall int_range [1]
  /\ Z.of_nat (length two_lines) < 2 ^ 31 - 1
  /\ exists out,
       render two_lines [2] [1] [] = Some out
       /\ map (fun row => fst (fst row)) (rows out) = [1; 2]
       /\ rows out = [(1, lightcoral, gold); (2, aquamarine, [])].
Proof.
  split; [reflexivity|].
  assert (H2 : Forall int_range [2])
    by (repeat constructor; discriminate).
  assert (H1 : Forall int_range [1])
    by (repeat constructor; discriminate).
  split; [exact H2|]. split; [exact H1|]. split; [reflexivity|].
  destruct (every_line_styled two_lines [2] [1] [] eq_refl)
    as (out & first & later & Hout & _ & _ & _ & _ & _ & _ & Hranged).
  destruct (Hranged H2 H1 eq_refl) as [Hnumbers _].
  exists out. split; [exact Hout|]. split; [exact Hnumbers|].
  assert (E : Some out = Some (stacked [] [2] [1] two_lines))
    by (rewrite <- Hout; reflexivity).
  injection E as ->. reflexivity.
Defined.

(** C8. Reading the line numbers from a file that does not exist or is
    empty leaves the collection as it was, so empty when it was empty, and
    nothing fails; with both annotation files missing or empty the table is
    rendered with empty line sets. *)
Theorem missing_or_empty_annotations (fs : filesystem) filename buf tags :
  (fs (exactFilename filename ++ str ".common") = None
   \/ fs (exactFilename filename ++ str ".common") = Some []) ->
  (fs (exactFilename filename ++ str ".coverage") = None
   \/ fs (exactFilename filename ++ str ".coverage") = Some []) ->
  getCommonLines fs [] (exactFilename filename ++ str ".common") = []
  /\ getCoveredLines fs [] (exactFilename filename ++ str ".coverage") = []
  /\ (forall lines,
        getCommonLines fs lines (exactFilename filename ++ str ".common")
        = lines)
  /\ (forall lines,
        getCoveredLines fs lines (exactFilename filename ++ str ".coverage")
        = lines)
  /\ generate fs filename buf tags = render buf [] [] tags.
Proof.
  intros Hcommon Hcovered.
  split; [now apply getCommonLines_absent|].
  split; [now apply getCoveredLines_absent|].
  split; [intros lines; now apply getCommonLines_absent|].
  split; [intros lines; now apply getCoveredLines_absent|].
  unfold generate.
  now rewrite getCommonLines_absent, getCoveredLines_absent.
Qed.

Lemma scenario_no_annotation_files :
  (no_files (exactFilename (str "src/main.cpp") ++ str ".common") = None
   \/ no_files (exactFilename (str "src/main.cpp") ++ str ".common")
      = Some [])
  /\ getCommonLines no_files []
       (exactFilename (str "src/main.cpp") ++ str ".common") = []
  /\ generate no_files (str "src/main.cpp") two_lines []
     = render two_lines [] [] [].
Proof.
  split; [left; reflexivity|].
  destruct (missing_or_empty_annotations no_files (str "src/main.cpp")
              two_lines [] (or_introl eq_refl) (or_introl eq_refl))
    as (Hcommon & _ & _ & _ & Hgen).
  split; [exact Hcommon|exact Hgen].
Defined.

(** C9. The annotation files are named after the part of the file name
    that follows its last slash or backslash, with [.common] and
    [.coverage] appended: the table depends on the file system through
    these two names only, and is the same for every directory put before
    the same base name. *)
Theorem sidecars_named_after_basename (fs fs' : filesystem) dir dir' sep sep'
    base buf tags :
  In sep (str "\/") -> In sep' (str "\/") ->
  (forall ch, In ch base -> ~ In ch (str "\/")) ->
  exactFilename (dir ++ sep :: base) = base
  /\ exactFilename base = base
  /\ generate fs (dir ++ sep :: base) buf tags
     = render buf (getCommonLines fs [] (base ++ str ".common"))
         (getCoveredLines fs [] (base ++ str ".coverage")) tags
  /\ generate fs (dir ++ sep :: base) buf tags
     = generate fs (dir' ++ sep' :: base) buf tags
  /\ (fs (base ++ str ".common") = fs' (base ++ str ".common") ->
      fs (base ++ str ".coverage") = fs' (base ++ str ".coverage") ->
      generate fs (dir ++ sep :: base) buf tags
      = generate fs' (dir ++ sep :: base) buf tags).
Proof.
  intros Hsep Hsep' Hbase.
  pose proof (exactFilename_basename dir sep base Hsep Hbase) as E.
  pose proof (exactFilename_basename dir' sep' base Hsep' Hbase) as E'.
  split; [exact E|]. split; [now apply exactFilename_plain|].
  unfold generate. rewrite E, E'. split; [reflexivity|].
  split; [reflexivity|].
  intros Hc Hv. unfold getCommonLines, getCoveredLines. now rewrite Hc, Hv.
Qed.

Lemma same_basename_same_sidecars :
  In "/"%char (str "\/") /\ In "\"%char (str "\/")
  /\ exactFilename (str "src/gen" ++ "/"%char :: str "main.cpp")
     = str "main.cpp"
  /\ generate no_files (str "src/gen" ++ "/"%char :: str "main.cpp")
       two_lines []
     = generate no_files (str "other" ++ "\"%char :: str "main.cpp")
         two_lines [].
Proof.
  assert (H1 : In "/"%char (str "\/")) by (right; left; reflexivity).
  assert (H2 : In "\"%char (str "\/")) by (left; reflexivity).
  assert (H3 : forall ch, In ch (str "main.cpp") -> ~ In ch (str "\/")).
  { intros ch Hch Hsep. cbn in Hch, Hsep.
    destruct Hsep as [<-|[<-|[]]];
      repeat (destruct Hch as [Hch|Hch]; [discriminate Hch|]);
      destruct Hch. }
  split; [exact H1|]. split; [exact H2|].
  destruct (sidecars_named_after_basename no_files no_files (str "src/gen")
              (str "other") "/"%char "\"%char (str "main.cpp") two_lines []
              H1 H2 H3)
    as (Hexact & _ & _ & Hsame & Hnames).
  pose proof (Hnames eq_refl eq_refl) as _.
  split; [exact Hexact|exact Hsame].
Defined.

(** C10. One line container is written for the start of the buffer and one
    for each newline byte, and nothing else ends a line: the bytes copied
    into the bodies as they are, are the bytes of the buffer other than the
    newline and the three escaped characters, in their order; the carriage
    return is one of them. *)
Theorem newline_alone_ends_a_line buf commonLines coveredLines tags :
  placed buf tags = true ->
  exists out,
    render buf commonLines coveredLines tags = Some out
    /\ length (rows out) = S (length (filter is_newline buf))
    /\ length (bodies out) = S (length (filter is_newline buf))
    /\ flat_map literal out = filter is_plain buf
    /\ (forall ch, is_newline ch = true <-> ch = "010"%char)
    /\ (forall ch, is_plain ch = true
                   <-> ~ In ch [newline; "&"; "<"; ">"]%char)
    /\ is_plain "013"%char = true.
Proof.
  intros Hpl. exists (stacked tags commonLines coveredLines buf).
  split; [now apply render_stacked|].
  assert (Hrows : length (rows (stacked tags commonLines coveredLines buf))
                  = S (length (filter is_newline buf))).
  { rewrite rows_stacked. cbn [length]. f_equal. apply rows_steps_length. }
  split; [exact Hrows|]. split; [now rewrite bodies_rows|].
  split; [apply literal_stacked|].
  split; [intros ch; apply Ascii.eqb_eq|].
  split; [exact is_plain_spec|reflexivity].
Qed.

Lemma carriage_return_kept :
  placed (str "a" ++ ["013"%char; newline] ++ str "b") [] = true
  /\ exists out,
       render (str "a" ++ ["013"%char; newline] ++ str "b") [] [] [] = Some out
       /\ length (rows out) = 2%nat
       /\ flat_map literal out = ["a"%char; "013"%char; "b"%char].
Proof.
  split; [reflexivity|].
  destruct (newline_alone_ends_a_line
              (str "a" ++ ["013"%char; newline] ++ str "b") [] [] [] eq_refl)
    as (out & Hout & Hrows & _ & Hlit & _).
  exists out. split; [exact Hout|]. split; [exact Hrows|exact Hlit].
Defined.

(** * More of the generator *)

(** ** Escaping of file names *)

Lemma escapeAttrForFilename_fold s : forall buffer,
  fold_left escapeAttrForFilename_switch s buffer
  = buffer ++ map colon_to_dot s.
Proof.
  induction s as [|ch s IH]; intros buffer; cbn [fold_left map].
  - now rewrite app_nil_r.
  - rewrite IH. unfold escapeAttrForFilename_switch, colon_to_dot.
    destruct (ch =? ":")%char; now rewrite <- app_assoc.
Qed.

Lemma escapeAttrForFilename_map s buffer :
  escapeAttrForFilename s buffer = map colon_to_dot (scanned s).
Proof.
  unfold escapeAttrForFilename. now rewrite escapeAttrForFilename_fold.
Qed.

Lemma colon_to_dot_colon ch : colon_to_dot ch <> ":"%char.
Proof.
  unfold colon_to_dot. destruct (Ascii.eqb_spec ch ":"); [discriminate|easy].
Qed.

Lemma colon_to_dot_twice ch : colon_to_dot (colon_to_dot ch) = colon_to_dot ch.
Proof.
  unfold colon_to_dot. destruct (Ascii.eqb_spec ch ":") as [->|Hne].
  - reflexivity.
  - now destruct (Ascii.eqb_spec ch ":").
Qed.

Lemma colon_to_dot_plain s : map colon_to_dot s = s <-> ~ In ":"%char s.
Proof.
  induction s as [|ch s IH]; cbn [map In]; [tauto|]. split.
  - intros E. injection E as E1 E2. intros [H|H].
    + subst ch. discriminate E1.
    + now apply IH.
  - intros H. f_equal.
    + unfold colon_to_dot. destruct (Ascii.eqb_spec ch ":"); [|reflexivity].
      subst ch. tauto.
    + apply IH. tauto.
Qed.

Lemma scanned_length s :
  Z.of_nat (length (scanned s)) < 2 ^ 32.
Proof.
  unfold scanned, to_unsigned. rewrite length_firstn.
  pose proof (Z.mod_pos_bound (Z.of_nat (length s)) (2 ^ 32) eq_refl). lia.
Qed.


(** ** Escaping of attribute text, continued *)

Lemma escapeAttr_flat_map s buffer :
  escapeAttr s buffer = flat_map attr_escape (scanned s).
Proof. unfold escapeAttr. now rewrite escapeAttr_fold. Qed.

Lemma escapeAttr_os_flat_map os s :
  escapeAttr_os os s = os ++ flat_map attr_escape (scanned s).
Proof. unfold escapeAttr_os. now rewrite escapeAttr_fold. Qed.

(** The five entities, and the bytes that are not replaced. *)
Lemma attr_escape_cases ch :
  (attr_escape ch = [ch] /\ is_reserved ch = false)
  \/ (ch = "<"%char /\ attr_escape ch = str "&lt;")
  \/ (ch = ">"%char /\ attr_escape ch = str "&gt;")
  \/ (ch = "&"%char /\ attr_escape ch = str "&amp;")
  \/ (ch = dquote /\ attr_escape ch = str "&quot;")
  \/ (ch = squote /\ attr_escape ch = str "&apos;").
Proof.
  unfold attr_escape, attr_entity, is_reserved.
  destruct (Ascii.eqb_spec ch "<") as [->|?]; [now (right; left)|].
  destruct (Ascii.eqb_spec ch ">") as [->|?]; [now (right; right; left)|].
  destruct (Ascii.eqb_spec ch "&") as [->|?];
    [now (right; right; right; left)|].
  destruct (Ascii.eqb_spec ch dquote) as [->|?];
    [now (right; right; right; right; left)|].
  destruct (Ascii.eqb_spec ch squote) as [->|?];
    [now (right; right; right; right; right)|].
  now left.
Qed.

Lemma is_reserved_spec ch :
  is_reserved ch = true <-> In ch ["<"; ">"; "&"; dquote; squote]%char.
Proof.
  unfold is_reserved. cbn [In]. rewrite !orb_true_iff, !Ascii.eqb_eq.
  intuition congruence.
Qed.

Ltac attr_cases ch :=
  destruct (attr_escape_cases ch)
    as [[? ?]|[[-> ?]|[[-> ?]|[[-> ?]|[[-> ?]|[-> ?]]]]]].

Lemma attr_escape_markup_free ch : Forall markup_free (attr_escape ch).
Proof.
  attr_cases ch; rewrite H;
    [|repeat constructor; cbn [In]; intros Hin;
      repeat destruct Hin as [Hin|Hin]; try discriminate Hin; easy ..].
  constructor; [|constructor]. intros Hin.
  assert (Hr : is_reserved ch = true).
  { apply is_reserved_spec. cbn [In] in *. intuition. }
  congruence.
Qed.

Lemma flat_map_attr_escape_markup_free s :
  Forall markup_free (flat_map attr_escape s).
Proof.
  induction s as [|ch s IH]; cbn [flat_map]; [constructor|].
  apply Forall_app. split; [apply attr_escape_markup_free|exact IH].
Qed.

(** An ampersand of an escaped byte is the first byte of an entity. *)
Lemma attr_escape_ampersand ch pre post rest :
  attr_escape ch = pre ++ "&"%char :: post ->
  pre = [] /\ entity_at ("&"%char :: post ++ rest) <> None.
Proof.
  attr_cases ch; rewrite H; intros E;
    [|destruct pre as [|p pre];
      [injection E as <-; split; [easy|discriminate]|];
      exfalso; injection E as _ E;
      repeat (destruct pre as [|? pre];
              [discriminate E|injection E as _ E]);
      now destruct pre ..].
  destruct pre as [|p pre].
  - injection E as E _. subst ch. discriminate H0.
  - injection E as _ E. now destruct pre.
Qed.

Lemma flat_map_attr_escape_ampersand s : forall pre post,
  flat_map attr_escape s = pre ++ "&"%char :: post ->
  entity_at ("&"%char :: post) <> None.
Proof.
  induction s as [|ch s IH]; intros pre post E; cbn [flat_map] in E.
  - now destruct pre.
  - apply app_eq_app in E as (l & [[E1 E2]|[E1 E2]]).
    + destruct l as [|x l].
      * cbn [app] in E2. apply (IH [] post). now rewrite <- E2.
      * injection E2 as <- E2. subst post.
        now destruct (attr_escape_ampersand ch pre l
                        (flat_map attr_escape s) E1).
    + apply (IH l post). exact E2.
Qed.

(** Un-escaping what was escaped. *)
Lemma unescape_attr_escape ch rest :
  unescape_from O (attr_escape ch ++ rest) = ch :: unescape_from O rest.
Proof.
  attr_cases ch; rewrite H; try reflexivity.
  cbn [app unescape_from]. rewrite entity_at_plain; [reflexivity|].
  unfold is_reserved in H0. rewrite !orb_false_iff in H0. tauto.
Qed.

Lemma unescape_flat_map_attr_escape s :
  unescape (flat_map attr_escape s) = s.
Proof.
  unfold unescape. induction s as [|ch s IH]; [reflexivity|].
  cbn [flat_map]. now rewrite unescape_attr_escape, IH.
Qed.

Lemma attr_escape_length ch :
  (length (attr_escape ch)
   = 1 + escape_growth [ch])%nat.
Proof.
  attr_cases ch; rewrite H; try reflexivity.
  unfold escape_growth. cbn [filter length].
  unfold is_reserved in H0. rewrite !orb_false_iff in H0.
  destruct H0 as ((((-> & ->) & ->) & ->) & ->). reflexivity.
Qed.

Lemma escape_growth_cons ch s :
  escape_growth (ch :: s) = (escape_growth [ch] + escape_growth s)%nat.
Proof.
  unfold escape_growth. cbn [filter].
  destruct ((ch =? "<")%char || (ch =? ">")%char);
    destruct (ch =? "&")%char;
    destruct ((ch =? dquote)%char || (ch =? squote)%char);
    cbn [length]; lia.
Qed.

Lemma flat_map_attr_escape_length s :
  length (flat_map attr_escape s) = (length s + escape_growth s)%nat.
Proof.
  induction s as [|ch s IH]; [reflexivity|].
  cbn [flat_map]. rewrite length_app, attr_escape_length, IH.
  rewrite (escape_growth_cons ch s). cbn [length]. lia.
Qed.

Lemma escape_growth_bound s : (escape_growth s <= 5 * length s)%nat.
Proof.
  induction s as [|ch s IH]; [cbn; lia|].
  rewrite escape_growth_cons. cbn [length].
  assert (escape_growth [ch] <= 5)%nat; [|lia].
  pose proof (attr_escape_length ch) as Hl.
  remember (escape_growth [ch]) as g eqn:Hg. clear Hg.
  attr_cases ch; rewrite H in Hl; cbn in Hl; lia.
Qed.

Lemma escape_growth_zero s :
  escape_growth s = O <-> forallb (fun ch => negb (is_reserved ch)) s = true.
Proof.
  induction s as [|ch s IH]; [cbn; tauto|].
  rewrite escape_growth_cons. cbn [forallb]. rewrite andb_true_iff, <- IH.
  pose proof (attr_escape_length ch) as Hl.
  remember (escape_growth [ch]) as g eqn:Hg. clear Hg.
  attr_cases ch; rewrite H in Hl; cbn in Hl.
  - rewrite H0. cbn [negb]. lia.
  - cbn. lia.
  - cbn. lia.
  - cbn. lia.
  - cbn. lia.
  - cbn. lia.
Qed.

Lemma flat_map_attr_escape_plain s :
  flat_map attr_escape s = s
  <-> forallb (fun ch => negb (is_reserved ch)) s = true.
Proof.
  split.
  - intros E. apply escape_growth_zero.
    pose proof (flat_map_attr_escape_length s) as Hl. rewrite E in Hl. lia.
  - induction s as [|ch s IH]; [reflexivity|]. cbn [forallb flat_map].
    rewrite andb_true_iff, negb_true_iff. intros [Hch Hs].
    rewrite (IH Hs). attr_cases ch; rewrite H; try discriminate Hch.
    reflexivity.
Qed.

(** The escaped text has a reserved character as soon as the text has
    one. *)
Lemma flat_map_attr_escape_reserved s :
  forallb (fun ch => negb (is_reserved ch)) (flat_map attr_escape s) = true
  -> forallb (fun ch => negb (is_reserved ch)) s = true.
Proof.
  induction s as [|ch s IH]; [reflexivity|]. cbn [flat_map forallb].
  rewrite forallb_app, !andb_true_iff. intros [Hch Hs].
  split; [|now apply IH].
  attr_cases ch; rewrite H in Hch; try discriminate Hch.
  now rewrite H0.
Qed.

(** In a text without quotes the body escaper writes what attribute
    escaping gives. *)
Lemma body_escape_attr_escape text :
  forallb (fun ch => negb (is_quote ch)) text = true ->
  contents (map body_escape text) = flat_map attr_escape text.
Proof.
  unfold contents. induction text as [|ch text IH]; [reflexivity|].
  cbn [forallb map flat_map]. rewrite andb_true_iff, negb_true_iff.
  intros [Hch Htext]. rewrite (IH Htext). f_equal.
  unfold is_quote in Hch. rewrite orb_false_iff in Hch.
  destruct Hch as [Hd Hs].
  unfold body_escape, attr_escape, attr_entity.
  destruct (ch =? "&")%char eqn:Ea.
  - apply Ascii.eqb_eq in Ea. subst ch. reflexivity.
  - destruct (ch =? "<")%char; [reflexivity|].
    destruct (ch =? ">")%char; [reflexivity|].
    now rewrite Hd, Hs.
Qed.

(** ** Reading the numbers that were written *)

Lemma extract_all_app fuel : forall s lines,
  extract_all fuel s lines = lines ++ extract_all fuel s [].
Proof.
  induction fuel as [|fuel IH]; intros s lines; cbn [extract_all].
  - now rewrite app_nil_r.
  - destruct (extract_int s) as [[a rest]|]; [|now rewrite app_nil_r].
    rewrite (IH rest (lines ++ [a])), (IH rest ([] ++ [a])).
    now rewrite <- app_assoc.
Qed.

Lemma extract_int_range s a rest :
  extract_int s = Some (a, rest) -> int_range a.
Proof.
  unfold extract_int. destruct (skipws s) as [|ch s']; [discriminate|].
  destruct (if (ch =? "-")%char then (true, s')
            else if (ch =? "+")%char then (false, s') else (false, ch :: s'))
    as [negative body].
  destruct body as [|d body']; [discriminate|].
  destruct (digit_of d); [|discriminate].
  destruct (digits 0 (d :: body')) as [v rest'].
  destruct (int_rangeb (if negative then - v else v)) eqn:E; [|discriminate].
  intros H. injection H as <- _. unfold int_rangeb in E. unfold int_range.
  apply andb_true_iff in E as [E1 E2]. lia.
Qed.

Lemma extract_all_range fuel : forall s,
  Forall int_range (extract_all fuel s []).
Proof.
  induction fuel as [|fuel IH]; intros s; cbn [extract_all]; [constructor|].
  destruct (extract_int s) as [[a rest]|] eqn:E; [|constructor].
  rewrite extract_all_app. cbn [app]. constructor; [|apply IH].
  exact (extract_int_range s a rest E).
Qed.

Lemma getCommonLines_app fs lines filename :
  getCommonLines fs lines filename
  = lines ++ getCommonLines fs [] filename.
Proof.
  unfold getCommonLines. destruct (fs filename) as [content|].
  - apply extract_all_app.
  - now rewrite app_nil_r.
Qed.

Lemma getCommonLines_range fs filename :
  Forall int_range (getCommonLines fs [] filename).
Proof.
  unfold getCommonLines. destruct (fs filename) as [content|]; [|constructor].
  apply extract_all_range.
Qed.

(** The digits of a decimal numeral are read back by [digits]. *)
Lemma digits_uint_acc d : forall acc rest,
  digits (Z.pos acc) (str (NilEmpty.string_of_uint d) ++ rest)
  = digits (Z.pos (Pos.of_uint_acc d acc)) rest.
Proof.
  induction d; intros acc rest; [reflexivity|..];
    cbn [NilEmpty.string_of_uint str list_ascii_of_string app digits
         Pos.of_uint_acc];
    match goal with
    | |- context [digit_of ?ch] =>
        let v := eval vm_compute in (digit_of ch) in
        change (digit_of ch) with v
    end;
    cbv iota; unfold str in IHd; rewrite <- IHd; f_equal; lia.
Qed.

Lemma digits_uint d : forall rest,
  digits 0 (str (NilEmpty.string_of_uint d) ++ rest)
  = digits (Z.of_N (Pos.of_uint d)) rest.
Proof.
  induction d; intros rest; [reflexivity|..];
    cbn [NilEmpty.string_of_uint str list_ascii_of_string app digits
         Pos.of_uint];
    match goal with
    | |- context [digit_of ?ch] =>
        let v := eval vm_compute in (digit_of ch) in
        change (digit_of ch) with v
    end;
    cbv iota; [exact (IHd rest)|..];
    cbn [Z.mul Z.add Z.of_N];
    exact (digits_uint_acc d _ rest).
Qed.

Lemma string_of_uint_nonnil p :
  NilZero.string_of_uint (Pos.to_uint p)
  = NilEmpty.string_of_uint (Pos.to_uint p).
Proof.
  pose proof (Unsigned.to_uint_nonnil p) as H.
  now destruct (Pos.to_uint p).
Qed.

Lemma dec_digits a rest :
  0 <= a -> digits 0 (dec a ++ rest) = digits a rest.
Proof.
  intros Ha. unfold dec. destruct a as [|p|p]; [reflexivity| |lia].
  cbn [Z.to_int NilZero.string_of_int].
  rewrite string_of_uint_nonnil, digits_uint.
  now rewrite DecimalPos.Unsigned.of_to.
Qed.

Lemma dec_negative a : a < 0 -> dec a = "-"%char :: dec (- a).
Proof. intros Ha. destruct a as [|p|p]; [lia|lia|reflexivity]. Qed.

(** The first byte of the digits of a number. *)
Lemma dec_head a :
  0 <= a -> exists ch tl, dec a = ch :: tl /\ digit_of ch <> None.
Proof.
  intros Ha. unfold dec. destruct a as [|p|p]; [| |lia].
  - exists "0"%char, []. split; [reflexivity|discriminate].
  - cbn [Z.to_int NilZero.string_of_int]. rewrite string_of_uint_nonnil.
    pose proof (Unsigned.to_uint_nonnil p) as H.
    destruct (Pos.to_uint p); [contradiction|..];
      cbn [NilEmpty.string_of_uint str list_ascii_of_string];
      eexists; eexists; (split; [reflexivity|discriminate]).
Qed.

Lemma digit_not_space ch :
  digit_of ch <> None ->
  isspace ch = false /\ (ch =? "-")%char = false /\ (ch =? "+")%char = false.
Proof.
  unfold digit_of, isspace. intros H.
  destruct (Z.leb_spec 48 (Z.of_nat (nat_of_ascii ch))) as [H1|H1];
    [|now cbn in H].
  split; [|split].
  - apply orb_false_iff. split.
    + apply Nat.eqb_neq. lia.
    + apply andb_false_iff. right. apply Nat.leb_gt. lia.
  - destruct (Ascii.eqb_spec ch "-") as [->|_]; [|reflexivity].
    cbn in H1. lia.
  - destruct (Ascii.eqb_spec ch "+") as [->|_]; [|reflexivity].
    cbn in H1. lia.
Qed.

Lemma space_not_digit ch : isspace ch = true -> digit_of ch = None.
Proof.
  intros H. destruct (digit_of ch) eqn:E; [|reflexivity].
  destruct (digit_not_space ch) as [H1 _]; congruence.
Qed.

Lemma digits_ge s : forall acc, 0 <= acc -> acc <= fst (digits acc s).
Proof.
  induction s as [|ch s IH]; intros acc Hacc; cbn [digits fst]; [lia|].
  destruct (digit_of ch) as [d|] eqn:E; [|cbn; lia].
  unfold digit_of in E.
  destruct ((48 <=? Z.of_nat (nat_of_ascii ch))
            && (Z.of_nat (nat_of_ascii ch) <=? 57)) eqn:E1; [|discriminate].
  injection E as <-. apply andb_true_iff in E1 as [E1 _].
  specialize (IH (10 * acc + (Z.of_nat (nat_of_ascii ch) - 48))). lia.
Qed.

(** Reading the number [a] that a white space follows. *)
Lemma extract_int_dec a w tail :
  int_range a -> isspace w = true ->
  extract_int (dec a ++ w :: tail) = Some (a, w :: tail).
Proof.
  intros Ha Hw. unfold extract_int.
  assert (Hstop : forall acc, digits acc (w :: tail) = (acc, w :: tail)).
  { intros acc. cbn [digits]. now rewrite (space_not_digit w Hw). }
  assert (Hrange : int_rangeb a = true).
  { unfold int_rangeb, int_range in *. apply andb_true_iff. lia. }
  destruct (Z.neg_nonneg_cases a) as [Hneg|Hpos].
  - rewrite (dec_negative a Hneg). cbn [app skipws isspace].
    change (isspace "-") with false. cbv iota.
    rewrite Ascii.eqb_refl.
    destruct (dec_head (- a)) as (ch & tl & E & Hd); [lia|].
    pose proof (dec_digits (- a) (w :: tail)) as Hdigits.
    rewrite E in *. cbn [app] in *.
    destruct (digit_of ch); [|contradiction].
    rewrite Hdigits, Hstop by lia.
    replace (- - a) with a by lia. now rewrite Hrange.
  - destruct (dec_head a Hpos) as (ch & tl & E & Hd).
    pose proof (dec_digits a (w :: tail) Hpos) as Hdigits.
    destruct (digit_not_space ch Hd) as (Hs & Hm & Hp).
    rewrite E in *. cbn [app skipws] in *. rewrite Hs, Hm, Hp.
    destruct (digit_of ch); [|contradiction].
    rewrite Hdigits, Hstop. now rewrite Hrange.
Qed.

(** A number outside the range of [int] is not read. *)
Lemma extract_int_overflow a tail :
  ~ int_range a -> extract_int (dec a ++ tail) = None.
Proof.
  intros Ha. unfold extract_int, int_range in *.
  destruct (Z.neg_nonneg_cases a) as [Hneg|Hpos].
  - rewrite (dec_negative a Hneg). cbn [app skipws isspace].
    change (isspace "-") with false. cbv iota.
    rewrite Ascii.eqb_refl.
    destruct (dec_head (- a)) as (ch & tl & E & Hd); [lia|].
    pose proof (dec_digits (- a) tail) as Hdigits.
    pose proof (digits_ge tail (- a)) as Hge.
    rewrite E in *. cbn [app] in *.
    destruct (digit_of ch); [|contradiction].
    rewrite Hdigits by lia.
    destruct (digits (- a) tail) as [v rest]. cbn [fst] in Hge.
    unfold int_rangeb.
    destruct (Z.leb_spec (- 2 ^ 31) (- v)); [lia|reflexivity].
  - destruct (dec_head a Hpos) as (ch & tl & E & Hd).
    pose proof (dec_digits a tail Hpos) as Hdigits.
    pose proof (digits_ge tail a Hpos) as Hge.
    destruct (digit_not_space ch Hd) as (Hs & Hm & Hp).
    rewrite E in *. cbn [app skipws] in *. rewrite Hs, Hm, Hp.
    destruct (digit_of ch); [|contradiction].
    rewrite Hdigits. destruct (digits a tail) as [v rest]. cbn [fst] in Hge.
    unfold int_rangeb.
    destruct (Z.ltb_spec v (2 ^ 31)); [lia|].
    now rewrite andb_false_r.
Qed.

Lemma skipws_spaces ws s :
  forallb isspace ws = true -> skipws (ws ++ s) = skipws s.
Proof.
  induction ws as [|w ws IH]; [reflexivity|]. cbn [forallb app skipws].
  rewrite andb_true_iff. intros [-> H]. now apply IH.
Qed.

Lemma extract_int_spaces ws s :
  forallb isspace ws = true -> extract_int (ws ++ s) = extract_int s.
Proof. intros H. unfold extract_int. now rewrite skipws_spaces. Qed.

Lemma extract_all_spaces fuel ws s lines :
  forallb isspace ws = true ->
  extract_all fuel (ws ++ s) lines = extract_all fuel s lines.
Proof.
  intros H. destruct fuel; [reflexivity|]. cbn [extract_all].
  now rewrite extract_int_spaces.
Qed.

Lemma extract_all_numbers items junk : forall fuel lines,
  Forall (fun item => int_range (fst item) /\ snd item <> []
                      /\ forallb isspace (snd item) = true) items ->
  extract_int junk = None ->
  (length items <= fuel)%nat ->
  extract_all fuel (numbers_file items ++ junk) lines
  = lines ++ map fst items.
Proof.
  induction items as [|[a ws] items IH]; intros fuel lines Hitems Hjunk Hfuel.
  - cbn [numbers_file flat_map app map]. rewrite app_nil_r.
    destruct fuel; [reflexivity|]. cbn [extract_all]. now rewrite Hjunk.
  - inversion Hitems as [|? ? (Ha & Hne & Hws) Hrest]; subst.
    cbn [fst snd] in *. destruct fuel as [|fuel]; [cbn in Hfuel; lia|].
    cbn [length] in Hfuel.
    unfold numbers_file. cbn [flat_map fst snd map].
    fold (numbers_file items). rewrite <- !app_assoc.
    destruct ws as [|w ws']; [contradiction|].
    cbn [forallb] in Hws. apply andb_true_iff in Hws as [Hw Hws'].
    cbn [extract_all]. cbn [app].
    rewrite (extract_int_dec a w _ Ha Hw).
    change (w :: ws' ++ numbers_file items ++ junk)
      with ((w :: ws') ++ numbers_file items ++ junk).
    rewrite extract_all_spaces
      by (cbn [forallb]; now rewrite Hw, Hws').
    rewrite IH by (auto; lia). now rewrite <- app_assoc.
Qed.

Lemma numbers_file_length items :
  Forall (fun item => int_range (fst item) /\ snd item <> []
                      /\ forallb isspace (snd item) = true) items ->
  (length items <= length (numbers_file items))%nat.
Proof.
  induction 1 as [|[a ws] items (_ & Hne & _) _ IH]; [cbn; lia|].
  unfold numbers_file. cbn [flat_map fst snd length].
  fold (numbers_file items). rewrite !length_app.
  destruct ws; [contradiction|]. cbn [length]. lia.
Qed.

Lemma getCommonLines_numbers fs path lines items junk :
  Forall (fun item => int_range (fst item) /\ snd item <> []
                      /\ forallb isspace (snd item) = true) items ->
  extract_int junk = None ->
  fs path = Some (numbers_file items ++ junk) ->
  getCommonLines fs lines path = lines ++ map fst items.
Proof.
  intros Hitems Hjunk Hfs. unfold getCommonLines. rewrite Hfs.
  apply extract_all_numbers; [exact Hitems|exact Hjunk|].
  rewrite length_app. pose proof (numbers_file_length items Hitems). lia.
Qed.

(** ** The base name *)

Lemma find_last_of_absent s chars :
  find_last_of s chars = None -> forall ch, In ch s -> ~ In ch chars.
Proof.
  induction s as [|x s IHs]; [easy|].
  cbn [find_last_of]. destruct (find_last_of s chars); [discriminate|].
  destruct (existsb (Ascii.eqb x) chars) eqn:Ex; [discriminate|].
  intros _ y [<-|Hy] Hin.
  - assert (existsb (Ascii.eqb x) chars = true); [|congruence].
    apply existsb_exists. exists x. split; [exact Hin|apply Ascii.eqb_refl].
  - now apply (IHs eq_refl y).
Qed.

Lemma find_last_of_some s chars : forall i,
  find_last_of s chars = Some i ->
  exists pre sep post,
    s = pre ++ sep :: post /\ length pre = i /\ In sep chars
    /\ forall ch, In ch post -> ~ In ch chars.
Proof.
  induction s as [|ch s IH]; intros i; cbn [find_last_of]; [discriminate|].
  destruct (find_last_of s chars) as [j|] eqn:E.
  - intros H. injection H as <-.
    destruct (IH j eq_refl) as (pre & sep & post & -> & <- & Hsep & Hpost).
    now exists (ch :: pre), sep, post.
  - destruct (existsb (Ascii.eqb ch) chars) eqn:Ech; [|discriminate].
    intros H. injection H as <-.
    apply existsb_exists in Ech as (x & Hx & Ex). apply Ascii.eqb_eq in Ex.
    subst x. exists [], ch, s. repeat split; [exact Hx|].
    exact (find_last_of_absent s chars E).
Qed.

Lemma exactFilename_suffix filename :
  exists dir,
    filename = dir ++ exactFilename filename
    /\ (forall ch, In ch (exactFilename filename) -> ~ In ch (str "\/"))
    /\ (dir = []
        \/ exists dir' sep, dir = dir' ++ [sep] /\ In sep (str "\/")).
Proof.
  unfold exactFilename.
  destruct (find_last_of filename (str "\/")) as [i|] eqn:E.
  - destruct (find_last_of_some _ _ _ E)
      as (pre & sep & post & -> & <- & Hsep & Hpost).
    exists (pre ++ [sep]). unfold substr.
    replace (length pre + 1)%nat with (length (pre ++ [sep]))
      by (rewrite length_app; reflexivity).
    change (sep :: post) with ([sep] ++ post). rewrite app_assoc.
    rewrite skipn_app, skipn_all, Nat.sub_diag. cbn [skipn app].
    split; [reflexivity|]. split; [exact Hpost|].
    right. now exists pre, sep.
  - exists []. split; [reflexivity|].
    split; [exact (find_last_of_absent _ _ E)|now left].
Qed.

(** ** The page header *)

Lemma to_int_small n : - 2 ^ 31 <= n < 2 ^ 31 -> to_int n = n.
Proof. intros H. unfold to_int. rewrite Z.mod_small; lia. Qed.

Lemma climb_repeat n out :
  climb n out = out ++ concat (repeat (str "/..") (Z.to_nat n)).
Proof.
  unfold climb. induction (Z.to_nat n) as [|m IH].
  - cbn. now rewrite app_nil_r.
  - rewrite Nat.iter_succ, IH, <- app_assoc. f_equal.
    clear IH. induction m as [|m IHm]; [reflexivity|].
    cbn [repeat concat] in *. now rewrite <- app_assoc, IHm.
Qed.

Lemma split_absent s sep : ~ In sep s -> split s sep = (s, []).
Proof.
  induction s as [|ch s IH]; intros H; cbn [split]; [reflexivity|].
  destruct (Ascii.eqb_spec ch sep) as [->|_]; [exfalso; apply H; now left|].
  rewrite IH; [reflexivity|]. intros Hin. apply H. now right.
Qed.

Lemma split_first a sep b : ~ In sep a -> split (a ++ sep :: b) sep = (a, b).
Proof.
  induction a as [|ch a IH]; intros H; cbn [app split].
  - now rewrite Ascii.eqb_refl.
  - destruct (Ascii.eqb_spec ch sep) as [->|_]; [exfalso; apply H; now left|].
    rewrite IH; [reflexivity|]. intros Hin. apply H. now right.
Qed.

Lemma filter_absent (f : ascii -> bool) s :
  (forall ch, In ch s -> f ch = false) -> filter f s = [].
Proof.
  induction s as [|ch s IH]; intros H; [reflexivity|]. cbn [filter].
  rewrite (H ch (or_introl eq_refl)). apply IH. intros x Hx. apply H.
  now right.
Qed.

Lemma slashes_absent s :
  ~ In "/"%char s -> filter (fun ch => (ch =? "/")%char) s = [].
Proof.
  intros H. apply filter_absent. intros ch Hch.
  destruct (Ascii.eqb_spec ch "/") as [->|_]; [contradiction|reflexivity].
Qed.

Lemma slashes_path dirs base :
  Forall (fun d => ~ In "/"%char d) dirs -> ~ In "/"%char base ->
  length (filter (fun ch => (ch =? "/")%char) (path dirs base)) = length dirs.
Proof.
  intros Hdirs Hbase. unfold path. rewrite filter_app, length_app.
  rewrite (slashes_absent base Hbase). cbn [length]. rewrite Nat.add_0_r.
  induction Hdirs as [|d dirs Hd _ IH]; [reflexivity|].
  cbn [flat_map]. rewrite !filter_app, !length_app, IH.
  rewrite (slashes_absent d Hd). reflexivity.
Qed.

Lemma count_path dirs base :
  Forall (fun d => ~ In "/"%char d) dirs -> ~ In "/"%char base ->
  Z.of_nat (length dirs) < 2 ^ 31 ->
  count (path dirs base) = Z.of_nat (length dirs).
Proof.
  intros Hdirs Hbase Hlen. unfold count.
  rewrite (slashes_path dirs base Hdirs Hbase). apply to_int_small. lia.
Qed.

Lemma path_snoc dirs last base :
  path (dirs ++ [last]) base = path dirs (last ++ "/"%char :: base).
Proof.
  unfold path. rewrite flat_map_app. cbn [flat_map].
  now rewrite app_nil_r, <- !app_assoc.
Qed.

Lemma breadcrumb_while_crumbs dirs : forall count i rest myfile,
  Forall (fun d => ~ In "/"%char d) dirs ->
  count = i + 1 + Z.of_nat (length dirs) ->
  breadcrumb_while (length dirs) count i (path dirs rest) myfile
  = (rest, myfile ++ crumbs dirs).
Proof.
  induction dirs as [|d dirs IH]; intros count i rest myfile Hdirs Hcount.
  - cbn [length breadcrumb_while crumbs path flat_map app].
    now rewrite app_nil_r.
  - inversion Hdirs as [|? ? Hd Hrest]; subst.
    cbn [length breadcrumb_while].
    replace (i <? i + 1 + Z.of_nat (S (length dirs)) - 1) with true
      by (symmetry; apply Z.ltb_lt; lia).
    unfold path. cbn [flat_map]. rewrite <- !app_assoc.
    fold (path dirs rest).
    change (str "/" ++ path dirs rest) with ("/"%char :: path dirs rest).
    rewrite (split_first d "/" (path dirs rest) Hd). cbn [fst snd].
    rewrite (IH _ (i + 1) rest) by (auto; lia).
    f_equal. rewrite climb_repeat.
    replace (Z.to_nat (i + 1 + Z.of_nat (S (length dirs)) - i - 2))
      with (length dirs) by lia.
    cbn [crumbs]. unfold link, up_path. cbn [length Nat.sub].
    rewrite Nat.sub_0_r. unfold str. cbn [list_ascii_of_string].
    now rewrite <- !app_assoc.
Qed.

Lemma breadcrumb_path dirs last base myfile :
  Forall (fun d => ~ In "/"%char d) dirs -> ~ In "/"%char last ->
  ~ In "/"%char base -> Z.of_nat (length dirs) < 2 ^ 31 - 1 ->
  breadcrumb (path (dirs ++ [last]) base) myfile
  = myfile ++ crumbs dirs ++ link (str "./") last ++ str "/"
    ++ link (base ++ str ".html") base.
Proof.
  intros Hdirs Hlast Hbase Hlen. unfold breadcrumb.
  rewrite count_path;
    [|apply Forall_app; split; [exact Hdirs|now constructor]
     |exact Hbase|rewrite length_app; cbn [length]; lia].
  rewrite length_app. cbn [length].
  replace (Z.to_nat (Z.of_nat (length dirs + 1) - 1)) with (length dirs)
    by lia.
  rewrite path_snoc, breadcrumb_while_crumbs by (auto; lia).
  rewrite (split_first last "/" base Hlast). cbn [fst snd].
  unfold link. unfold str. cbn [list_ascii_of_string].
  now rewrite <- !app_assoc.
Qed.

Lemma root_path_path dirs base :
  Forall (fun d => ~ In "/"%char d) dirs -> ~ In "/"%char base ->
  Z.of_nat (length dirs) < 2 ^ 31 ->
  root_path (path dirs base) = up_path (length dirs).
Proof.
  intros Hdirs Hbase Hlen. unfold root_path.
  rewrite count_path, climb_repeat by assumption. unfold up_path.
  do 3 f_equal. lia.
Qed.

Lemma rsplit_last dir sep base :
  ~ In sep base -> rsplit (dir ++ sep :: base) sep = (dir, base).
Proof.
  intros Hbase. unfold rsplit.
  rewrite (find_last_of_last dir sep base [sep]);
    [|now left|intros ch Hch [<-|[]]; contradiction].
  rewrite firstn_app, firstn_all, Nat.sub_diag. cbn [firstn].
  rewrite app_nil_r. change (sep :: base) with ([sep] ++ base).
  rewrite app_assoc.
  replace (S (length dir)) with (length (dir ++ [sep]))
    by (rewrite length_app; cbn [length]; lia).
  now rewrite skipn_app, skipn_all, Nat.sub_diag.
Qed.

Lemma rsplit_absent s sep : ~ In sep s -> rsplit s sep = (s, []).
Proof.
  intros H. unfold rsplit. rewrite find_last_of_none; [reflexivity|].
  intros ch Hch [<-|[]]. contradiction.
Qed.

(** Every name is a path of directories without slash and of a base name
    without slash. *)
Lemma path_components s :
  exists dirs base,
    s = path dirs base /\ Forall (fun d => ~ In "/"%char d) dirs
    /\ ~ In "/"%char base
    /\ (In "/"%char s -> dirs <> []).
Proof.
  induction s as [|ch s (dirs & base & -> & Hdirs & Hbase & Hne)].
  - exists [], []. repeat split; [constructor|easy|easy].
  - destruct (Ascii.eqb_spec ch "/") as [->|Hch].
    + exists ([] :: dirs), base. repeat split; [|exact Hbase|easy].
      constructor; [easy|exact Hdirs].
    + destruct dirs as [|d dirs].
      * exists [], (ch :: base). repeat split; [constructor| |].
        -- intros [E|E]; [now apply Hch|now apply Hbase].
        -- intros [E|E]; [now subst ch|].
           exfalso. now apply Hbase.
      * exists ((ch :: d) :: dirs), base.
        inversion Hdirs as [|? ? Hd Hrest]; subst.
        repeat split; [|exact Hbase|easy].
        constructor; [|exact Hrest].
        intros [E|E]; [now apply Hch|now apply Hd].
Qed.

(** ** Stripping the markup of the links *)

Lemma strip_inside m r :
  ~ In ">"%char m -> strip_from true (m ++ r) = strip_from true r.
Proof.
  induction m as [|ch m IH]; intros H; cbn [app strip_from].
  - reflexivity.
  - destruct (Ascii.eqb_spec ch ">") as [->|_]; [exfalso; apply H; now left|].
    cbn [negb]. apply IH. intros Hin. apply H. now right.
Qed.

Lemma strip_outside t r :
  ~ In "<"%char t -> strip_from false (t ++ r) = t ++ strip_from false r.
Proof.
  induction t as [|ch t IH]; intros H; cbn [app strip_from]; [reflexivity|].
  destruct (Ascii.eqb_spec ch "<") as [->|_]; [exfalso; apply H; now left|].
  f_equal. apply IH. intros Hin. apply H. now right.
Qed.

Lemma strip_link href text r :
  ~ In ">"%char href -> ~ In "<"%char text ->
  strip_from false (link href text ++ r) = text ++ strip_from false r.
Proof.
  intros Hhref Htext. unfold link, str. rewrite <- !app_assoc.
  cbn [list_ascii_of_string app]. cbn - [app].
  rewrite strip_inside by exact Hhref. cbn - [app].
  rewrite strip_outside by exact Htext. reflexivity.
Qed.

Lemma up_path_plain n : ~ In ">"%char (up_path n).
Proof.
  unfold up_path. rewrite in_app_iff. intros [H|H].
  - cbn in H. intuition discriminate.
  - apply in_concat in H as (x & Hx & Hin). apply repeat_spec in Hx.
    subst x. cbn in Hin. intuition discriminate.
Qed.

Lemma strip_crumbs dirs r :
  Forall (fun d => ~ In "<"%char d) dirs ->
  strip_from false (crumbs dirs ++ r)
  = flat_map (fun d => d ++ str "/") dirs ++ strip_from false r.
Proof.
  induction 1 as [|d dirs Hd _ IH]; [reflexivity|].
  cbn [crumbs flat_map]. rewrite <- !app_assoc.
  rewrite strip_link by (auto using up_path_plain).
  f_equal. cbn [str list_ascii_of_string app strip_from].
  change ("/" =? "<")%char with false. cbv iota. f_equal. exact IH.
Qed.

Lemma in_path dirs base ch :
  In ch (path dirs base)
  <-> (exists d, In d dirs /\ In ch d) \/ (ch = "/"%char /\ dirs <> [])
      \/ In ch base.
Proof.
  unfold path. rewrite in_app_iff, in_flat_map. split.
  - intros [(d & Hd & Hin)|H]; [|now (right; right)].
    apply in_app_iff in Hin as [Hin|[<-|[]]].
    + left. now exists d.
    + right. left. split; [reflexivity|]. now destruct dirs.
  - intros [(d & Hd & Hin)|[[-> Hne]|H]]; [| |now right].
    + left. exists d. split; [exact Hd|]. apply in_app_iff. now left.
    + left. destruct dirs as [|d dirs]; [contradiction|].
      exists d. split; [now left|]. apply in_app_iff. right. now left.
Qed.

Lemma path_length dirs base :
  (length dirs <= length (path dirs base))%nat.
Proof.
  unfold path. rewrite length_app.
  induction dirs as [|d dirs IH]; [cbn; lia|].
  cbn [flat_map length]. rewrite !length_app.
  change (length (str "/")) with 1%nat. lia.
Qed.

Lemma strip_breadcrumb_path dirs last base :
  Forall (fun d => ~ In "/"%char d) dirs -> ~ In "/"%char last ->
  ~ In "/"%char base -> Z.of_nat (length dirs) < 2 ^ 31 - 1 ->
  Forall (fun d => ~ In "<"%char d) dirs -> ~ In "<"%char last ->
  ~ In "<"%char base -> ~ In ">"%char base ->
  strip_markup (breadcrumb (path (dirs ++ [last]) base) [])
  = path (dirs ++ [last]) base.
Proof.
  intros Hdirs Hlast Hbase Hlen Hd Hl Hb1 Hb2.
  rewrite breadcrumb_path by assumption. cbn [app]. unfold strip_markup.
  rewrite strip_crumbs by exact Hd.
  rewrite strip_link; [|cbn; intuition discriminate|exact Hl].
  cbn [str list_ascii_of_string app strip_from].
  change ("/" =? "<")%char with false. cbv iota.
  rewrite <- (app_nil_r (link _ base)), strip_link;
    [|rewrite in_app_iff; cbn; intuition discriminate|exact Hb1].
  cbn [strip_from]. rewrite app_nil_r. rewrite path_snoc. reflexivity.
Qed.


(** ** The loop for any tag list *)

Section AnyTags.

Variable buf : bytes.
Variables commonLines coveredLines : list Z.

(** The closing loop pops tags from the top of the stack and writes their
    close markup. *)
Lemma close_ended_pops k stack : forall next_end out,
  exists closed stack' next_end',
    close_ended buf k stack next_end out
    = (stack', next_end', out ++ map Close closed)
    /\ stack = closed ++ stack'.
Proof.
  induction stack as [|top stack IH]; intros next_end out; cbn [close_ended].
  - exists [], [], next_end. now rewrite app_nil_r.
  - destruct (k >=? next_end).
    + destruct (IH (match stack with
                    | [] => end_ buf
                    | top' :: _ => Tag.pos top' + Tag.len top'
                    end) (out ++ [Close top]))
        as (closed & stack' & next_end' & -> & ->).
      exists (top :: closed), stack', next_end'.
      cbn [map app]. now rewrite <- app_assoc.
    + exists [], (top :: stack), next_end. now rewrite app_nil_r.
Qed.

(** The opening loop never fails its assertion: [next_start] is the start
    of the tag that [tags_it] points to. *)
Lemma open_started_opens k l : forall stack next_end out,
  exists l' stack' next_end' opened,
    open_started buf k l (first_pos (end_ buf) l) stack next_end out
    = Some (l', first_pos (end_ buf) l', stack', next_end',
            out ++ map Open opened)
    /\ stack' = rev (filter (fun t => negb (Tag.len t =? 0)) opened) ++ stack.
Proof.
  induction l as [|t l IH]; intros stack next_end out;
    cbn [open_started first_pos].
  - exists [], stack, next_end, []. now rewrite app_nil_r.
  - destruct (Z.eqb_spec k (Tag.pos t)) as [E|E].
    + change (match l with [] => end_ buf | t' :: _ => Tag.pos t' end)
        with (first_pos (end_ buf) l).
      destruct (Z.eqb_spec (Tag.len t) 0) as [E0|E0].
      * destruct (IH stack next_end (out ++ [Open t]))
          as (l' & stack' & next_end' & opened & -> & ->).
        exists l', (rev (filter (fun t => negb (Tag.len t =? 0)) opened)
                    ++ stack), next_end', (t :: opened).
        cbn [map filter]. rewrite <- app_assoc.
        replace (Tag.len t =? 0) with true by lia. now cbn [negb].
      * destruct (IH (t :: stack) (k + Tag.len t) (out ++ [Open t]))
          as (l' & stack' & next_end' & opened & -> & ->).
        exists l', (rev (filter (fun t => negb (Tag.len t =? 0)) opened)
                    ++ t :: stack), next_end', (t :: opened).
        cbn [map filter]. rewrite <- app_assoc.
        replace (Tag.len t =? 0) with false by lia. cbn [negb rev].
        now rewrite <- app_assoc.
    + exists (t :: l), stack, next_end, []. now rewrite app_nil_r.
Qed.

Lemma nonzero_filter l :
  Forall (fun t => Tag.len t <> 0)
    (filter (fun t => negb (Tag.len t =? 0)) l).
Proof.
  apply Forall_forall. intros t Ht. apply filter_In in Ht as [_ Ht].
  apply negb_true_iff in Ht. lia.
Qed.

(** The events before the end of the buffer. *)
Lemma at_event_head s :
  Head buf s -> c s < end_ buf ->
  exists s1,
    at_event buf s = Continue s1 /\ Head buf s1 /\ c s1 = c s
    /\ line s1 = line s.
Proof.
  intros [Hb Hns Hbal Hnz] Hc. unfold at_event. rewrite flush_eq.
  cbn [c stack next_end myfile tags_it next_start line bufferStart next].
  destruct (close_ended_pops (c s) (stack s) (next_end s) (written buf s))
    as (closed & stack1 & next_end1 & -> & Hst).
  destruct (Z.geb_spec (c s) (end_ buf)) as [Hge|_]; [lia|].
  rewrite Hns.
  destruct (open_started_opens (c s) (tags_it s) stack1 next_end1
              (written buf s ++ map Close closed))
    as (l' & stack2 & next_end2 & opened & -> & ->).
  eexists. split; [reflexivity|]. split; [|split; reflexivity].
  constructor; cbn [c stack next_end myfile tags_it next_start line
                    bufferStart next].
  - lia.
  - reflexivity.
  - unfold written at 1.
    cbn [c stack next_end myfile tags_it next_start line bufferStart next].
    rewrite slice_empty. cbn [map]. rewrite app_nil_r.
    rewrite <- app_assoc, balance_app, Hbal, Hst, balance_app.
    now rewrite balance_closes, balance_opens.
  - apply Forall_app. split.
    + apply Forall_forall. intros t Ht. apply in_rev in Ht.
      pose proof (nonzero_filter opened) as Hf. rewrite Forall_forall in Hf.
      now apply Hf.
    + rewrite Hst in Hnz. now apply Forall_app in Hnz.
Qed.

(** The event at the end of the buffer ends the loop. *)
Lemma at_event_break s :
  Head buf s -> end_ buf <= c s ->
  exists s1 closed,
    at_event buf s = Break s1
    /\ stack s = closed ++ stack s1
    /\ myfile s1 = written buf s ++ map Close closed
    /\ balance [] (myfile s1) = Some (stack s1).
Proof.
  intros [Hb Hns Hbal Hnz] Hc. unfold at_event. rewrite flush_eq.
  cbn [c stack next_end myfile tags_it next_start line bufferStart next].
  destruct (close_ended_pops (c s) (stack s) (next_end s) (written buf s))
    as (closed & stack1 & next_end1 & -> & Hst).
  destruct (Z.geb_spec (c s) (end_ buf)) as [_|Hlt]; [|lia].
  eexists. exists closed. split; [reflexivity|].
  cbn [c stack next_end myfile tags_it next_start line bufferStart next].
  split; [exact Hst|]. split; [reflexivity|].
  now rewrite balance_app, Hbal, Hst, balance_closes.
Qed.

Lemma deref_in k :
  0 <= k < end_ buf ->
  exists ch, deref buf k = Some ch /\ nth_error buf (Z.to_nat k) = Some ch.
Proof.
  intros Hk. unfold deref.
  destruct (Z.leb_spec 0 k); [|lia].
  destruct (Z.ltb_spec k (end_ buf)); [|lia]. cbn [andb].
  destruct (nth_error buf (Z.to_nat k)) as [ch|] eqn:E; [now exists ch|].
  apply nth_error_None in E. unfold end_ in *. lia.
Qed.

Lemma deref_out k : end_ buf <= k -> deref buf k = None.
Proof.
  intros Hk. unfold deref.
  destruct (Z.ltb_spec k (end_ buf)); [lia|]. now rewrite andb_false_r.
Qed.

(** The [switch] and [++c] before the end of the buffer. *)
Lemma switch_head s :
  Head buf s -> 0 <= c s < end_ buf ->
  exists s2,
    switch_byte buf commonLines coveredLines s = Some s2
    /\ Head buf (advance s2) /\ c (advance s2) = c s + 1
    /\ event_state (advance s2) = event_state s.
Proof.
  intros [Hb Hns Hbal Hnz] Hc.
  destruct (deref_in (c s) Hc) as (ch & Hde & Hnth).
  unfold switch_byte. rewrite Hde.
  eexists. split; [reflexivity|].
  destruct (ch =? newline)%char;
    [|destruct (ch =? "&")%char;
      [|destruct (ch =? "<")%char; [|destruct (ch =? ">")%char]]].
  - unfold put_newline. rewrite flush_eq. cbn. split; [|split; reflexivity].
    constructor; cbn; try assumption; try lia.
    unfold written. cbn. rewrite slice_empty. cbn. rewrite app_nil_r.
    fold (written buf s). rewrite balance_app, Hbal.
    change (map Close (stack s)
            ++ RowEnd :: RowBegin (to_unsigned (line s + 1))
                 (style_of (find_unsigned commonLines
                              (to_unsigned (line s + 1))))
                 (style2_of (find_unsigned coveredLines
                               (to_unsigned (line s + 1))))
               :: map Open (rev (stack s)))
      with (map Close (stack s)
            ++ [RowEnd]
            ++ [RowBegin (to_unsigned (line s + 1))
                  (style_of (find_unsigned commonLines
                               (to_unsigned (line s + 1))))
                  (style2_of (find_unsigned coveredLines
                                (to_unsigned (line s + 1))))]
            ++ map Open (rev (stack s))).
    rewrite balance_app. rewrite <- (app_nil_r (stack s)) at 1.
    rewrite balance_closes. cbn [app balance].
    rewrite balance_opens, app_nil_r, filter_all.
    + now rewrite rev_involutive.
    + intros t Ht. apply in_rev in Ht. rewrite Forall_forall in Hnz.
      specialize (Hnz t Ht). apply negb_true_iff. lia.
  - unfold put_entity. rewrite flush_eq. cbn. split; [|split; reflexivity].
    constructor; cbn; try assumption; try lia.
    unfold written. cbn. rewrite slice_empty. cbn. rewrite app_nil_r.
    fold (written buf s). now rewrite balance_app, Hbal.
  - unfold put_entity. rewrite flush_eq. cbn. split; [|split; reflexivity].
    constructor; cbn; try assumption; try lia.
    unfold written. cbn. rewrite slice_empty. cbn. rewrite app_nil_r.
    fold (written buf s). now rewrite balance_app, Hbal.
  - unfold put_entity. rewrite flush_eq. cbn. split; [|split; reflexivity].
    constructor; cbn; try assumption; try lia.
    unfold written. cbn. rewrite slice_empty. cbn. rewrite app_nil_r.
    fold (written buf s). now rewrite balance_app, Hbal.
  - split; [|split; reflexivity].
    constructor; cbn; try assumption; try lia.
    unfold written. cbn.
    rewrite (slice_snoc buf _ _ ch) by (assumption || lia).
    rewrite map_app, app_assoc. fold (written buf s).
    now rewrite balance_app, Hbal.
Qed.

(** One iteration before the end of the buffer continues, for any tag
    list. *)
Lemma loop_body_head s :
  Head buf s -> 0 <= c s < end_ buf ->
  exists s',
    loop_body buf commonLines coveredLines s = Continue s'
    /\ Head buf s' /\ c s' = c s + 1
    /\ (c s <> next s -> event_state s' = event_state s).
Proof.
  intros Hs Hc. unfold loop_body.
  destruct (Z.eqb_spec (c s) (next s)) as [E|E].
  - destruct (at_event_head s Hs ltac:(lia)) as (s1 & -> & Hs1 & Hc1 & _).
    destruct (switch_head s1 Hs1 ltac:(lia)) as (s2 & -> & Hs2 & Hc2 & _).
    exists (advance s2). split; [reflexivity|]. split; [exact Hs2|].
    split; [lia|]. intros H. contradiction.
  - destruct (switch_head s Hs Hc) as (s2 & -> & Hs2 & Hc2 & He).
    exists (advance s2). split; [reflexivity|]. split; [exact Hs2|].
    split; [exact Hc2|]. intros _. exact He.
Qed.

Lemma iterate_head j : forall s,
  Head buf s -> 0 <= c s -> c s + Z.of_nat j <= end_ buf ->
  exists s',
    iterate buf commonLines coveredLines j s = Some s'
    /\ Head buf s' /\ c s' = c s + Z.of_nat j
    /\ (c s + Z.of_nat j <= next s \/ next s < c s ->
        event_state s' = event_state s).
Proof.
  induction j as [|j IH]; intros s Hs Hc Hj.
  - exists s. cbn. rewrite Z.add_0_r. auto.
  - destruct (loop_body_head s Hs ltac:(lia)) as (s1 & Hbody & Hs1 & Hc1 & He).
    destruct (IH s1 Hs1 ltac:(lia) ltac:(lia)) as (s' & Hit & Hs' & Hc' & He').
    exists s'. cbn [iterate]. rewrite Hbody.
    split; [exact Hit|]. split; [exact Hs'|]. split; [lia|].
    intros Hq. assert (He1 : event_state s1 = event_state s)
      by (apply He; lia).
    rewrite <- He1. apply He'.
    unfold event_state in He1. injection He1 as _ _ _ Hn _. lia.
Qed.

Lemma iterate_app a : forall b s,
  iterate buf commonLines coveredLines (a + b) s
  = match iterate buf commonLines coveredLines a s with
    | Some s1 => iterate buf commonLines coveredLines b s1
    | None => None
    end.
Proof.
  induction a as [|a IH]; intros b s; cbn [iterate Nat.add]; [reflexivity|].
  destruct (loop_body buf commonLines coveredLines s); auto.
Qed.

Lemma initial_head tags :
  Head buf (initial buf commonLines coveredLines tags).
Proof.
  constructor; cbn; try reflexivity; try lia. constructor.
Qed.

(** The iteration at the end of the buffer. *)
Lemma loop_body_end s :
  Head buf s -> c s = end_ buf ->
  (next s = end_ buf ->
   exists s' closed,
     loop_body buf commonLines coveredLines s = Break s'
     /\ stack s = closed ++ stack s'
     /\ myfile s' = written buf s ++ map Close closed
     /\ balance [] (myfile s') = Some (stack s'))
  /\ (next s <> end_ buf ->
      loop_body buf commonLines coveredLines s = Fault).
Proof.
  intros Hs Hc. unfold loop_body. split; intros Hn.
  - replace (c s =? next s) with true by lia.
    destruct (at_event_break s Hs ltac:(lia)) as (s1 & closed & -> & H).
    now exists s1, closed.
  - replace (c s =? next s) with false by lia.
    unfold switch_byte. now rewrite deref_out by lia.
Qed.

(** The state in which the cursor arrives at the end of the buffer. *)
Lemma loop_end tags :
  exists s,
    iterate buf commonLines coveredLines (length buf)
      (initial buf commonLines coveredLines tags) = Some s
    /\ Head buf s /\ c s = end_ buf
    /\ render buf commonLines coveredLines tags
       = match loop_body buf commonLines coveredLines s with
         | Break s' => Some (myfile s' ++ [RowEnd; TableEnd])
         | _ => None
         end.
Proof.
  destruct (iterate_head (length buf)
              (initial buf commonLines coveredLines tags)
              (initial_head tags))
    as (s & Hit & Hs & Hc & _); [cbn; lia|cbn; unfold end_; lia|].
  exists s. split; [exact Hit|]. split; [exact Hs|].
  split; [cbn in Hc; unfold end_; lia|].
  unfold render.
  replace (S (length buf)) with (length buf + 1)%nat by lia.
  rewrite (run_iterate _ _ _ _ _ _ _ Hit). cbn [run].
  now destruct (loop_body buf commonLines coveredLines s).
Qed.

End AnyTags.

Section Missed.

Variable buf : bytes.
Variables commonLines coveredLines : list Z.

Lemma iterate_keeps_head j : forall s s',
  Head buf s -> iterate buf commonLines coveredLines j s = Some s' ->
  Head buf s'.
Proof.
  induction j as [|j IH]; intros s s' Hs; cbn [iterate].
  - now intros [= <-].
  - destruct (loop_body buf commonLines coveredLines s) as [s1| |] eqn:E;
      try discriminate.
    pose proof (loop_body_c _ _ _ _ _ E) as [_ Hc].
    destruct (loop_body_head buf commonLines coveredLines s Hs Hc)
      as (s1' & E' & Hs1 & _).
    rewrite E in E'. injection E' as <-. now apply IH.
Qed.

Lemma iterate_c j : forall s s',
  iterate buf commonLines coveredLines j s = Some s' ->
  c s' = c s + Z.of_nat j /\ (j <> O -> 0 <= c s /\ c s' <= end_ buf).
Proof.
  induction j as [|j IH]; intros s s'; cbn [iterate].
  - intros [= <-]. split; [lia|easy].
  - destruct (loop_body buf commonLines coveredLines s) as [s1| |] eqn:E;
      try discriminate.
    pose proof (loop_body_c _ _ _ _ _ E) as [Hc1 Hc]. intros Hit.
    destruct (IH s1 s' Hit) as [Hc' Hend]. split; [lia|]. intros _.
    destruct j; [|lia]. cbn in Hit. injection Hit as <-. lia.
Qed.

(** Once the next event is not ahead of the cursor in the buffer, the
    cursor passes the end of the buffer. *)
Lemma missed_event tags j s :
  iterate buf commonLines coveredLines j
    (initial buf commonLines coveredLines tags) = Some s ->
  c s <= end_ buf ->
  next s < c s \/ end_ buf < next s ->
  render buf commonLines coveredLines tags = None.
Proof.
  intros Hit Hc Hmiss.
  pose proof (iterate_keeps_head j _ _ (initial_head buf _ _ tags) Hit) as Hs.
  destruct (iterate_c j _ _ Hit) as [Hcj _]. cbn [initial c] in Hcj.
  destruct (iterate_head buf commonLines coveredLines (length buf - j) s Hs)
    as (s' & Hit' & Hs' & Hc' & He); [lia|unfold end_ in *; lia|].
  assert (Hnext : next s' = next s).
  { assert (He' : event_state s' = event_state s)
      by (apply He; unfold end_ in *; lia).
    unfold event_state in He'. now injection He'. }
  assert (Hend : c s' = end_ buf) by (unfold end_ in *; lia).
  destruct (loop_body_end buf commonLines coveredLines s' Hs' Hend)
    as [_ Hfault].
  unfold render.
  replace (S (length buf)) with (j + ((length buf - j) + 1))%nat
    by (unfold end_ in *; lia).
  rewrite (run_iterate _ _ _ _ _ _ _ Hit).
  rewrite (run_iterate _ _ _ _ _ _ _ Hit'). cbn [run].
  rewrite Hfault by lia. reflexivity.
Qed.

End Missed.

Lemma balance_table_end before left :
  balance [] before = Some left ->
  balance [] (before ++ [RowEnd; TableEnd])
  = match left with [] => Some [] | _ :: _ => None end.
Proof.
  intros H. rewrite balance_app, H. now destruct left.
Qed.

(** ** The table without the markup of the tags *)

Lemma without_tags_app a b :
  without_tags (a ++ b) = without_tags a ++ without_tags b.
Proof. apply filter_app. Qed.

Lemma without_tags_closes l : without_tags (map Close l) = [].
Proof. induction l; cbn; auto. Qed.

Lemma without_tags_opens l : without_tags (map Open l) = [].
Proof. induction l; cbn; auto. Qed.

Lemma is_tag_body_escape ch : is_tag (body_escape ch) = false.
Proof.
  destruct (body_escape_cases ch)
    as [(-> & _)|[(-> & _)|[(-> & _)|(-> & _)]]]; reflexivity.
Qed.

Section Untagged.

Variable tags : list Tag.t.
Variables commonLines coveredLines : list Z.

Lemma without_tags_break st line' :
  without_tags (stacked_break commonLines coveredLines st line')
  = [RowEnd; row_begin commonLines coveredLines line'].
Proof.
  unfold stacked_break. rewrite without_tags_app, without_tags_closes.
  change ([RowEnd; row_begin commonLines coveredLines line']
          ++ map Open (rev st))
    with ([RowEnd] ++ [row_begin commonLines coveredLines line']
          ++ map Open (rev st)).
  now rewrite !without_tags_app, without_tags_opens.
Qed.

Lemma without_tags_stacked_byte k ch line st :
  without_tags (stacked_byte tags commonLines coveredLines k ch line st)
  = stacked_byte [] commonLines coveredLines k ch line [].
Proof.
  unfold stacked_byte.
  rewrite !without_tags_app, without_tags_closes, without_tags_opens.
  cbn [ended opening_at filter map app].
  destruct (ch =? newline)%char.
  - rewrite without_tags_break. reflexivity.
  - unfold without_tags. cbn [filter]. now rewrite is_tag_body_escape.
Qed.

Lemma without_tags_stacked_steps text : forall k line st,
  without_tags (stacked_steps tags commonLines coveredLines k text line st)
  = stacked_steps [] commonLines coveredLines k text line [].
Proof.
  induction text as [|ch text IH]; intros k line st; [reflexivity|].
  cbn [stacked_steps].
  now rewrite without_tags_app, without_tags_stacked_byte, IH.
Qed.

Lemma without_tags_stacked buf :
  without_tags (stacked tags commonLines coveredLines buf)
  = stacked [] commonLines coveredLines buf.
Proof.
  unfold stacked. rewrite stack_after_no_tags.
  cbn [app without_tags filter is_tag negb ended map].
  fold (without_tags
          (stacked_steps tags commonLines coveredLines 0 buf 1 []
           ++ map Close (ended (Z.of_nat (length buf))
                           (stack_after tags 0 buf []))
           ++ [RowEnd; TableEnd])).
  rewrite !without_tags_app, without_tags_stacked_steps, without_tags_closes.
  reflexivity.
Qed.

End Untagged.

Lemma body_until_end_without_tags out :
  body_until_end (without_tags out) = without_tags (body_until_end out).
Proof.
  induction out as [|tok out IH]; [reflexivity|].
  destruct tok; cbn [without_tags filter is_tag negb body_until_end];
    fold (without_tags out); fold (without_tags (body_until_end out));
    now rewrite ?IH.
Qed.

Lemma bodies_without_tags out :
  bodies (without_tags out) = map without_tags (bodies out).
Proof.
  induction out as [|tok out IH]; [reflexivity|].
  destruct tok; cbn [without_tags filter is_tag negb bodies map];
    fold (without_tags out); rewrite ?IH; try reflexivity.
  now rewrite body_until_end_without_tags.
Qed.

(** ** The bodies of the lines of a table with tags *)

Lemma bodies_of_part (P : token -> Prop) tags tok out :
  (forall tok, body_part tags tok -> P tok) ->
  body_part tags tok -> bodies_of P out -> bodies_of P (tok :: out).
Proof.
  intros HP Htok [Hb Hbs]. pose proof (HP tok Htok) as Ptok.
  unfold bodies_of.
  destruct Htok as [(t & _ & [->| ->])|(ch & ->)];
    [| |destruct (body_escape_cases ch)
          as [(E & _)|[(E & _)|[(E & _)|(E & _)]]]; rewrite E in *];
    cbn [body_until_end bodies]; (split; [now constructor|exact Hbs]).
Qed.

Lemma bodies_of_parts (P : token -> Prop) tags l out :
  (forall tok, body_part tags tok -> P tok) ->
  Forall (body_part tags) l -> bodies_of P out -> bodies_of P (l ++ out).
Proof.
  intros HP Hl Hout. induction Hl as [|tok l Htok _ IH]; [exact Hout|].
  cbn [app]. now apply (bodies_of_part P tags).
Qed.

Lemma bodies_of_row (P : token -> Prop) line style style2 out :
  bodies_of P out -> bodies_of P (RowEnd :: RowBegin line style style2 :: out).
Proof.
  intros [Hb Hbs]. unfold bodies_of. cbn [body_until_end bodies].
  split; [constructor|now constructor].
Qed.

Lemma body_part_closes tags l :
  Forall (fun t => In t tags) l -> Forall (body_part tags) (map Close l).
Proof.
  intros H. apply Forall_map. eapply Forall_impl; [|exact H].
  intros t Ht. left. exists t. auto.
Qed.

Lemma body_part_opens tags l :
  Forall (fun t => In t tags) l -> Forall (body_part tags) (map Open l).
Proof.
  intros H. apply Forall_map. eapply Forall_impl; [|exact H].
  intros t Ht. left. exists t. auto.
Qed.

Section TaggedBodies.

Variable tags : list Tag.t.
Variables commonLines coveredLines : list Z.
Variable P : token -> Prop.
Hypothesis P_part : forall tok, body_part tags tok -> P tok.

Lemma opening_at_in k : Forall (fun t => In t tags) (opening_at tags k).
Proof.
  apply Forall_forall. intros t Ht. now apply filter_In in Ht.
Qed.

Lemma ended_in k st :
  Forall (fun t => In t tags) st -> Forall (fun t => In t tags) (ended k st).
Proof.
  intros H. apply Forall_forall. intros t Ht. rewrite Forall_forall in H.
  apply H. now apply (ended_incl k).
Qed.

Lemma opened_stack_in k st :
  Forall (fun t => In t tags) st ->
  Forall (fun t => In t tags) (opened_stack tags k st).
Proof.
  intros H. unfold opened_stack. apply Forall_app. split.
  - apply Forall_forall. intros t Ht. apply in_rev, filter_In in Ht.
    destruct Ht as [Ht _]. now apply filter_In in Ht.
  - apply Forall_forall. intros t Ht. rewrite Forall_forall in H.
    apply H. now apply (lasting_incl k).
Qed.

Lemma stack_after_in text : forall k st,
  Forall (fun t => In t tags) st ->
  Forall (fun t => In t tags) (stack_after tags k text st).
Proof.
  induction text as [|ch text IH]; intros k st H; [exact H|].
  cbn [stack_after]. apply IH. now apply opened_stack_in.
Qed.

Lemma bodies_of_steps text : forall k line st tail,
  Forall (fun t => In t tags) st -> bodies_of P tail ->
  bodies_of P
    (stacked_steps tags commonLines coveredLines k text line st ++ tail).
Proof.
  induction text as [|ch text IH]; intros k line st tail Hst Htail;
    [exact Htail|].
  cbn [stacked_steps]. unfold stacked_byte. rewrite <- !app_assoc.
  apply (bodies_of_parts P tags _ _ P_part);
    [apply body_part_closes; now apply ended_in|].
  apply (bodies_of_parts P tags _ _ P_part);
    [apply body_part_opens; apply opening_at_in|].
  pose proof (opened_stack_in k st Hst) as Hop.
  specialize (IH (k + 1) (line_after ch line) _ tail Hop Htail).
  destruct (ch =? newline)%char.
  - unfold stacked_break. rewrite <- !app_assoc.
    apply (bodies_of_parts P tags _ _ P_part);
      [now apply body_part_closes|].
    cbn [app]. apply bodies_of_row.
    apply (bodies_of_parts P tags _ _ P_part); [|exact IH].
    apply body_part_opens. apply Forall_forall. intros t Ht.
    apply in_rev in Ht. rewrite Forall_forall in Hop. now apply Hop.
  - cbn [app]. apply (bodies_of_part P tags _ _ P_part); [|exact IH].
    right. now exists ch.
Qed.

Lemma bodies_stacked_parts buf :
  Forall (Forall P) (bodies (stacked tags commonLines coveredLines buf)).
Proof.
  unfold stacked. cbn [app bodies].
  assert (H : bodies_of P
                (stacked_steps tags commonLines coveredLines 0 buf 1 []
                 ++ map Close (ended (Z.of_nat (length buf))
                                 (stack_after tags 0 buf []))
                 ++ [RowEnd; TableEnd])).
  { apply bodies_of_steps; [constructor|].
    apply (bodies_of_parts P tags _ _ P_part).
    - apply body_part_closes, ended_in, stack_after_in. constructor.
    - split; cbn; constructor. }
  destruct H as [H1 H2]. now constructor.
Qed.

End TaggedBodies.

(** The markup of a tag is stripped as a whole. *)
Lemma strip_open t r :
  plain_markup t -> strip_from false (Tag.open t ++ r) = strip_from false r.
Proof.
  intros [Hname Hattr]. unfold Tag.open. rewrite <- !app_assoc.
  cbn [str list_ascii_of_string app strip_from].
  change ("<" =? "<")%char with true. cbv iota.
  rewrite strip_inside by exact Hname.
  assert (Hattrs : forall r',
    strip_from true
      (match Tag.attributes t with
       | [] => []
       | _ :: _ => " "%char :: Tag.attributes t
       end ++ r') = strip_from true r').
  { intros r'. destruct (Tag.attributes t) as [|a attrs] eqn:E;
      [reflexivity|].
    change ((" "%char :: a :: attrs) ++ r')
      with (" "%char :: (a :: attrs) ++ r').
    cbn [strip_from]. change (negb (" " =? ">")%char) with true.
    now apply strip_inside. }
  rewrite Hattrs. destruct (Tag.len t =? 0).
  - cbn [app strip_from].
    change (negb (">" =? ">")%char) with false.
    change ("<" =? "<")%char with true. cbv iota.
    change (negb ("/" =? ">")%char) with true. cbv iota.
    rewrite <- app_assoc, strip_inside by exact Hname. reflexivity.
  - reflexivity.
Qed.

Lemma strip_close t r :
  plain_markup t -> strip_from false (Tag.close t ++ r) = strip_from false r.
Proof.
  intros [Hname _]. unfold Tag.close. rewrite <- !app_assoc.
  cbn [str list_ascii_of_string app strip_from].
  change ("<" =? "<")%char with true. cbv iota.
  change (negb ("/" =? ">")%char) with true. cbv iota.
  rewrite strip_inside by exact Hname. reflexivity.
Qed.

Lemma strip_body tags body :
  Forall plain_markup tags -> Forall (body_part tags) body ->
  strip_markup (contents body) = contents (without_tags body).
Proof.
  intros Htags Hbody. unfold strip_markup, contents.
  induction Hbody as [|tok body Htok _ IH]; [reflexivity|].
  cbn [flat_map without_tags filter]. fold (without_tags body).
  rewrite Forall_forall in Htags.
  destruct Htok as [(t & Ht & [->| ->])|(ch & ->)].
  - cbn [token_bytes is_tag negb]. now rewrite strip_open by auto.
  - cbn [token_bytes is_tag negb]. now rewrite strip_close by auto.
  - rewrite is_tag_body_escape. cbn [negb flat_map].
    rewrite strip_outside, IH; [reflexivity|].
    destruct (body_escape_cases ch)
      as [(-> & _ & E & _)|[(-> & _)|[(-> & _)|(-> & _)]]];
      cbn; try (intuition discriminate).
    intros [H|[]]. subst ch. discriminate E.
Qed.

(** ** The styles of the rows, by membership *)

Lemma row_of_membership commonLines coveredLines line :
  Forall int_range commonLines -> Forall int_range coveredLines ->
  0 <= line < 2 ^ 31 ->
  let row := row_of commonLines coveredLines line in
  (In line commonLines -> snd (fst row) = aquamarine)
  /\ (~ In line commonLines -> snd (fst row) = lightcoral)
  /\ (In line coveredLines -> snd row = gold)
  /\ (~ In line coveredLines -> snd row = []).
Proof.
  intros Hcommon Hcovered Hrange. unfold row_of. cbn [fst snd].
  repeat split; intros H.
  - apply (find_unsigned_In _ _ Hcommon Hrange) in H. now rewrite H.
  - rewrite <- (find_unsigned_In _ _ Hcommon Hrange) in H.
    apply not_true_is_false in H. now rewrite H.
  - apply (find_unsigned_In _ _ Hcovered Hrange) in H. now rewrite H.
  - rewrite <- (find_unsigned_In _ _ Hcovered Hrange) in H.
    apply not_true_is_false in H. now rewrite H.
Qed.

Lemma rows_stacked_numbered tags commonLines coveredLines buf :
  Z.of_nat (length buf) < 2 ^ 31 - 1 ->
  rows (stacked tags commonLines coveredLines buf)
  = (1, style_of (find_int commonLines 1), style2_of (find_int coveredLines 1))
    :: map (fun i => row_of commonLines coveredLines (1 + Z.of_nat i))
         (seq 1 (length (filter is_newline buf))).
Proof.
  intros Hlen. rewrite rows_stacked, rows_steps by lia. reflexivity.
Qed.

(** ** Tags that start inside the buffer *)

Lemma starts_inside_all n tags :
  forallb (starts_inside n) tags = true -> Forall (inside n) tags.
Proof.
  intros H. apply Forall_forall. intros t Ht. rewrite forallb_forall in H.
  specialize (H t Ht). unfold starts_inside in H. unfold inside.
  repeat (apply andb_true_iff in H as [H ?]). lia.
Qed.

(** Such tags lie in a buffer that is long enough. *)
Lemma inside_bounded n tags :
  Forall (inside n) tags -> exists m, Forall (bounded m) tags.
Proof.
  induction 1 as [|t tags [Hpos Hlen] _ (m & IH)].
  - exists 0. constructor.
  - exists (Z.max m (tag_end t)). constructor.
    + unfold bounded. lia.
    + eapply Forall_impl; [|exact IH]. unfold bounded. intros u Hu. lia.
Qed.

Section Inside.

Variable buf : bytes.
Variables commonLines coveredLines : list Z.
Variable tags : list Tag.t.
Hypothesis tags_sorted : ForallOrdPairs starts_before tags.
Hypothesis tags_inside : Forall (inside (end_ buf)) tags.

Lemma inside_in t : In t tags -> inside (end_ buf) t.
Proof. intros H. rewrite Forall_forall in tags_inside. auto. Qed.

Lemma first_pos_inside k :
  k <= end_ buf ->
  k <= first_pos (end_ buf) (pending tags k) <= end_ buf.
Proof.
  intros Hk. pose proof (pending_from tags k) as Hfrom.
  destruct (pending tags k) as [|t l] eqn:E; cbn [first_pos]; [lia|].
  inversion Hfrom; subst.
  assert (Ht : In t tags).
  { assert (H : In t (pending tags k)) by (rewrite E; now left).
    now apply filter_In in H. }
  apply inside_in in Ht. unfold inside in Ht. lia.
Qed.

Lemma opened_top_inside k stack :
  k < end_ buf -> k + 1 <= top_end (end_ buf) (opened_stack tags k stack).
Proof.
  intros Hk. unfold opened_stack.
  destruct (rev (filter (fun t => negb (Tag.len t =? 0)) (opening_at tags k)))
    as [|t l] eqn:E; cbn [app].
  - pose proof (lasting_top (end_ buf) k stack Hk). lia.
  - assert (Ht : In t (filter (fun t => negb (Tag.len t =? 0))
                         (opening_at tags k))).
    { apply in_rev. rewrite E. now left. }
    unfold opening_at in Ht. rewrite !filter_In in Ht.
    destruct Ht as [[Ht Hp] Hl]. apply inside_in in Ht.
    unfold inside in Ht. cbn [top_end]. lia.
Qed.

Lemma pending_start_inside : pending tags 0 = tags.
Proof.
  apply filter_all. intros t Ht. apply inside_in in Ht.
  unfold inside in Ht. lia.
Qed.

(** The [if (c == next) { ... }] statement before the end of the buffer. *)
Lemma events_inside k st s :
  0 <= k < end_ buf -> Inv buf tags k k st s ->
  exists s1,
    (if c s =? next s then at_event buf s else Continue s) = Continue s1
    /\ Inv buf tags k (k + 1) (opened_stack tags k st) s1
    /\ line s1 = line s
    /\ written buf s1
       = written buf s ++ map Close (ended k st)
         ++ map Open (opening_at tags k).
Proof.
  intros Hk [Hc Hb Hti Hns Hst Hne Hnx Hle].
  pose proof (first_pos_inside (k + 1) ltac:(lia)) as Hfp.
  pose proof (opened_top_inside k st ltac:(lia)) as Hte.
  destruct (Z.eqb_spec (c s) (next s)) as [E|E].
  - unfold at_event. rewrite flush_eq. cbn [c stack next_end myfile
      tags_it next_start line bufferStart next].
    rewrite Hst, Hne, Hc, Hti, Hns, close_ended_stack.
    destruct (k >=? end_ buf) eqn:Ege; [lia|].
    rewrite open_started_spec;
      [|now apply pending_sorted|now apply pending_from].
    cbv zeta. rewrite pending_opening, pending_next.
    fold (opened_stack tags k st).
    eexists. split; [reflexivity|]. split; [|split].
    + constructor; cbn; try reflexivity; lia.
    + reflexivity.
    + unfold written at 1. cbn. rewrite slice_empty. cbn.
      now rewrite app_nil_r, <- app_assoc.
  - assert (Hlt : k < next s) by lia.
    destruct (not_ended (end_ buf) k st ltac:(lia)) as [Hen Hla].
    destruct (no_opening buf tags tags_sorted k ltac:(lia)) as [Hop Hpe].
    assert (Hos : opened_stack tags k st = st).
    { unfold opened_stack. now rewrite Hop, Hla. }
    exists s. split; [reflexivity|]. split; [|split].
    + rewrite Hos. constructor; try assumption; try lia.
      * now rewrite Hpe.
      * now rewrite Hpe.
    + reflexivity.
    + rewrite Hop, Hen. cbn. now rewrite app_nil_r.
Qed.

Lemma loop_body_step_inside k st s pre ch text :
  buf = pre ++ ch :: text -> k = Z.of_nat (length pre) ->
  Inv buf tags k k st s ->
  exists s',
    loop_body buf commonLines coveredLines s = Continue s'
    /\ Inv buf tags (k + 1) (k + 1) (opened_stack tags k st) s'
    /\ line s' = line_after ch (line s)
    /\ written buf s'
       = written buf s
         ++ stacked_byte tags commonLines coveredLines k ch (line s) st.
Proof.
  intros Hbuf Hk HI.
  destruct (deref_nth buf k pre ch text Hbuf Hk) as (Hde & Hnth & Hrange).
  destruct (events_inside k st s Hrange HI) as (s1 & Hev & HI1 & Hl1 & Hw1).
  destruct (switch_ok buf commonLines coveredLines tags k
              (opened_stack tags k st) s1 ch Hnth Hde HI1)
    as (s2 & Hsw & HI2 & Hl2 & Hw2).
  exists (advance s2). unfold loop_body. rewrite Hev, Hsw.
  split; [reflexivity|]. split; [assumption|]. split; [congruence|].
  rewrite Hw2, Hw1, Hl1. unfold stacked_byte. now rewrite <- !app_assoc.
Qed.

Lemma loop_body_last_inside st s :
  Inv buf tags (end_ buf) (end_ buf) st s ->
  exists s',
    loop_body buf commonLines coveredLines s = Break s'
    /\ stack s' = lasting (end_ buf) st
    /\ myfile s' = written buf s ++ map Close (ended (end_ buf) st).
Proof.
  intros [Hc Hb Hti Hns Hst Hne Hnx Hle].
  pose proof (first_pos_inside (end_ buf) ltac:(lia)) as Hfp.
  unfold loop_body.
  replace (c s =? next s) with true by lia.
  unfold at_event. rewrite flush_eq. cbn [c stack next_end myfile
    tags_it next_start line bufferStart next].
  rewrite Hst, Hne, Hc, close_ended_stack.
  replace (end_ buf >=? end_ buf) with true by lia.
  eexists. split; [reflexivity|]. cbn. split; reflexivity.
Qed.

Lemma iterate_from_inside text : forall pre post k st s,
  buf = pre ++ text ++ post -> k = Z.of_nat (length pre) ->
  Inv buf tags k k st s ->
  exists s',
    iterate buf commonLines coveredLines (length text) s = Some s'
    /\ Inv buf tags (k + Z.of_nat (length text)) (k + Z.of_nat (length text))
         (stack_after tags k text st) s'
    /\ written buf s'
       = written buf s
         ++ stacked_steps tags commonLines coveredLines k text (line s) st.
Proof.
  induction text as [|ch text IH]; intros pre post k st s Hbuf Hk HI.
  - exists s. cbn. rewrite Z.add_0_r, app_nil_r. auto.
  - destruct (loop_body_step_inside k st s pre ch (text ++ post) Hbuf Hk HI)
      as (s1 & Hbody & HI1 & Hl1 & Hw1).
    destruct (IH (pre ++ [ch]) post (k + 1) (opened_stack tags k st) s1)
      as (s' & Hit & HI' & Hw').
    + now rewrite <- app_assoc.
    + rewrite length_app. cbn [length]. lia.
    + exact HI1.
    + exists s'.
      cbn [iterate length stacked_steps stack_after].
      rewrite Hbody.
      replace (k + Z.of_nat (S (length text)))
        with (k + 1 + Z.of_nat (length text)) by lia.
      split; [exact Hit|]. split; [exact HI'|].
      rewrite Hw', Hw1, Hl1. now rewrite <- !app_assoc.
Qed.

Lemma initial_inv_inside :
  Inv buf tags 0 0 [] (initial buf commonLines coveredLines tags).
Proof.
  pose proof (first_pos_inside 0 ltac:(unfold end_; lia)) as Hfp.
  rewrite pending_start_inside in Hfp.
  constructor; cbn.
  - reflexivity.
  - lia.
  - now rewrite pending_start_inside.
  - now rewrite pending_start_inside.
  - reflexivity.
  - reflexivity.
  - change (match tags with [] => end_ buf | t :: _ => Tag.pos t end)
      with (first_pos (end_ buf) tags). lia.
  - change (match tags with [] => end_ buf | t :: _ => Tag.pos t end)
      with (first_pos (end_ buf) tags). lia.
Qed.

(** The loop follows the rendering told with the stack as soon as the
    tags are sorted and start inside the buffer. *)
Lemma render_stacked_inside :
  render buf commonLines coveredLines tags
  = Some (stacked tags commonLines coveredLines buf).
Proof.
  destruct (iterate_from_inside buf [] [] 0 []
              (initial buf commonLines coveredLines tags))
    as (s & Hit & HI & Hw);
    [now rewrite app_nil_r|reflexivity|exact initial_inv_inside|].
  destruct (loop_body_last_inside _ s HI) as (s' & Hbody & _ & Hout).
  unfold render.
  replace (S (length buf)) with (length buf + 1)%nat by lia.
  rewrite (run_iterate _ _ _ _ _ _ _ Hit). cbn [run].
  rewrite Hbody, Hout, Hw.
  unfold written. cbn [initial myfile bufferStart c].
  rewrite slice_empty. cbn [map]. rewrite app_nil_r.
  unfold stacked, end_. cbn [app]. now rewrite <- !app_assoc.
Qed.

End Inside.

(** The tags left on the stack started before the cursor. *)
Lemma stack_after_started tags text : forall k st t,
  In t (stack_after tags k text st) ->
  In t st
  \/ (In t tags /\ Tag.len t <> 0
      /\ k <= Tag.pos t < k + Z.of_nat (length text)).
Proof.
  induction text as [|ch text IH]; intros k st t Ht; [now left|].
  cbn [stack_after length] in Ht.
  destruct (IH (k + 1) _ t Ht) as [H|(H1 & H2 & H3)].
  - unfold opened_stack in H. apply in_app_iff in H as [H|H].
    + right. apply in_rev in H. unfold opening_at in H.
      rewrite !filter_In in H. destruct H as [[Hin Hp] Hl].
      split; [exact Hin|]. cbn [length]. lia.
    + left. now apply (lasting_incl k).
  - right. cbn [length]. split; [exact H1|]. split; [exact H2|lia].
Qed.

Lemma lasting_none k stack :
  lasting k stack = [] <-> Forall (fun t => tag_end t <= k) stack.
Proof.
  split; [|intros H; now destruct (all_ended k stack H)].
  induction stack as [|top stack IH]; [constructor|]. cbn [lasting].
  destruct (Z.leb_spec (tag_end top) k) as [Hle|Hgt]; [|discriminate].
  intros Hnone. constructor; [exact Hle|now apply IH].
Qed.

(** ** Two tag lists that differ after the tags handled so far *)

Section Tails.

Variable buf : bytes.
Variables commonLines coveredLines : list Z.

(** The tails [tail1] and [tailA] start with tags at the same offset
    [p]. *)
Variables t1 tA : Tag.t.
Variables rest1 restA : list Tag.t.
Variable p : Z.
Hypothesis start1 : Tag.pos t1 = p.
Hypothesis startA : Tag.pos tA = p.

Lemma flush_with s l :
  flush buf (with_tags_it s l) = with_tags_it (flush buf s) l.
Proof.
  unfold flush, with_tags_it. cbn.
  now destruct (bufferStart s =? c s).
Qed.

(** Before the offset [p] the opening loop does not look past the head of
    the tail. *)
Lemma open_started_tail k l : forall next_start stack next_end out,
  k <> p ->
  match open_started buf k (l ++ t1 :: rest1) next_start stack next_end out
  with
  | Some (l1, next_start', stack', next_end', out') =>
      exists l',
        l1 = l' ++ t1 :: rest1
        /\ open_started buf k (l ++ tA :: restA) next_start stack next_end out
           = Some (l' ++ tA :: restA, next_start', stack', next_end', out')
  | None =>
      open_started buf k (l ++ tA :: restA) next_start stack next_end out
      = None
  end.
Proof.
  induction l as [|x l IH]; intros next_start stack next_end out Hk;
    cbn [app open_started].
  - destruct (k =? next_start).
    + rewrite start1, startA. replace (k =? p) with false by lia.
      reflexivity.
    + now exists [].
  - destruct (k =? next_start); [|now exists (x :: l)].
    destruct (k =? Tag.pos x); [|reflexivity].
    assert (Hnext : match l ++ t1 :: rest1 with
                    | [] => end_ buf
                    | t' :: _ => Tag.pos t'
                    end
                    = match l ++ tA :: restA with
                      | [] => end_ buf
                      | t' :: _ => Tag.pos t'
                      end)
      by (destruct l; cbn [app]; congruence).
    rewrite <- Hnext.
    destruct (Tag.len x =? 0); apply IH; exact Hk.
Qed.

Lemma at_event_tail s s' l :
  tags_it s = l ++ t1 :: rest1 -> c s <> p ->
  at_event buf s = Continue s' ->
  exists l',
    tags_it s' = l' ++ t1 :: rest1
    /\ at_event buf (with_tags_it s (l ++ tA :: restA))
       = Continue (with_tags_it s' (l' ++ tA :: restA)).
Proof.
  intros Hl Hc. unfold at_event. rewrite flush_with, !flush_eq.
  cbn [with_tags_it c stack next_end myfile tags_it next_start line
       bufferStart next].
  destruct (close_ended buf (c s) (stack s) (next_end s) (written buf s))
    as [[stack1 next_end1] out1].
  destruct (c s >=? end_ buf); [discriminate|].
  rewrite Hl.
  pose proof (open_started_tail (c s) l (next_start s) stack1 next_end1 out1
                Hc) as Htail.
  destruct (open_started buf (c s) (l ++ t1 :: rest1) (next_start s) stack1
              next_end1 out1)
    as [[[[[l1 next_start2] stack2] next_end2] out2]|]; [|discriminate].
  destruct Htail as (l' & -> & ->). intros [= <-].
  exists l'. split; reflexivity.
Qed.

Lemma switch_byte_with s s' :
  switch_byte buf commonLines coveredLines s = Some s' ->
  tags_it s' = tags_it s
  /\ forall l',
       switch_byte buf commonLines coveredLines (with_tags_it s l')
       = Some (with_tags_it s' l').
Proof.
  unfold switch_byte.
  destruct (deref buf (c s)) as [ch|] eqn:E; [|discriminate].
  intros [= <-]. split.
  - unfold put_newline, put_entity. rewrite !flush_eq.
    destruct (ch =? newline)%char; [reflexivity|].
    destruct (ch =? "&")%char; [reflexivity|].
    destruct (ch =? "<")%char; [reflexivity|].
    destruct (ch =? ">")%char; reflexivity.
  - intros l'. change (c (with_tags_it s l')) with (c s). rewrite E.
    f_equal. unfold put_newline, put_entity.
    rewrite !flush_with, !flush_eq.
    destruct (ch =? newline)%char; [reflexivity|].
    destruct (ch =? "&")%char; [reflexivity|].
    destruct (ch =? "<")%char; [reflexivity|].
    destruct (ch =? ">")%char; reflexivity.
Qed.

Lemma loop_body_tail s s' l :
  tags_it s = l ++ t1 :: rest1 -> c s <> p ->
  loop_body buf commonLines coveredLines s = Continue s' ->
  exists l',
    tags_it s' = l' ++ t1 :: rest1
    /\ loop_body buf commonLines coveredLines
         (with_tags_it s (l ++ tA :: restA))
       = Continue (with_tags_it s' (l' ++ tA :: restA)).
Proof.
  intros Hl Hc. unfold loop_body.
  change (c (with_tags_it s (l ++ tA :: restA))) with (c s).
  change (next (with_tags_it s (l ++ tA :: restA))) with (next s).
  destruct (c s =? next s).
  - destruct (at_event buf s) as [s1| |] eqn:Hev; try discriminate.
    destruct (at_event_tail s s1 l Hl Hc Hev) as (l' & Hl' & ->).
    destruct (switch_byte buf commonLines coveredLines s1) as [s2|] eqn:Hsw;
      [|discriminate].
    destruct (switch_byte_with s1 s2 Hsw) as [Hti Hwith].
    intros [= <-]. exists l'. rewrite Hwith.
    split; [cbn; congruence|reflexivity].
  - destruct (switch_byte buf commonLines coveredLines s) as [s2|] eqn:Hsw;
      [|discriminate].
    destruct (switch_byte_with s s2 Hsw) as [Hti Hwith].
    intros [= <-]. exists l. rewrite Hwith.
    split; [cbn; congruence|reflexivity].
Qed.

Lemma iterate_tail j : forall s s' l,
  tags_it s = l ++ t1 :: rest1 -> c s + Z.of_nat j <= p ->
  iterate buf commonLines coveredLines j s = Some s' ->
  exists l',
    tags_it s' = l' ++ t1 :: rest1
    /\ iterate buf commonLines coveredLines j
         (with_tags_it s (l ++ tA :: restA))
       = Some (with_tags_it s' (l' ++ tA :: restA)).
Proof.
  induction j as [|j IH]; intros s s' l Hl Hj; cbn [iterate].
  - intros [= <-]. now exists l.
  - destruct (loop_body buf commonLines coveredLines s) as [s1| |] eqn:Hbody;
      try discriminate.
    destruct (loop_body_tail s s1 l Hl ltac:(lia) Hbody) as (l1 & Hl1 & ->).
    pose proof (loop_body_c _ _ _ _ _ Hbody) as [Hc1 _].
    apply IH; [exact Hl1|lia].
Qed.

End Tails.

(** ** A sorted head of the tag list *)

Lemma sorted_snoc good t :
  ForallOrdPairs starts_before good ->
  Forall (fun g => Tag.pos g <= Tag.pos t) good ->
  ForallOrdPairs starts_before (good ++ [t]).
Proof.
  induction 1 as [|g good Hg Hgood IH]; intros Hle; cbn [app].
  - constructor; constructor.
  - inversion Hle as [|? ? Hgt Hle']; subst.
    constructor; [|now apply IH].
    apply Forall_app. split; [exact Hg|]. constructor; [exact Hgt|constructor].
Qed.

Lemma sorted_snoc_inv good t :
  ForallOrdPairs starts_before (good ++ [t]) ->
  ForallOrdPairs starts_before good
  /\ Forall (fun g => Tag.pos g <= Tag.pos t) good.
Proof.
  induction good as [|g good IH]; cbn [app]; intros H.
  - split; constructor.
  - inversion H as [|? ? Hg Hrest]; subst.
    destruct (IH Hrest) as [Hgood Hle].
    apply Forall_app in Hg as [Hg Hgt].
    split; constructor; try assumption.
    now inversion Hgt.
Qed.

Lemma initial_with buf commonLines coveredLines good t1 tA restA :
  Tag.pos tA = Tag.pos t1 ->
  initial buf commonLines coveredLines (good ++ tA :: restA)
  = with_tags_it (initial buf commonLines coveredLines (good ++ [t1]))
      (good ++ tA :: restA).
Proof.
  intros Hpos. unfold initial, with_tags_it. cbn.
  destruct good; cbn [app]; now rewrite ?Hpos.
Qed.

(** The opening loop at the offset of [tA], the tags before it in the list
    starting there too. *)
Lemma open_started_at buf k l tA restA : forall stack next_end out,
  Forall (fun t => Tag.pos t = k) l -> Tag.pos tA = k ->
  first_pos (end_ buf) restA <> k ->
  exists stack2 next_end2 out2,
    open_started buf k (l ++ tA :: restA) k stack next_end out
    = Some (restA, first_pos (end_ buf) restA, stack2, next_end2, out2)
    /\ (Tag.len tA <> 0 -> next_end2 = k + Tag.len tA).
Proof.
  intros stack next_end out Hl HtA Hrest. revert stack next_end out.
  induction Hl as [|x l Hx Hl IH]; intros stack next_end out;
    cbn [app open_started]; rewrite Z.eqb_refl.
  - rewrite HtA, Z.eqb_refl.
    change (match restA with [] => end_ buf | t' :: _ => Tag.pos t' end)
      with (first_pos (end_ buf) restA).
    assert (Hstop : forall stack next_end out,
              open_started buf k restA (first_pos (end_ buf) restA) stack
                next_end out
              = Some (restA, first_pos (end_ buf) restA, stack, next_end,
                      out)).
    { intros st ne o. destruct restA as [|u restA']; [reflexivity|].
      cbn [open_started first_pos] in *.
      now replace (k =? Tag.pos u) with false by lia. }
    rewrite !Hstop.
    destruct (Z.eqb_spec (Tag.len tA) 0) as [E|E].
    + eexists _, _, _. split; [reflexivity|]. intros H. contradiction.
    + eexists _, _, _. split; [reflexivity|]. reflexivity.
  - rewrite Hx, Z.eqb_refl.
    assert (Hnext : match l ++ tA :: restA with
                    | [] => end_ buf
                    | t' :: _ => Tag.pos t'
                    end = k).
    { destruct l as [|y l']; cbn [app]; [exact HtA|now inversion Hl]. }
    rewrite Hnext. destruct (Tag.len x =? 0); apply IH.
Qed.

Section SortedHead.

Variable buf : bytes.
Variables commonLines coveredLines : list Z.

(** An iteration that handles an event before the end of the buffer. *)
Lemma loop_body_opens s :
  Head buf s -> 0 <= c s < end_ buf -> c s = next s ->
  exists stack1 next_end1 out1 tags_it2 next_start2 stack2 next_end2 out2 s',
    open_started buf (c s) (tags_it s) (next_start s) stack1 next_end1 out1
    = Some (tags_it2, next_start2, stack2, next_end2, out2)
    /\ loop_body buf commonLines coveredLines s = Continue s'
    /\ Head buf s' /\ c s' = c s + 1
    /\ event_state s'
       = (tags_it2, next_start2, next_end2, Z.min next_end2 next_start2,
          stack2).
Proof.
  intros Hs Hc Hn.
  destruct (at_event_head buf s Hs ltac:(lia)) as (s1 & Hev & Hs1 & Hc1 & _).
  destruct (switch_head buf commonLines coveredLines s1 Hs1 ltac:(lia))
    as (s2 & Hsw & Hs2 & Hc2 & He).
  unfold loop_body. replace (c s =? next s) with true by lia.
  rewrite Hev, Hsw. revert Hev. unfold at_event. rewrite flush_eq.
  cbn [c stack next_end myfile tags_it next_start line bufferStart next].
  destruct (close_ended buf (c s) (stack s) (next_end s) (written buf s))
    as [[stack1 next_end1] out1].
  destruct (Z.geb_spec (c s) (end_ buf)) as [Hge|_]; [lia|].
  destruct (open_started buf (c s) (tags_it s) (next_start s) stack1
              next_end1 out1)
    as [[[[[tags_it2 next_start2] stack2] next_end2] out2]|] eqn:Hop;
    [|discriminate].
  intros [= <-].
  exists stack1, next_end1, out1, tags_it2, next_start2, stack2, next_end2,
    out2, (advance s2).
  split; [exact Hop|]. split; [reflexivity|]. split; [exact Hs2|].
  split; [lia|]. rewrite He. reflexivity.
Qed.

(** The cursor arrives at the first tag [tA] that follows a sorted head
    [good] of the list: the tags of the head not yet opened start where
    [tA] starts. *)
Lemma arrive_after_sorted good tA restA :
  ForallOrdPairs starts_before good ->
  Forall (inside (end_ buf)) good ->
  Forall (fun g => Tag.pos g <= Tag.pos tA) good ->
  0 <= Tag.pos tA < end_ buf ->
  exists s l,
    iterate buf commonLines coveredLines (Z.to_nat (Tag.pos tA))
      (initial buf commonLines coveredLines (good ++ tA :: restA)) = Some s
    /\ Head buf s /\ c s = Tag.pos tA /\ next s = Tag.pos tA
    /\ next_start s = Tag.pos tA
    /\ tags_it s = l ++ tA :: restA
    /\ Forall (fun t => Tag.pos t = Tag.pos tA) l.
Proof.
  intros Hsorted Hinside Hle Hpos.
  set (p := Tag.pos tA) in *.
  set (t1 := Tag.mk [] [] p 0).
  assert (Hsorted1 : ForallOrdPairs starts_before (good ++ [t1]))
    by (apply sorted_snoc; assumption).
  assert (Hinside1 : Forall (inside (end_ buf)) (good ++ [t1])).
  { apply Forall_app. split; [exact Hinside|].
    constructor; [|constructor]. unfold inside. cbn. lia. }
  assert (Hbuf : buf = [] ++ firstn (Z.to_nat p) buf ++ skipn (Z.to_nat p) buf)
    by (cbn [app]; now rewrite firstn_skipn).
  assert (Hlen : length (firstn (Z.to_nat p) buf) = Z.to_nat p)
    by (rewrite length_firstn; unfold end_ in *; lia).
  destruct (iterate_from_inside buf commonLines coveredLines (good ++ [t1])
              Hsorted1 Hinside1 (firstn (Z.to_nat p) buf) []
              (skipn (Z.to_nat p) buf) 0 []
              (initial buf commonLines coveredLines (good ++ [t1])) Hbuf
              eq_refl
              (initial_inv_inside buf commonLines coveredLines _ Hinside1))
    as (s1 & Hit1 & HI1 & _).
  rewrite Hlen in Hit1, HI1.
  replace (0 + Z.of_nat (Z.to_nat p)) with p in HI1 by lia.
  destruct HI1 as [Hc1 Hb1 Hti1 Hns1 Hst1 Hne1 Hnx1 Hle1].
  assert (Hpend : pending (good ++ [t1]) p = pending good p ++ [t1]).
  { unfold pending. rewrite filter_app. cbn [filter Tag.pos t1].
    now rewrite Z.leb_refl. }
  destruct (iterate_tail buf commonLines coveredLines t1 tA [] restA p
              eq_refl eq_refl (Z.to_nat p)
              (initial buf commonLines coveredLines (good ++ [t1])) s1 good
              eq_refl ltac:(cbn [initial c]; lia) Hit1)
    as (l & Hl & Hit).
  rewrite <- (initial_with buf commonLines coveredLines good t1 tA restA
                eq_refl) in Hit.
  rewrite Hti1, Hpend in Hl. apply app_inv_tail in Hl. subst l.
  assert (Hall : Forall (fun t => Tag.pos t = p) (pending good p)).
  { apply Forall_forall. intros t Ht. unfold pending in Ht.
    apply filter_In in Ht as [Ht Hge]. rewrite Forall_forall in Hle.
    specialize (Hle t Ht). cbn beta in Hle. lia. }
  assert (Hfirst : first_pos (end_ buf) (pending (good ++ [t1]) p) = p).
  { rewrite Hpend. destruct (pending good p) as [|x l]; [reflexivity|].
    now inversion Hall. }
  exists (with_tags_it s1 (pending good p ++ tA :: restA)), (pending good p).
  split; [exact Hit|].
  split; [exact (iterate_keeps_head buf commonLines coveredLines _ _ _
                   (initial_head buf _ _ _) Hit)|].
  cbn [with_tags_it c next next_start tags_it].
  split; [exact Hc1|]. split; [lia|]. split; [congruence|].
  split; [reflexivity|exact Hall].
Qed.

(** After the iteration at the start of [tA]. *)
Lemma after_sorted_head good tA restA :
  ForallOrdPairs starts_before good ->
  Forall (inside (end_ buf)) good ->
  Forall (fun g => Tag.pos g <= Tag.pos tA) good ->
  0 <= Tag.pos tA < end_ buf ->
  first_pos (end_ buf) restA <> Tag.pos tA ->
  exists s next_end2 stack2,
    iterate buf commonLines coveredLines (Z.to_nat (Tag.pos tA) + 1)
      (initial buf commonLines coveredLines (good ++ tA :: restA)) = Some s
    /\ c s = Tag.pos tA + 1
    /\ event_state s
       = (restA, first_pos (end_ buf) restA, next_end2,
          Z.min next_end2 (first_pos (end_ buf) restA), stack2)
    /\ (Tag.len tA <> 0 -> next_end2 = Tag.pos tA + Tag.len tA).
Proof.
  intros Hsorted Hinside Hle Hpos Hrest.
  destruct (arrive_after_sorted good tA restA Hsorted Hinside Hle Hpos)
    as (s & l & Hit & Hs & Hc & Hn & Hns & Hti & Hl).
  destruct (loop_body_opens s Hs ltac:(lia) ltac:(lia))
    as (stack1 & next_end1 & out1 & tags_it2 & next_start2 & stack2
        & next_end2 & out2 & s' & Hop & Hbody & Hs' & Hc' & He).
  rewrite Hti, Hns, Hc in Hop.
  destruct (open_started_at buf (Tag.pos tA) l tA restA stack1 next_end1 out1
              Hl eq_refl Hrest)
    as (stack3 & next_end3 & out3 & Hop3 & Hne3).
  rewrite Hop3 in Hop. injection Hop as <- <- <- <- <-.
  exists s', next_end3, stack3.
  split; [rewrite iterate_app, Hit; cbn [iterate]; now rewrite Hbody|].
  split; [lia|]. split; [exact He|exact Hne3].
Qed.

End SortedHead.

(** A list that is not sorted has a sorted head followed by a tag that
    starts before the last tag of the head. *)
Lemma unsorted_descent tags :
  sorted tags = false ->
  exists good t u rest,
    tags = good ++ t :: u :: rest
    /\ ForallOrdPairs starts_before (good ++ [t])
    /\ Tag.pos u < Tag.pos t.
Proof.
  induction tags as [|a ts IH]; [discriminate|].
  destruct (sorted ts) eqn:Hts.
  - intros Hs. destruct ts as [|b ts']; [discriminate|].
    destruct (Z.le_gt_cases (Tag.pos a) (Tag.pos b)) as [Hab|Hab].
    + exfalso. cbn [sorted] in Hs, Hts. rewrite Hts, andb_true_r in Hs.
      apply andb_true_iff in Hts as [Hb _]. rewrite forallb_forall in Hb.
      assert (Ht : forallb (fun u => Tag.pos a <=? Tag.pos u) (b :: ts')
                   = true).
      { apply forallb_forall. intros u [<-|Hu]; [lia|].
        specialize (Hb u Hu). cbn beta in Hb. lia. }
      congruence.
    + exists [], a, b, ts'. split; [reflexivity|].
      split; [constructor; constructor|lia].
  - intros _. destruct (IH eq_refl) as (good & t & u & rest & -> & Hg & Hut).
    destruct (good ++ [t]) as [|h tl] eqn:Eh;
      [now destruct good|].
    destruct (Z.le_gt_cases (Tag.pos a) (Tag.pos h)) as [Hah|Hah].
    + exists (a :: good), t, u, rest. split; [reflexivity|].
      split; [|exact Hut]. cbn [app]. rewrite Eh.
      constructor; [|exact Hg].
      inversion Hg as [|? ? Hh Htl]; subst.
      constructor; [exact Hah|].
      eapply Forall_impl; [|exact Hh]. unfold starts_before. intros x Hx.
      lia.
    + destruct good as [|g good']; cbn [app] in Eh; injection Eh as -> Etl.
      * exists [], a, h, (u :: rest). split; [reflexivity|].
        split; [constructor; constructor|lia].
      * exists [], a, h, (good' ++ t :: u :: rest).
        split; [reflexivity|]. split; [constructor; constructor|lia].
Qed.

Lemma starts_before_end_all n tags :
  forallb (starts_before_end n) tags = true ->
  Forall (inside n) tags /\ Forall (fun t => Tag.pos t < n) tags.
Proof.
  intros H. rewrite forallb_forall in H.
  split; apply Forall_forall; intros t Ht; specialize (H t Ht);
    unfold starts_before_end, inside in *; lia.
Qed.

(** * Further properties *)

(** ** Generator::escapeAttr *)

(** X1. The stream overload appends to the stream what the buffer overload
    returns, whatever the buffer held before; and, for texts whose size
    fits [unsigned], escaping a concatenation gives the concatenation of
    the escaped parts, so that escaping to a stream part after part is
    escaping the whole. *)
Theorem escapeAttr_composes os s t buffer buffer' :
  escapeAttr_os os s = os ++ escapeAttr s buffer
  /\ (Z.of_nat (length (s ++ t)) < 2 ^ 32 ->
      escapeAttr (s ++ t) buffer
      = escapeAttr s buffer ++ escapeAttr t buffer'
      /\ escapeAttr_os (escapeAttr_os os s) t = escapeAttr_os os (s ++ t)).
Proof.
  split; [now rewrite escapeAttr_os_flat_map, escapeAttr_flat_map|].
  intros Hlen. rewrite length_app in Hlen.
  rewrite !escapeAttr_os_flat_map, !escapeAttr_flat_map.
  rewrite (scanned_all s), (scanned_all t), (scanned_all (s ++ t))
    by (rewrite ?length_app; lia).
  rewrite flat_map_app. split; [reflexivity|]. now rewrite <- app_assoc.
Qed.

Lemma escaping_in_two_parts :
  Z.of_nat (length (str "a<" ++ str "b>")) < 2 ^ 32
  /\ escapeAttr (str "a<" ++ str "b>") []
     = escapeAttr (str "a<") [] ++ escapeAttr (str "b>") [].
Proof.
  split; [reflexivity|].
  destruct (escapeAttr_composes [] (str "a<") (str "b>") [] []) as [_ H].
  exact (proj1 (H eq_refl)).
Defined.

(** X2. What [escapeAttr] returns holds no [<], no [>] and no quote of
    either kind, and each of its ampersands is the first byte of one of the
    five entities: it can stand in an attribute value or in text. *)
Theorem escaped_attribute_text_is_safe s buffer :
  Forall markup_free (escapeAttr s buffer)
  /\ forall pre post,
       escapeAttr s buffer = pre ++ "&"%char :: post ->
       entity_at ("&"%char :: post) <> None.
Proof.
  rewrite escapeAttr_flat_map. split.
  - apply flat_map_attr_escape_markup_free.
  - apply flat_map_attr_escape_ampersand.
Qed.

Lemma ampersand_of_an_escaped_text :
  escapeAttr (str "a&b") [] = str "a" ++ "&"%char :: str "amp;b"
  /\ entity_at ("&"%char :: str "amp;b") <> None.
Proof.
  split; [reflexivity|].
  destruct (escaped_attribute_text_is_safe (str "a&b") []) as [_ H].
  exact (H (str "a") (str "amp;b") eq_refl).
Defined.

(** X3. Replacing the five entities by their characters, in one pass from
    left to right, gives back the text that [escapeAttr] was given, when
    its size fits [unsigned]; so two such texts with the same escaped form
    are the same text. *)
Theorem escapeAttr_round_trip s t buffer buffer' :
  Z.of_nat (length s) < 2 ^ 32 ->
  unescape (escapeAttr s buffer) = s
  /\ (Z.of_nat (length t) < 2 ^ 32 ->
      escapeAttr s buffer = escapeAttr t buffer' -> s = t).
Proof.
  intros Hs.
  assert (Hround : forall x b, Z.of_nat (length x) < 2 ^ 32 ->
                               unescape (escapeAttr x b) = x).
  { intros x b Hx. rewrite escapeAttr_flat_map, scanned_all by exact Hx.
    apply unescape_flat_map_attr_escape. }
  split; [now apply Hround|].
  intros Ht E. rewrite <- (Hround s buffer Hs), <- (Hround t buffer' Ht).
  now rewrite E.
Qed.

Lemma round_trip_of_a_quoted_text :
  Z.of_nat (length (str "a<b & 'c'")) < 2 ^ 32
  /\ unescape (escapeAttr (str "a<b & 'c'") []) = str "a<b & 'c'".
Proof.
  split; [reflexivity|].
  exact (proj1 (escapeAttr_round_trip (str "a<b & 'c'") [] [] [] eq_refl)).
Defined.

(** X4. For a text whose size fits [unsigned], [escapeAttr] adds three
    bytes for each angle bracket, four for each ampersand and five for each
    quote, so the result is at most six times as long; it returns the text
    unchanged exactly when the text has none of the five characters, and
    escaping the result once more changes it in every other case. *)
Theorem escapeAttr_grows_and_is_not_idempotent s buffer :
  Z.of_nat (length s) < 2 ^ 32 ->
  length (escapeAttr s buffer) = (length s + escape_growth s)%nat
  /\ (length s <= length (escapeAttr s buffer) <= 6 * length s)%nat
  /\ (escapeAttr s buffer = s
      <-> forallb (fun ch => negb (is_reserved ch)) s = true)
  /\ (Z.of_nat (length (escapeAttr s buffer)) < 2 ^ 32 ->
      (escapeAttr (escapeAttr s buffer) buffer = escapeAttr s buffer
       <-> forallb (fun ch => negb (is_reserved ch)) s = true)).
Proof.
  intros Hs. rewrite !escapeAttr_flat_map, scanned_all by exact Hs.
  pose proof (flat_map_attr_escape_length s) as Hlen.
  pose proof (escape_growth_bound s) as Hbound.
  split; [exact Hlen|]. split; [lia|].
  split; [apply flat_map_attr_escape_plain|].
  intros Hr. rewrite scanned_all by exact Hr.
  rewrite flat_map_attr_escape_plain. split.
  - apply flat_map_attr_escape_reserved.
  - intros H. now rewrite (proj2 (flat_map_attr_escape_plain s) H).
Qed.

Lemma growth_of_an_ampersand :
  Z.of_nat (length (str "a&b")) < 2 ^ 32
  /\ length (escapeAttr (str "a&b") []) = 7%nat
  /\ escapeAttr (escapeAttr (str "a&b") []) [] <> escapeAttr (str "a&b") [].
Proof.
  split; [reflexivity|].
  destruct (escapeAttr_grows_and_is_not_idempotent (str "a&b") [] eq_refl)
    as (Hlen & _ & _ & Htwice).
  split; [exact Hlen|].
  intros E. apply (proj1 (Htwice eq_refl)) in E. discriminate E.
Defined.

(** X5. For a buffer without quotes, shorter than [2^32] bytes, the text
    written into the line bodies by the rendering loop is what [escapeAttr]
    returns for the buffer without its newline bytes: outside the quotes
    the two escapers agree. *)
Theorem body_text_is_attribute_escaping buf commonLines coveredLines tags
    buffer :
  placed buf tags = true -> Z.of_nat (length buf) < 2 ^ 32 ->
  forallb (fun ch => negb (is_quote ch)) buf = true ->
  exists out,
    render buf commonLines coveredLines tags = Some out
    /\ contents (filter is_text out)
       = escapeAttr (filter (fun ch => negb (is_newline ch)) buf) buffer.
Proof.
  intros Hpl Hlen Hquotes. exists (stacked tags commonLines coveredLines buf).
  split; [now apply render_stacked|].
  rewrite text_stacked, escapeAttr_flat_map.
  pose proof (filter_length_le (fun ch => negb (is_newline ch)) buf) as Hle.
  rewrite scanned_all by lia.
  apply body_escape_attr_escape. apply forallb_forall. intros ch Hch.
  apply filter_In in Hch as [Hch _].
  rewrite forallb_forall in Hquotes. now apply Hquotes.
Qed.

Lemma body_text_of_two_lines :
  placed (str "x<y" ++ newline :: str "&z") [] = true
  /\ Z.of_nat (length (str "x<y" ++ newline :: str "&z")) < 2 ^ 32
  /\ forallb (fun ch => negb (is_quote ch))
       (str "x<y" ++ newline :: str "&z") = true
  /\ exists out,
       render (str "x<y" ++ newline :: str "&z") [] [] [] = Some out
       /\ contents (filter is_text out) = str "x&lt;y&amp;z".
Proof.
  split; [reflexivity|]. split; [reflexivity|]. split; [reflexivity|].
  destruct (body_text_is_attribute_escaping
              (str "x<y" ++ newline :: str "&z") [] [] [] []
              eq_refl eq_refl eq_refl) as (out & Hout & Htext).
  exists out. split; [exact Hout|exact Htext].
Defined.

(** ** Generator::escapeAttrForFilename *)

(** X6. For a name whose size fits [unsigned], [escapeAttrForFilename]
    returns the name with every colon replaced by a dot and every other
    byte kept: the result has the length of the name and holds no colon. *)
Theorem filename_escaping_replaces_colons s buffer :
  Z.of_nat (length s) < 2 ^ 32 ->
  escapeAttrForFilename s buffer = map colon_to_dot s
  /\ length (escapeAttrForFilename s buffer) = length s
  /\ ~ In ":"%char (escapeAttrForFilename s buffer).
Proof.
  intros Hs. rewrite escapeAttrForFilename_map, scanned_all by exact Hs.
  split; [reflexivity|]. split; [apply length_map|].
  intros H. apply in_map_iff in H as (ch & E & _).
  now apply (colon_to_dot_colon ch).
Qed.

Lemma colons_of_a_drive_name :
  Z.of_nat (length (str "C:/a:b")) < 2 ^ 32
  /\ escapeAttrForFilename (str "C:/a:b") [] = str "C./a.b".
Proof.
  split; [reflexivity|].
  exact (proj1 (filename_escaping_replaces_colons (str "C:/a:b") []
                  eq_refl)).
Defined.

(** X7. Applying [escapeAttrForFilename] to its own result changes
    nothing; a name whose size fits [unsigned] is returned unchanged
    exactly when it holds no colon; and a name with a colon shares its
    result with another name, so the escaping cannot be undone. *)
Theorem filename_escaping_idempotent_not_injective s buffer buffer' :
  escapeAttrForFilename (escapeAttrForFilename s buffer) buffer'
  = escapeAttrForFilename s buffer
  /\ (Z.of_nat (length s) < 2 ^ 32 ->
      (escapeAttrForFilename s buffer = s <-> ~ In ":"%char s))
  /\ (In ":"%char s ->
      exists s',
        s' <> s
        /\ escapeAttrForFilename s' buffer = escapeAttrForFilename s buffer).
Proof.
  assert (Hidem : forall b b',
            escapeAttrForFilename (escapeAttrForFilename s b) b'
            = escapeAttrForFilename s b).
  { intros b b'. rewrite !escapeAttrForFilename_map.
    rewrite scanned_all
      by (rewrite length_map; apply scanned_length).
    rewrite map_map. apply map_ext. apply colon_to_dot_twice. }
  split; [apply Hidem|]. split.
  - intros Hs. rewrite escapeAttrForFilename_map, scanned_all by exact Hs.
    apply colon_to_dot_plain.
  - intros Hin. exists (escapeAttrForFilename s buffer).
    split; [|apply Hidem].
    intros E. rewrite <- E in Hin. rewrite escapeAttrForFilename_map in Hin.
    apply in_map_iff in Hin as (ch & Hch & _).
    now apply (colon_to_dot_colon ch).
Qed.

Lemma colon_and_dot_collide :
  In ":"%char (str "a:b")
  /\ exists s',
       s' <> str "a:b"
       /\ escapeAttrForFilename s' [] = escapeAttrForFilename (str "a:b") [].
Proof.
  assert (H : In ":"%char (str "a:b")) by (right; left; reflexivity).
  split; [exact H|].
  destruct (filename_escaping_idempotent_not_injective (str "a:b") [] [])
    as (_ & _ & Hcollide).
  exact (Hcollide H).
Defined.

(** ** Generator::getCommonLines and Generator::getCoveredLines *)

(** X8. The two readers do the same: they leave what the collection held
    in front and append the numbers read from the file, which are those
    read into an empty collection and all lie in the range of [int]. *)
Theorem line_numbers_are_appended_in_int_range (fs : filesystem) lines
    filename :
  exists read,
    getCommonLines fs lines filename = lines ++ read
    /\ getCoveredLines fs lines filename = lines ++ read
    /\ getCommonLines fs [] filename = read
    /\ Forall int_range read.
Proof.
  exists (getCommonLines fs [] filename).
  split; [apply getCommonLines_app|].
  split; [exact (getCommonLines_app fs lines filename)|].
  split; [reflexivity|apply getCommonLines_range].
Qed.

(** X9. A file that holds the decimal digits of [int] values, each
    followed by white space, and then something that is not a number, is
    read as these values in their order; what follows them is ignored. *)
Theorem written_numbers_are_read_back (fs : filesystem) filename lines items
    junk :
  Forall (fun item => int_range (fst item) /\ snd item <> []
                      /\ forallb isspace (snd item) = true) items ->
  extract_int junk = None ->
  fs filename = Some (numbers_file items ++ junk) ->
  getCommonLines fs lines filename = lines ++ map fst items
  /\ getCoveredLines fs lines filename = lines ++ map fst items.
Proof.
  intros Hitems Hjunk Hfs.
  split; exact (getCommonLines_numbers fs filename lines items junk
                  Hitems Hjunk Hfs).
Qed.

Lemma numbers_of_a_small_file :
  numbers_then_a_word (str "main.cpp.common")
  = Some (numbers_file [(3, str " "); (-7, [newline])] ++ str "x 9")
  /\ extract_int (str "x 9") = None
  /\ getCommonLines numbers_then_a_word [1] (str "main.cpp.common")
     = [1; 3; -7].
Proof.
  split; [reflexivity|]. split; [reflexivity|].
  assert (Hitems : Forall (fun item => int_range (fst item) /\ snd item <> []
                             /\ forallb isspace (snd item) = true)
                     [(3, str " "); (-7, [newline])]).
  { repeat constructor; cbn; (lia || discriminate). }
  exact (proj1 (written_numbers_are_read_back numbers_then_a_word
                  (str "main.cpp.common") [1]
                  [(3, str " "); (-7, [newline])] (str "x 9")
                  Hitems eq_refl eq_refl)).
Defined.

(** X10. A number that does not fit an [int] ends the reading: the values
    before it are kept, the number and everything after it are dropped, and
    nothing is reported. *)
Theorem number_out_of_range_ends_the_reading (fs : filesystem) filename lines
    items big rest :
  Forall (fun item => int_range (fst item) /\ snd item <> []
                      /\ forallb isspace (snd item) = true) items ->
  ~ int_range big ->
  fs filename = Some (numbers_file items ++ dec big ++ rest) ->
  getCommonLines fs lines filename = lines ++ map fst items
  /\ getCoveredLines fs lines filename = lines ++ map fst items.
Proof.
  intros Hitems Hbig Hfs.
  split;
    exact (getCommonLines_numbers fs filename lines items (dec big ++ rest)
             Hitems (extract_int_overflow big rest Hbig) Hfs).
Qed.

Lemma number_after_int_max :
  ~ int_range 2147483648
  /\ number_too_large (str "main.cpp.common")
     = Some (numbers_file [(5, str " ")] ++ dec 2147483648 ++ str " 6")
  /\ getCommonLines number_too_large [] (str "main.cpp.common") = [5].
Proof.
  assert (Hbig : ~ int_range 2147483648) by (unfold int_range; lia).
  split; [exact Hbig|]. split; [reflexivity|].
  assert (Hitems : Forall (fun item => int_range (fst item) /\ snd item <> []
                             /\ forallb isspace (snd item) = true)
                     [(5, str " ")]).
  { repeat constructor; cbn; (lia || discriminate). }
  exact (proj1 (number_out_of_range_ends_the_reading number_too_large
                  (str "main.cpp.common") [] [(5, str " ")] 2147483648
                  (str " 6") Hitems Hbig eq_refl)).
Defined.

(** ** Generator::generate: the names derived from the file name *)

(** X11. For every file name, the name used for the annotation files is
    the longest end of the file name that holds no slash and no backslash:
    the file name is a directory part, empty or ended by one of the two
    separators, followed by it. Taking it again changes nothing. *)
Theorem base_name_is_the_longest_plain_suffix filename :
  exists dir,
    filename = dir ++ exactFilename filename
    /\ (forall ch, In ch (exactFilename filename) -> ~ In ch (str "\/"))
    /\ (dir = []
        \/ exists dir' sep, dir = dir' ++ [sep] /\ In sep (str "\/"))
    /\ exactFilename (exactFilename filename) = exactFilename filename.
Proof.
  destruct (exactFilename_suffix filename) as (dir & Hf & Hplain & Hdir).
  exists dir. split; [exact Hf|]. split; [exact Hplain|].
  split; [exact Hdir|]. now apply exactFilename_plain.
Qed.

(** X12. For the path of a file under the directories [dirs] and [last],
    none of the names holding a slash: [count] is the number of
    directories; [root_path] climbs one level for each of them; the title
    names the file without its directories; and the breadcrumb links
    each directory of [dirs] to the path that climbs to it, [last] to
    [./] and the file name to its own page, with a slash after each
    directory. *)
Theorem header_of_a_path dirs last base myfile :
  Forall (fun d => ~ In "/"%char d) dirs -> ~ In "/"%char last ->
  ~ In "/"%char base -> Z.of_nat (length dirs) < 2 ^ 31 - 1 ->
  count (path (dirs ++ [last]) base) = Z.of_nat (length dirs) + 1
  /\ root_path (path (dirs ++ [last]) base) = up_path (S (length dirs))
  /\ title (path (dirs ++ [last]) base)
     = str "<title>" ++ base ++ str " source code ["
       ++ path (dirs ++ [last]) base
       ++ str "] - Woboq Code Browser</title>" ++ [newline]
  /\ breadcrumb (path (dirs ++ [last]) base) myfile
     = myfile ++ crumbs dirs ++ link (str "./") last ++ str "/"
       ++ link (base ++ str ".html") base.
Proof.
  intros Hdirs Hlast Hbase Hlen.
  assert (Hall : Forall (fun d => ~ In "/"%char d) (dirs ++ [last]))
    by (apply Forall_app; split; [exact Hdirs|now constructor]).
  assert (Hn : length (dirs ++ [last]) = S (length dirs))
    by (rewrite length_app; cbn [length]; lia).
  split; [rewrite count_path by (auto; lia); lia|].
  split; [rewrite root_path_path by (auto; lia); now rewrite Hn|].
  split; [|now apply breadcrumb_path].
  unfold title. do 2 f_equal.
  rewrite path_snoc. unfold path. rewrite app_assoc.
  now rewrite rsplit_last.
Qed.

Lemma header_of_a_nested_file :
  Z.of_nat (length [str "a"]) < 2 ^ 31 - 1
  /\ count (str "a/b/c.h") = 2
  /\ root_path (str "a/b/c.h") = str "../.."
  /\ breadcrumb (str "a/b/c.h") []
     = str "<a href='..'>a</a>/<a href='./'>b</a>/<a href='c.h.html'>c.h</a>".
Proof.
  split; [reflexivity|].
  assert (Ha : Forall (fun d => ~ In "/"%char d) [str "a"]).
  { repeat constructor. cbn. intuition discriminate. }
  assert (Hb : ~ In "/"%char (str "b")) by (cbn; intuition discriminate).
  assert (Hc : ~ In "/"%char (str "c.h")) by (cbn; intuition discriminate).
  destruct (header_of_a_path [str "a"] (str "b") (str "c.h") [] Ha Hb Hc
              eq_refl) as (Hcount & Hroot & _ & Hcrumbs).
  split; [exact Hcount|]. split; [exact Hroot|exact Hcrumbs].
Defined.

(** X13. For a file name with at least one slash, without [<] and [>] and
    shorter than [2^31] bytes, the text of the breadcrumb, its markup
    stripped, is the file name. *)
Theorem breadcrumb_shows_the_file_name filename :
  In "/"%char filename -> ~ In "<"%char filename -> ~ In ">"%char filename ->
  Z.of_nat (length filename) < 2 ^ 31 ->
  strip_markup (breadcrumb filename []) = filename.
Proof.
  intros Hslash Hlt Hgt Hlen.
  destruct (path_components filename)
    as (dirs & base & -> & Hdirs & Hbase & Hne).
  specialize (Hne Hslash).
  destruct (exists_last Hne) as (dirs' & last & ->).
  apply Forall_app in Hdirs as [Hdirs' Hlast].
  inversion Hlast as [|? ? Hl _]; subst.
  pose proof (path_length (dirs' ++ [last]) base) as Hpl.
  rewrite length_app in Hpl. cbn [length] in Hpl.
  assert (Hin : forall ch d, In d (dirs' ++ [last]) -> In ch d ->
                             In ch (path (dirs' ++ [last]) base)).
  { intros ch d H1 H2. apply in_path. left. now exists d. }
  assert (Hlen' : Z.of_nat (length dirs') < 2 ^ 31 - 1) by lia.
  apply strip_breadcrumb_path; try assumption.
  - apply Forall_forall. intros d Hd Hch. apply Hlt.
    apply (Hin _ d); [|exact Hch]. apply in_app_iff. now left.
  - intros Hch. apply Hlt. apply (Hin _ last); [|exact Hch].
    apply in_app_iff. right. now left.
  - intros Hch. apply Hlt. apply in_path. now (right; right).
  - intros Hch. apply Hgt. apply in_path. now (right; right).
Qed.

Lemma breadcrumb_text_of_a_nested_file :
  In "/"%char (str "a/b/c.h")
  /\ strip_markup (breadcrumb (str "a/b/c.h") []) = str "a/b/c.h".
Proof.
  assert (H : In "/"%char (str "a/b/c.h")) by (right; left; reflexivity).
  split; [exact H|].
  apply (breadcrumb_shows_the_file_name (str "a/b/c.h") H);
    [cbn; intuition discriminate|cbn; intuition discriminate|reflexivity].
Defined.

(** X14. For a file name without a slash, [count] is 0 and [root_path] is
    [..] as for a file one directory deep, the title names nothing before
    [source code], and the breadcrumb shows the file name as a directory
    linked to [./], followed by a link to [.html] with no text. *)
Theorem header_of_a_name_without_slash filename myfile :
  ~ In "/"%char filename ->
  count filename = 0
  /\ root_path filename = str ".."
  /\ title filename
     = str "<title> source code [" ++ filename
       ++ str "] - Woboq Code Browser</title>" ++ [newline]
  /\ breadcrumb filename myfile
     = myfile ++ link (str "./") filename ++ str "/" ++ link (str ".html") [].
Proof.
  intros Hf.
  assert (Hcount : count filename = 0).
  { unfold count. now rewrite (slashes_absent filename Hf). }
  split; [exact Hcount|]. split; [unfold root_path; now rewrite Hcount|].
  split.
  - unfold title. now rewrite rsplit_absent.
  - unfold breadcrumb. rewrite Hcount.
    change (Z.to_nat (0 - 1)) with O. cbn [breadcrumb_while].
    rewrite (split_absent filename "/" Hf). cbn [fst snd].
    unfold link. unfold str. cbn [list_ascii_of_string app].
    now rewrite <- !app_assoc.
Qed.

Lemma header_of_a_top_level_file :
  ~ In "/"%char (str "main.cpp")
  /\ root_path (str "main.cpp") = str ".."
  /\ breadcrumb (str "main.cpp") []
     = str "<a href='./'>main.cpp</a>/<a href='.html'></a>".
Proof.
  assert (H : ~ In "/"%char (str "main.cpp")) by (cbn; intuition discriminate).
  split; [exact H|].
  destruct (header_of_a_name_without_slash (str "main.cpp") [] H)
    as (_ & Hroot & _ & Hcrumbs).
  split; [exact Hroot|exact Hcrumbs].
Defined.

(** ** Generator::generate: the rendering loop for any tag list *)

(** X15. Whatever the tag list, the assertion of the opening loop never
    fails and the iterations read the bytes of the buffer one after the
    other until the cursor is at its end. The behaviour is then undefined,
    the byte after the buffer being read, exactly when the next event is
    not at the end of the buffer; otherwise the loop ends there. *)
Theorem undefined_exactly_when_the_end_is_missed buf commonLines coveredLines
    tags :
  (forall j s,
     iterate buf commonLines coveredLines j
       (initial buf commonLines coveredLines tags) = Some s ->
     at_event buf s <> Fault)
  /\ exists s,
       iterate buf commonLines coveredLines (length buf)
         (initial buf commonLines coveredLines tags) = Some s
       /\ c s = Z.of_nat (length buf)
       /\ (render buf commonLines coveredLines tags = None
           <-> next s <> Z.of_nat (length buf)).
Proof.
  split.
  - intros j s Hit.
    pose proof (iterate_keeps_head buf commonLines coveredLines j _ _
                  (initial_head buf _ _ tags) Hit) as Hs.
    destruct (Z.lt_ge_cases (c s) (end_ buf)) as [Hc|Hc].
    + destruct (at_event_head buf s Hs Hc) as (s1 & -> & _). discriminate.
    + destruct (at_event_break buf s Hs Hc) as (s1 & cl & -> & _).
      discriminate.
  - destruct (loop_end buf commonLines coveredLines tags)
      as (s & Hit & Hs & Hc & ->).
    exists s. split; [exact Hit|]. split; [exact Hc|].
    destruct (loop_body_end buf commonLines coveredLines s Hs Hc)
      as [Hbreak Hfault].
    fold (end_ buf). split.
    + intros Hnone Hn. destruct (Hbreak Hn) as (s' & cl & E & _).
      rewrite E in Hnone. discriminate.
    + intros Hn. now rewrite (Hfault Hn).
Qed.

Lemma assertion_holds_before_a_late_tag :
  iterate hello [] [] 0 (initial hello [] [] [late_9_1])
  = Some (initial hello [] [] [late_9_1])
  /\ at_event hello (initial hello [] [] [late_9_1]) <> Fault.
Proof.
  split; [reflexivity|].
  destruct (undefined_exactly_when_the_end_is_missed hello [] [] [late_9_1])
    as [H _].
  exact (H O _ eq_refl).
Defined.

(** X16. Whatever the tag list, at the start of every iteration the stack
    of the renderer holds the tags of nonzero length that are open in what
    was written, the last opened on top. When the loop ends, what is
    written before the end of the last line container leaves the tags of
    the final stack open, and the whole table is balanced exactly when that
    stack is empty. *)
Theorem stack_mirrors_markup_for_any_tags buf commonLines coveredLines tags :
  (forall j s,
     iterate buf commonLines coveredLines j
       (initial buf commonLines coveredLines tags) = Some s ->
     balance [] (myfile s) = Some (stack s)
     /\ Forall (fun t => Tag.len t <> 0) (stack s))
  /\ (forall out,
        render buf commonLines coveredLines tags = Some out ->
        exists before left,
          out = before ++ [RowEnd; TableEnd]
          /\ balance [] before = Some left
          /\ (balance [] out = Some [] <-> left = [])).
Proof.
  split.
  - intros j s Hit.
    destruct (iterate_keeps_head buf commonLines coveredLines j _ _
                (initial_head buf _ _ tags) Hit) as [_ _ Hbal Hnz].
    split; [|exact Hnz].
    unfold written in Hbal. rewrite balance_app in Hbal.
    destruct (balance [] (myfile s)) as [st|]; [|discriminate].
    now rewrite balance_lits in Hbal.
  - intros out Hout.
    destruct (loop_end buf commonLines coveredLines tags)
      as (s & Hit & Hs & Hc & Hr).
    rewrite Hr in Hout.
    destruct (loop_body_end buf commonLines coveredLines s Hs Hc)
      as [Hbreak Hfault].
    destruct (Z.eq_dec (next s) (end_ buf)) as [Hn|Hn];
      [|rewrite (Hfault Hn) in Hout; discriminate].
    destruct (Hbreak Hn) as (s' & cl & E & _ & _ & Hbal).
    rewrite E in Hout. injection Hout as <-.
    exists (myfile s'), (stack s'). split; [reflexivity|].
    split; [exact Hbal|].
    rewrite (balance_table_end _ _ Hbal).
    destruct (stack s'); [tauto|]. split; discriminate.
Qed.

Lemma stack_of_the_span_in_hello :
  exists s,
    iterate hello [] [] 2 (initial hello [] [] [span_1_3]) = Some s
    /\ stack s = [span_1_3]
    /\ balance [] (myfile s) = Some (stack s).
Proof.
  destruct (stack_mirrors_markup_for_any_tags hello [] [] [span_1_3])
    as [H _].
  eexists. split; [reflexivity|]. split; [reflexivity|].
  exact (proj1 (H 2%nat _ eq_refl)).
Defined.

(** X17. When the first tag of the list starts before the buffer or after
    its end, the cursor never meets the first event: no tag is handled and
    the byte after the buffer is read, which is undefined. A first tag that
    starts exactly at the end is not concerned. *)
Theorem first_tag_outside_the_buffer buf commonLines coveredLines t rest :
  Tag.pos t < 0 \/ Z.of_nat (length buf) < Tag.pos t ->
  render buf commonLines coveredLines (t :: rest) = None.
Proof.
  intros H.
  apply (missed_event buf commonLines coveredLines (t :: rest) O
           (initial buf commonLines coveredLines (t :: rest)));
    [reflexivity|cbn; unfold end_; lia|cbn; unfold end_; lia].
Qed.

Lemma tag_after_the_end_of_hello :
  (Tag.pos late_9_1 < 0 \/ Z.of_nat (length hello) < Tag.pos late_9_1)
  /\ render hello [] [] [late_9_1] = None.
Proof.
  assert (H : Tag.pos late_9_1 < 0
              \/ Z.of_nat (length hello) < Tag.pos late_9_1)
    by (right; reflexivity).
  split; [exact H|].
  exact (first_tag_outside_the_buffer hello [] [] late_9_1 [] H).
Defined.

(** X18. For tags that all start inside the buffer, before its end, with
    no negative length, the behaviour of the loop is undefined exactly when
    the list is not sorted by start. At the first tag that starts before
    its predecessor in the list, the next event lies behind the cursor: no
    later event is handled, the end of the buffer is missed and the byte
    after the buffer is read. *)
Theorem undefined_exactly_for_unsorted_tags buf commonLines coveredLines
    tags :
  forallb (starts_before_end (Z.of_nat (length buf))) tags = true ->
  render buf commonLines coveredLines tags = None <-> sorted tags = false.
Proof.
  intros Hall. apply starts_before_end_all in Hall as [Hin Hlt]. split.
  - intros Hnone. destruct (sorted tags) eqn:Hs; [|reflexivity].
    apply sorted_pairs in Hs.
    rewrite (render_stacked_inside buf commonLines coveredLines tags Hs Hin)
      in Hnone.
    discriminate.
  - intros Hs.
    destruct (unsorted_descent tags Hs)
      as (good & t & u & rest & -> & Hg & Hut).
    apply sorted_snoc_inv in Hg as [Hgood Hle].
    apply Forall_app in Hin as [Hin_good Hin_rest].
    apply Forall_app in Hlt as [_ Hlt_rest].
    inversion Hin_rest as [|? ? [Hpos _] _]; subst.
    inversion Hlt_rest as [|? ? Hend _]; subst.
    destruct (after_sorted_head buf commonLines coveredLines good t
                (u :: rest) Hgood Hin_good Hle ltac:(unfold end_; lia)
                ltac:(cbn [first_pos]; lia))
      as (s & next_end2 & stack2 & Hit & Hc & He & _).
    apply (missed_event buf commonLines coveredLines _ _ s Hit);
      [unfold end_; lia|].
    left. unfold event_state in He. injection He as _ _ _ Hn _.
    cbn [first_pos] in Hn. lia.
Qed.

Lemma tags_in_the_wrong_order :
  forallb (starts_before_end (Z.of_nat (length hello)))
    [italic_1_1; bold_3_1; span_1_3] = true
  /\ render hello [] [] [italic_1_1; bold_3_1; span_1_3] = None.
Proof.
  split; [reflexivity|].
  apply (undefined_exactly_for_unsorted_tags hello [] []
           [italic_1_1; bold_3_1; span_1_3]); reflexivity.
Defined.

(** X19. A tag of negative length that follows a sorted head of the list
    and starts inside the buffer, the next tag of the list starting
    elsewhere, is pushed on the stack with its end behind the cursor: no
    later event is handled and the byte after the buffer is read, which is
    undefined. *)
Theorem negative_length_misses_the_end buf commonLines coveredLines good t
    rest :
  sorted (good ++ [t]) = true ->
  forallb (starts_inside (Z.of_nat (length buf))) good = true ->
  0 <= Tag.pos t < Z.of_nat (length buf) -> Tag.len t < 0 ->
  (forall u, hd_error rest = Some u -> Tag.pos u <> Tag.pos t) ->
  render buf commonLines coveredLines (good ++ t :: rest) = None.
Proof.
  intros Hs Hin Hpos Hlen Hrest.
  apply sorted_pairs, sorted_snoc_inv in Hs as [Hgood Hle].
  apply starts_inside_all in Hin.
  destruct (after_sorted_head buf commonLines coveredLines good t rest
              Hgood Hin Hle Hpos)
    as (s & next_end2 & stack2 & Hit & Hc & He & Hne).
  { destruct rest as [|u rest']; cbn [first_pos]; [unfold end_; lia|].
    now apply Hrest. }
  apply (missed_event buf commonLines coveredLines _ _ s Hit);
    [unfold end_; lia|].
  left. unfold event_state in He. injection He as _ _ _ Hn _.
  specialize (Hne ltac:(lia)). lia.
Qed.

Lemma tag_of_negative_length :
  sorted ([italic_1_1] ++ [back_3]) = true
  /\ forallb (starts_inside (Z.of_nat (length hello))) [italic_1_1] = true
  /\ 0 <= Tag.pos back_3 < Z.of_nat (length hello)
  /\ Tag.len back_3 < 0
  /\ render hello [] [] ([italic_1_1] ++ back_3 :: []) = None.
Proof.
  split; [reflexivity|]. split; [reflexivity|]. split; [cbn; lia|].
  split; [reflexivity|].
  apply (negative_length_misses_the_end hello [] [] [italic_1_1] back_3 []);
    [reflexivity|reflexivity|cbn; lia|reflexivity|discriminate].
Defined.

(** X20. For a tag list sorted by start whose tags start inside the buffer
    or at its end and have no negative length, wherever they end, the loop
    ends normally; the table it writes is balanced exactly when every tag
    of nonzero length that starts before the end of the buffer also ends
    inside it. A tag that ends after the buffer is opened and stays open:
    the last line container ends before the tag is closed. *)
Theorem sorted_tags_that_start_inside buf commonLines coveredLines tags :
  sorted tags = true ->
  forallb (starts_inside (Z.of_nat (length buf))) tags = true ->
  exists out,
    render buf commonLines coveredLines tags = Some out
    /\ (balance [] out = Some []
        <-> forall t, In t tags -> Tag.len t <> 0 ->
              Tag.pos t < Z.of_nat (length buf) ->
              tag_end t <= Z.of_nat (length buf)).
Proof.
  intros Hs Hi. apply sorted_pairs in Hs. apply starts_inside_all in Hi.
  exists (stacked tags commonLines coveredLines buf).
  split; [now apply render_stacked_inside|].
  destruct (inside_bounded _ tags Hi) as (m & Hb).
  unfold stacked. cbn [app balance].
  rewrite balance_app,
    (balance_stacked_steps m tags commonLines coveredLines Hb)
    by constructor.
  rewrite balance_app, balance_ended.
  set (left := lasting (Z.of_nat (length buf)) (stack_after tags 0 buf [])).
  assert (Hleft : balance left [RowEnd; TableEnd] = Some [] <-> left = []).
  { destruct left; cbn; [tauto|]. split; discriminate. }
  rewrite Hleft. subst left. rewrite lasting_none, Forall_forall. split.
  - intros Hall t Ht Hlen Hpos.
    destruct (Z.le_gt_cases (tag_end t) (Z.of_nat (length buf))) as [H|H];
      [exact H|].
    apply Hall. apply (stack_after_covers tags buf 0 []); [|exact Ht|lia].
    intros u Hu Hur. rewrite Forall_forall in Hi.
    destruct (Hi u Hu) as [Hpu _]. lia.
  - intros Hall t Ht.
    destruct (stack_after_started tags buf 0 [] t Ht)
      as [[]|(Hin & Hlen & Hpos)].
    apply Hall; [exact Hin|exact Hlen|lia].
Qed.

Lemma tag_over_the_end_of_hello :
  sorted [span_1_3; over_3_5] = true
  /\ forallb (starts_inside (Z.of_nat (length hello)))
       [span_1_3; over_3_5] = true
  /\ exists out,
       render hello [] [] [span_1_3; over_3_5] = Some out
       /\ balance [] out <> Some [].
Proof.
  split; [reflexivity|]. split; [reflexivity|].
  destruct (sorted_tags_that_start_inside hello [] []
              [span_1_3; over_3_5] eq_refl eq_refl)
    as (out & Hout & Hbal).
  exists out. split; [exact Hout|]. intros H.
  apply (proj1 Hbal) with (t := over_3_5) in H;
    [cbn in H; lia|right; left; reflexivity|discriminate|reflexivity].
Defined.

(** ** Generator::generate: the table and its tags *)

(** X21. For a tag list sorted by start and inside the buffer, taking the
    open and close markup of the tags out of the table gives the table
    written for the same buffer without any tag: the tags add markup and
    change nothing else. *)
Theorem tags_add_markup_only buf commonLines coveredLines tags :
  placed buf tags = true ->
  exists out plain,
    render buf commonLines coveredLines tags = Some out
    /\ render buf commonLines coveredLines [] = Some plain
    /\ without_tags out = plain
    /\ without_tags plain = plain.
Proof.
  intros Hpl.
  exists (stacked tags commonLines coveredLines buf),
    (stacked [] commonLines coveredLines buf).
  split; [now apply render_stacked|].
  split; [now apply render_stacked|].
  split; apply without_tags_stacked.
Qed.

Lemma span_removed_from_two_lines :
  placed two_lines [span_1_3; marker_3] = true
  /\ exists out,
       render two_lines [] [] [span_1_3; marker_3] = Some out
       /\ Some (without_tags out) = render two_lines [] [] [].
Proof.
  split; [reflexivity|].
  destruct (tags_add_markup_only two_lines [] [] [span_1_3; marker_3]
              eq_refl) as (out & plain & Hout & Hplain & E & _).
  exists out. split; [exact Hout|]. now rewrite E, Hplain.
Defined.

(** X22. For a tag list sorted by start and inside the buffer whose names
    and attributes hold no [>], stripping the markup from the bytes of each
    line body and replacing the entities by their characters gives the
    lines of the buffer, one body for each line: the text can be read back
    from the tagged table. *)
Theorem tagged_text_round_trip buf commonLines coveredLines tags :
  placed buf tags = true -> Forall plain_markup tags ->
  exists out,
    render buf commonLines coveredLines tags = Some out
    /\ map body_text (bodies out) = split_lines buf.
Proof.
  intros Hpl Htags. exists (stacked tags commonLines coveredLines buf).
  split; [now apply render_stacked|].
  pose proof (bodies_stacked_parts tags commonLines coveredLines
                (body_part tags) (fun tok H => H) buf) as Hparts.
  rewrite (map_ext_in body_text
             (fun body => unescape (contents (without_tags body)))).
  - rewrite <- (map_map without_tags (fun b => unescape (contents b))).
    rewrite <- bodies_without_tags, without_tags_stacked, bodies_stacked.
    rewrite map_map. rewrite <- (map_id (split_lines buf)) at 2.
    apply map_ext. intros text. apply unescape_escaped.
  - intros body Hbody. rewrite Forall_forall in Hparts. unfold body_text.
    now rewrite (strip_body tags body Htags (Hparts body Hbody)).
Qed.

Lemma text_of_two_tagged_lines :
  placed two_lines [span_1_3; marker_3] = true
  /\ exists out,
       render two_lines [] [] [span_1_3; marker_3] = Some out
       /\ map body_text (bodies out) = [str "ab"; str "cd"].
Proof.
  split; [reflexivity|].
  assert (Htags : Forall plain_markup [span_1_3; marker_3]).
  { repeat constructor; cbn; intuition discriminate. }
  destruct (tagged_text_round_trip two_lines [] [] [span_1_3; marker_3]
              eq_refl Htags) as (out & Hout & Htext).
  exists out. split; [exact Hout|exact Htext].
Defined.

(** X23. For a tag list sorted by start and inside a buffer shorter than
    [2^31 - 1] bytes, whatever the annotation files hold, the rows of the
    table that [generate] writes are numbered from 1 on, and each row has
    the one primary style if its number was read from the [.common] file
    and the other if not, and the covered style exactly when its number was
    read from the [.coverage] file: the numbers read are [int] values, for
    which the searches of the loop are searches of the line number. *)
Theorem rows_styled_from_the_annotation_files (fs : filesystem) filename buf
    tags :
  placed buf tags = true -> Z.of_nat (length buf) < 2 ^ 31 - 1 ->
  exists out,
    generate fs filename buf tags = Some out
    /\ map (fun row => fst (fst row)) (rows out)
       = map Z.of_nat (seq 1 (S (length (filter is_newline buf))))
    /\ Forall
         (fun row =>
            (In (fst (fst row))
               (getCommonLines fs [] (exactFilename filename ++ str ".common"))
             -> snd (fst row) = aquamarine)
            /\ (~ In (fst (fst row))
                  (getCommonLines fs []
                     (exactFilename filename ++ str ".common"))
                -> snd (fst row) = lightcoral)
            /\ (In (fst (fst row))
                  (getCoveredLines fs []
                     (exactFilename filename ++ str ".coverage"))
                -> snd row = gold)
            /\ (~ In (fst (fst row))
                  (getCoveredLines fs []
                     (exactFilename filename ++ str ".coverage"))
                -> snd row = []))
         (rows out).
Proof.
  intros Hpl Hlen.
  set (commonLines :=
         getCommonLines fs [] (exactFilename filename ++ str ".common")).
  set (coveredLines :=
         getCoveredLines fs [] (exactFilename filename ++ str ".coverage")).
  assert (Hcommon : Forall int_range commonLines)
    by apply getCommonLines_range.
  assert (Hcovered : Forall int_range coveredLines)
    by apply getCommonLines_range.
  exists (stacked tags commonLines coveredLines buf).
  split; [unfold generate; now apply render_stacked|].
  rewrite rows_stacked_numbered by exact Hlen. split.
  - cbn [map fst seq]. f_equal. rewrite <- (seq_shift _ 1), !map_map.
    apply map_ext. intros i. cbn [row_of fst]. lia.
  - constructor.
    + cbn [fst snd]. repeat split; intros H.
      * apply find_int_In in H. now rewrite H.
      * rewrite <- find_int_In in H. apply not_true_is_false in H.
        now rewrite H.
      * apply find_int_In in H. now rewrite H.
      * rewrite <- find_int_In in H. apply not_true_is_false in H.
        now rewrite H.
    + apply Forall_forall. intros row Hrow.
      apply in_map_iff in Hrow as (i & <- & Hi). apply in_seq in Hi.
      assert (Hfilter : (length (filter is_newline buf) <= length buf)%nat)
        by apply filter_length_le.
      apply row_of_membership; [exact Hcommon|exact Hcovered|lia].
Qed.

Lemma rows_of_one_common_file :
  placed two_lines [] = true
  /\ Z.of_nat (length two_lines) < 2 ^ 31 - 1
  /\ getCommonLines one_common_file []
       (exactFilename (str "src/main.cpp") ++ str ".common") = [2]
  /\ exists out,
       generate one_common_file (str "src/main.cpp") two_lines [] = Some out
       /\ map (fun row => fst (fst row)) (rows out) = [1; 2]
       /\ rows out = [(1, lightcoral, []); (2, aquamarine, [])].
Proof.
  split; [reflexivity|]. split; [reflexivity|]. split; [reflexivity|].
  destruct (rows_styled_from_the_annotation_files one_common_file
              (str "src/main.cpp") two_lines [] eq_refl eq_refl)
    as (out & Hout & Hnumbers & _).
  exists out. split; [exact Hout|]. split; [exact Hnumbers|].
  assert (E : Some out = Some (stacked [] [2] [] two_lines))
    by (rewrite <- Hout; reflexivity).
  injection E as ->. reflexivity.
Defined.
